(** * Releasify: commit classification and version calculation

    A shallow embedding of the core of the release tool
    ([src/commit_parser.py], [src/commit_validator.py], [src/version_calc.py]
    and the accessors of [src/config.py]) together with the properties its
    specification states about it.

    Conventions of the embedding.
    - A Python [str] is a [list ascii]; a character is one of the 256 code
      points of Latin-1, and the character predicates below ([\d], [\w],
      [\s], [str.lower], [str.isupper], [str.strip]) are the restrictions of
      Python's Unicode predicates to these code points.
    - A Python [int] is a [Z].
    - [None] is [None]; a raised exception is the [Raise] case of [result].
    - The regular expressions of the source are kept as syntax trees of the
      type [regex] and run by one backtracking matcher, [run], which lists
      the ways a pattern matches in the order Python's [re] tries them. *)

From Stdlib Require Import Decimal DecimalN String Ascii.
From Stdlib Require Import ZArith NArith Lia Bool List.
Import ListNotations.

Local Open Scope list_scope.
Local Open Scope Z_scope.

(** ** Text *)

Definition text := list ascii.

Definition txt (s : string) : text := list_ascii_of_string s.

Definition code (c : ascii) : N := N_of_ascii c.

Definition in_range (lo hi : N) (c : ascii) : bool :=
  (lo <=? code c)%N && (code c <=? hi)%N.

Definition LF : ascii := "010"%char.

(** [\d] *)
Definition is_digit (c : ascii) : bool := in_range 48 57 c.

(** [\s] and the characters removed by [str.strip()] *)
Definition is_space (c : ascii) : bool :=
  in_range 9 13 c || in_range 28 32 c
  || (code c =? 133)%N || (code c =? 160)%N.

Definition is_ascii_upper (c : ascii) : bool := in_range 65 90 c.
Definition is_ascii_lower (c : ascii) : bool := in_range 97 122 c.

(** [str.isupper] of a single character *)
Definition is_upper (c : ascii) : bool :=
  is_ascii_upper c || (in_range 192 222 c && negb (code c =? 215)%N).

Definition has_upper_form (c : ascii) : bool :=
  is_ascii_lower c || (in_range 224 254 c && negb (code c =? 247)%N).

(** [\w] *)
Definition is_word (c : ascii) : bool :=
  is_digit c || is_ascii_upper c || is_ascii_lower c || (code c =? 95)%N
  || (code c =? 170)%N || (code c =? 178)%N || (code c =? 179)%N
  || (code c =? 181)%N || (code c =? 185)%N || (code c =? 186)%N
  || in_range 188 190 c || in_range 192 214 c || in_range 216 246 c
  || in_range 248 255 c.

Definition lower_char (c : ascii) : ascii :=
  if is_upper c then ascii_of_N (code c + 32) else c.

Definition upper_char (c : ascii) : ascii :=
  if has_upper_form c then ascii_of_N (code c - 32) else c.

(** [s.lower()] *)
Definition lower (s : text) : text := map lower_char s.

Fixpoint text_eqb (a b : text) : bool :=
  match a, b with
  | [], [] => true
  | x :: a', y :: b' => Ascii.eqb x y && text_eqb a' b'
  | _, _ => false
  end.

Fixpoint starts_with (p s : text) : bool :=
  match p, s with
  | [], _ => true
  | x :: p', y :: s' => Ascii.eqb x y && starts_with p' s'
  | _ :: _, [] => false
  end.

(** [needle in s] *)
Fixpoint contains (needle s : text) : bool :=
  starts_with needle s ||
  match s with
  | [] => false
  | _ :: s' => contains needle s'
  end.

(** [c in s] for a single character *)
Definition has_char (c : ascii) (s : text) : bool := existsb (Ascii.eqb c) s.

(** [s.endswith(c)] for a single character *)
Definition ends_with_char (c : ascii) (s : text) : bool :=
  match rev s with
  | x :: _ => Ascii.eqb x c
  | [] => false
  end.

Fixpoint drop_while (p : ascii -> bool) (s : text) : text :=
  match s with
  | x :: s' => if p x then drop_while p s' else s
  | [] => []
  end.

(** [s.lstrip(chars)] for a one-character set *)
Definition lstrip_char (c : ascii) (s : text) : text := drop_while (Ascii.eqb c) s.

(** [s.strip()] *)
Definition strip (s : text) : text :=
  rev (drop_while is_space (rev (drop_while is_space s))).

(** [s.split(sep)] for a one-character separator; never the empty list *)
Fixpoint split_on (sep : ascii) (s : text) : list text :=
  match s with
  | [] => [[]]
  | x :: s' =>
      if Ascii.eqb x sep then [] :: split_on sep s'
      else match split_on sep s' with
           | l :: ls => (x :: l) :: ls
           | [] => [[x]]
           end
  end.

(** [sep.join(parts)] *)
Fixpoint join (sep : text) (parts : list text) : text :=
  match parts with
  | [] => []
  | [p] => p
  | p :: ps => p ++ sep ++ join sep ps
  end.

(** [s.replace(old, new)]: the occurrences of [old] are found from the left
    and do not overlap; [skip] counts the characters of an occurrence still
    to pass.  With an empty [old], [new] goes before every character and at
    the end. *)
Fixpoint replace_from (old new : text) (skip : nat) (s : text) : text :=
  match s with
  | [] => []
  | c :: s' =>
      match skip with
      | S k => replace_from old new k s'
      | O =>
          if starts_with old s
          then new ++ replace_from old new (Nat.pred (length old)) s'
          else c :: replace_from old new O s'
      end
  end.

Definition replace (old new s : text) : text :=
  match old with
  | [] => new ++ flat_map (fun c => c :: new) s
  | _ :: _ => replace_from old new O s
  end.

(** [s.rstrip(chars)]: [chars] is a set of characters, not a suffix *)
Definition rstrip_chars (chars s : text) : text :=
  rev (drop_while (fun c => has_char c chars) (rev s)).

(** The first occurrence of a non-empty [sep] in [s]: what stands before it
    and what stands after it *)
Fixpoint split_once (sep s : text) : option (text * text) :=
  if starts_with sep s then Some ([], skipn (length sep) s)
  else
    match s with
    | [] => None
    | c :: s' =>
        match split_once sep s' with
        | Some (a, b) => Some (c :: a, b)
        | None => None
        end
    end.

(** [s.split(sep, 1)] for a non-empty [sep] *)
Definition split1 (sep s : text) : list text :=
  match split_once sep s with
  | Some (a, b) => [a; b]
  | None => [s]
  end.

(** [s.split(sep)] for a non-empty [sep] of any length: the occurrences
    are found from the left and do not overlap; [cur] holds the current
    piece, latest character first, and [skip] counts the characters of an
    occurrence still to pass *)
Fixpoint split_from (sep : text) (skip : nat) (cur s : text) : list text :=
  match s with
  | [] => [rev cur]
  | c :: s' =>
      match skip with
      | S k => split_from sep k cur s'
      | O =>
          if starts_with sep s
          then rev cur :: split_from sep (Nat.pred (length sep)) [] s'
          else split_from sep O (c :: cur) s'
      end
  end.

Definition split_str (sep s : text) : list text := split_from sep O [] s.

Definition CR : ascii := "013"%char.

(** Text read with universal newlines, as [subprocess.run(..., text=True)]
    hands over the output of a command: [CR LF] and a lone [CR] arrive as
    [LF].  [after_cr] tells that the character before was a [CR], whose [LF]
    is already written *)
Fixpoint newlines_from (after_cr : bool) (s : text) : text :=
  match s with
  | [] => []
  | c :: s' =>
      if Ascii.eqb c CR then LF :: newlines_from true s'
      else if Ascii.eqb c LF
           then if after_cr then newlines_from false s'
                else LF :: newlines_from false s'
           else c :: newlines_from false s'
  end.

Definition universal_newlines (s : text) : text := newlines_from false s.

(** ** Decimal numerals: [str(int)] and [int(str)] *)

Fixpoint digits_of_uint (d : uint) : text :=
  match d with
  | Nil => []
  | D0 d => "0"%char :: digits_of_uint d
  | D1 d => "1"%char :: digits_of_uint d
  | D2 d => "2"%char :: digits_of_uint d
  | D3 d => "3"%char :: digits_of_uint d
  | D4 d => "4"%char :: digits_of_uint d
  | D5 d => "5"%char :: digits_of_uint d
  | D6 d => "6"%char :: digits_of_uint d
  | D7 d => "7"%char :: digits_of_uint d
  | D8 d => "8"%char :: digits_of_uint d
  | D9 d => "9"%char :: digits_of_uint d
  end.

Definition push_digit (c : ascii) (d : uint) : option uint :=
  match c with
  | "0"%char => Some (D0 d)
  | "1"%char => Some (D1 d)
  | "2"%char => Some (D2 d)
  | "3"%char => Some (D3 d)
  | "4"%char => Some (D4 d)
  | "5"%char => Some (D5 d)
  | "6"%char => Some (D6 d)
  | "7"%char => Some (D7 d)
  | "8"%char => Some (D8 d)
  | "9"%char => Some (D9 d)
  | _ => None
  end.

(** The digits of an integer literal; as in Python, single underscores may
    separate digits.  [after_digit] tells whether the previous character was
    a digit. *)
Fixpoint uint_of_digits (after_digit : bool) (s : text) : option uint :=
  match s with
  | [] => if after_digit then Some Nil else None
  | c :: s' =>
      if Ascii.eqb c "_"%char then
        if after_digit then
          match s' with
          | [] => None
          | _ => uint_of_digits false s'
          end
        else None
      else
        match uint_of_digits true s' with
        | Some d => push_digit c d
        | None => None
        end
  end.

(** [str(n)] *)
Definition str_int (z : Z) : text :=
  match z with
  | Zneg p => "-"%char :: digits_of_uint (N.to_uint (Npos p))
  | _ => digits_of_uint (N.to_uint (Z.to_N z))
  end.

Definition nat_literal (s : text) : option Z :=
  match uint_of_digits false s with
  | Some d => Some (Z.of_N (N.of_uint d))
  | None => None
  end.

(** [int(s)]; [None] stands for [ValueError] *)
Definition py_int (s : text) : option Z :=
  match strip s with
  | "-"%char :: d => option_map Z.opp (nat_literal d)
  | "+"%char :: d => nat_literal d
  | d => nat_literal d
  end.

(** ** Regular expressions *)

Record flags := { multiline : bool; ignorecase : bool }.

Definition no_flags := {| multiline := false; ignorecase := false |}.
Definition MULTILINE := {| multiline := true; ignorecase := false |}.
Definition MULTILINE_IGNORECASE := {| multiline := true; ignorecase := true |}.

Inductive citem :=
| ILit (a : ascii)
| IRange (lo hi : ascii)
| IWord
| ISpace
| IDigit.

Inductive cset :=
| CItem (i : citem)
| CAny
| CSet (negated : bool) (items : list citem).

Inductive regex :=
| Bol
| Eol
| Str (s : text)
| One (c : cset)
| Rep (min : nat) (c : cset)
| Opt (r : regex)
| Group (name : string) (r : regex)
| Seq (r1 r2 : regex).

Notation "r1 >> r2" := (Seq r1 r2) (at level 61, right associativity).

(** [\d], [\w], [\s], [.] and [[^)]] *)
Definition d_ : cset := CItem IDigit.
Definition w_ : cset := CItem IWord.
Definition s_ : cset := CItem ISpace.
Definition dot_ : cset := CAny.
Definition not_rparen : cset := CSet true [ILit ")"].

Definition item_raw (i : citem) (c : ascii) : bool :=
  match i with
  | ILit a => Ascii.eqb c a
  | IRange lo hi => in_range (code lo) (code hi) c
  | IWord => is_word c
  | ISpace => is_space c
  | IDigit => is_digit c
  end.

Definition item_mem (fl : flags) (i : citem) (c : ascii) : bool :=
  item_raw i c
  || (ignorecase fl && (item_raw i (lower_char c) || item_raw i (upper_char c))).

Definition cmem (fl : flags) (cs : cset) (c : ascii) : bool :=
  match cs with
  | CItem i => item_mem fl i c
  | CAny => negb (Ascii.eqb c LF)
  | CSet neg items => xorb neg (existsb (fun i => item_mem fl i c) items)
  end.

(** A position in the subject: the characters already passed (latest first),
    the characters ahead, and the groups captured so far (latest first). *)
Record mstate := {
  seen : text;
  rest : text;
  groups : list (string * text)
}.

Definition at_bol (fl : flags) (st : mstate) : bool :=
  match seen st with
  | [] => true
  | x :: _ => multiline fl && Ascii.eqb x LF
  end.

Definition at_eol (fl : flags) (st : mstate) : bool :=
  match rest st with
  | [] => true
  | x :: tl =>
      Ascii.eqb x LF && (multiline fl || match tl with [] => true | _ => false end)
  end.

(** A literal string, one character after the other *)
Fixpoint eat (fl : flags) (s sn rs : text) : option (text * text) :=
  match s with
  | [] => Some (sn, rs)
  | a :: s' =>
      match rs with
      | x :: rs' => if item_mem fl (ILit a) x then eat fl s' (x :: sn) rs' else None
      | [] => None
      end
  end.

(** A greedy repetition of a character set: the longest run first *)
Fixpoint rep (p : ascii -> bool) (min : nat) (sn rs : text)
    (gs : list (string * text)) : list mstate :=
  let here := match min with
              | O => [ {| seen := sn; rest := rs; groups := gs |} ]
              | S _ => []
              end in
  match rs with
  | x :: rs' => if p x then rep p (Nat.pred min) (x :: sn) rs' gs ++ here else here
  | [] => here
  end.

Definition capture (name : string) (st st' : mstate) : mstate :=
  {| seen := seen st';
     rest := rest st';
     groups := (name, firstn (length (rest st) - length (rest st')) (rest st))
               :: groups st' |}.

(** All the matches of [r] from [st], in the order a backtracking matcher
    with greedy quantifiers finds them. *)
Fixpoint run (fl : flags) (r : regex) (st : mstate) : list mstate :=
  match r with
  | Bol => if at_bol fl st then [st] else []
  | Eol => if at_eol fl st then [st] else []
  | Str s =>
      match eat fl s (seen st) (rest st) with
      | Some (sn, rs) => [ {| seen := sn; rest := rs; groups := groups st |} ]
      | None => []
      end
  | One c =>
      match rest st with
      | x :: rs =>
          if cmem fl c x
          then [ {| seen := x :: seen st; rest := rs; groups := groups st |} ]
          else []
      | [] => []
      end
  | Rep min c => rep (cmem fl c) min (seen st) (rest st) (groups st)
  | Opt r => run fl r st ++ [st]
  | Group name r => map (capture name st) (run fl r st)
  | Seq r1 r2 => flat_map (run fl r2) (run fl r1 st)
  end.

Definition start (s : text) : mstate := {| seen := []; rest := s; groups := [] |}.

(** [pattern.match(s)] *)
Definition re_match (fl : flags) (r : regex) (s : text) : option mstate :=
  hd_error (run fl r (start s)).

Fixpoint search_from (fl : flags) (r : regex) (sn rs : text) : option mstate :=
  match run fl r {| seen := sn; rest := rs; groups := [] |} with
  | st :: _ => Some st
  | [] =>
      match rs with
      | x :: rs' => search_from fl r (x :: sn) rs'
      | [] => None
      end
  end.

(** [pattern.search(s)] *)
Definition re_search (fl : flags) (r : regex) (s : text) : option mstate :=
  search_from fl r [] s.

(** [m.group(name)]: [None] when the group took no part in the match *)
Fixpoint group (name : string) (gs : list (string * text)) : option text :=
  match gs with
  | [] => None
  | (n, v) :: gs' => if String.eqb n name then Some v else group name gs'
  end.

Definition is_some {A} (o : option A) : bool :=
  match o with Some _ => true | None => false end.

(** Python truthiness of an [Optional[str]] *)
Definition truthy (o : option text) : bool :=
  match o with
  | Some (_ :: _) => true
  | _ => false
  end.

(** ** Exceptions and log records *)

Inductive exn := ValueError (msg : text).

Inductive result (A : Type) :=
| Ok (a : A)
| Raise (e : exn).
Arguments Ok {A} a.
Arguments Raise {A} e.

Inductive LogRecord :=
| LogWarning (msg : text)
| LogInfo (msg : text).

(** ** commit_parser.BumpType *)

Inductive BumpType := MAJOR | MINOR | PATCH | NONE.

Definition BumpType_eqb (a b : BumpType) : bool :=
  match a, b with
  | MAJOR, MAJOR | MINOR, MINOR | PATCH, PATCH | NONE, NONE => true
  | _, _ => false
  end.

(** ** version_calc.Version *)

Module Version.

Record t := {
  major : Z;
  minor : Z;
  patch : Z;
  prerelease : option text;
  build : option text
}.

(** [Version(major, minor, patch)] *)
Definition make (a b c : Z) : t :=
  {| major := a; minor := b; patch := c; prerelease := None; build := None |}.

(** [Version.__str__] *)
Definition str (v : t) : text :=
  let version := str_int (major v) ++ txt "." ++ str_int (minor v)
                 ++ txt "." ++ str_int (patch v) in
  let version := match prerelease v with
                 | Some (c :: p) => version ++ txt "-" ++ (c :: p)
                 | _ => version
                 end in
  match build v with
  | Some (c :: b) => version ++ txt "+" ++ (c :: b)
  | _ => version
  end.

(** [[0-9A-Za-z\-.]] *)
Definition ident_chars : cset :=
  CSet false [IRange "0" "9"; IRange "A" "Z"; IRange "a" "z"; ILit "-"; ILit "."].

(** [^(?P<major>\d+)\.(?P<minor>\d+)\.(?P<patch>\d+)(?:-(?P<prerelease>[0-9A-Za-z\-.]+))?(?:\+(?P<build>[0-9A-Za-z\-.]+))?$] *)
Definition pattern : regex :=
  Bol >> Group "major" (Rep 1 d_) >> Str (txt ".")
      >> Group "minor" (Rep 1 d_) >> Str (txt ".")
      >> Group "patch" (Rep 1 d_)
      >> Opt (Str (txt "-") >> Group "prerelease" (Rep 1 ident_chars))
      >> Opt (Str (txt "+") >> Group "build" (Rep 1 ident_chars))
      >> Eol.

Definition group_int (name : string) (m : mstate) : option Z :=
  match group name (groups m) with
  | Some s => py_int s
  | None => None
  end.

(** [Version.parse] *)
Definition parse (version_str : text) : result t :=
  let version_str := lstrip_char "v" version_str in
  match re_match no_flags pattern version_str with
  | None => Raise (ValueError (txt "Invalid semantic version: " ++ version_str))
  | Some m =>
      match group_int "major" m, group_int "minor" m, group_int "patch" m with
      | Some a, Some b, Some c =>
          Ok {| major := a; minor := b; patch := c;
                prerelease := group "prerelease" (groups m);
                build := group "build" (groups m) |}
      | _, _, _ => Raise (ValueError (txt "Invalid version format: " ++ version_str))
      end
  end.

(** [Version.bump] *)
Definition bump (v : t) (bump_type : BumpType) : t :=
  match bump_type with
  | MAJOR => make (major v + 1) 0 0
  | MINOR => make (major v) (minor v + 1) 0
  | PATCH => make (major v) (minor v) (patch v + 1)
  | NONE => make (major v) (minor v) (patch v)
  end.

(** [Version.with_prerelease] *)
Definition with_prerelease (v : t) (pre : text) (counter : Z) : t :=
  {| major := major v; minor := minor v; patch := patch v;
     prerelease := Some (pre ++ txt "." ++ str_int counter);
     build := None |}.

End Version.

(** ** config.py *)

Module BranchConfig.
Record t := {
  name : text;
  type : text;
  prerelease : option text
}.
End BranchConfig.

Module CommitTypeConfig.
Record t := {
  name : text;
  bump : text;
  aliases : list text
}.
End CommitTypeConfig.

(** The optional [validation] section of the configuration; a field that is
    [None] is a key that is absent from the dictionary. *)
Module ValidationConfig.
Record t := {
  allowed_scopes : option (list text);
  subject_min_length : option Z;
  subject_max_length : option Z;
  subject_lowercase : option bool;
  header_max_length : option Z;
  body_max_line_length : option Z
}.

Definition empty : t :=
  {| allowed_scopes := None; subject_min_length := None;
     subject_max_length := None; subject_lowercase := None;
     header_max_length := None; body_max_line_length := None |}.
End ValidationConfig.

(** [d.get(key, default)] *)
Definition get {A} (o : option A) (default : A) : A :=
  match o with Some a => a | None => default end.

Module Config.

Record t := {
  branches : list BranchConfig.t;
  commit_types : list (text * CommitTypeConfig.t);
  tag_format : text;
  validation : ValidationConfig.t
}.

Definition commit_type_entry (name bump : string) (aliases : list string)
  : text * CommitTypeConfig.t :=
  (txt name,
   {| CommitTypeConfig.name := txt name;
      CommitTypeConfig.bump := txt bump;
      CommitTypeConfig.aliases := map txt aliases |}).

(** [Config.DEFAULT_CONFIG], as [Config.__init__] structures it when no
    file and no environment variable overrides it *)
Definition DEFAULT_CONFIG : t :=
  {| branches :=
       [ {| BranchConfig.name := txt "main"; BranchConfig.type := txt "release";
            BranchConfig.prerelease := None |};
         {| BranchConfig.name := txt "master"; BranchConfig.type := txt "release";
            BranchConfig.prerelease := None |};
         {| BranchConfig.name := txt "dev"; BranchConfig.type := txt "prerelease";
            BranchConfig.prerelease := Some (txt "dev") |};
         {| BranchConfig.name := txt "develop"; BranchConfig.type := txt "prerelease";
            BranchConfig.prerelease := Some (txt "dev") |} ];
     commit_types :=
       [ commit_type_entry "breaking" "major" [];
         commit_type_entry "feat" "minor" ["feature"%string];
         commit_type_entry "fix" "patch" ["bugfix"%string; "hotfix"%string];
         commit_type_entry "perf" "patch" [];
         commit_type_entry "revert" "patch" [] ];
     tag_format := txt "${version}";
     validation := ValidationConfig.empty |}.

Section Lookup.

(** [fnmatch.fnmatch name pattern] of the Python library *)
Variable fnmatch : text -> text -> bool.

(** [Config.get_branch_config] *)
Definition get_branch_config (cfg : t) (branch_name : text) : option BranchConfig.t :=
  find (fun branch_cfg => fnmatch branch_name (BranchConfig.name branch_cfg))
       (branches cfg).

End Lookup.

Fixpoint lookup {A} (key : text) (d : list (text * A)) : option A :=
  match d with
  | [] => None
  | (k, v) :: d' => if text_eqb k key then Some v else lookup key d'
  end.

(** [Config.get_commit_type] *)
Definition get_commit_type (cfg : t) (commit_type : text) : option CommitTypeConfig.t :=
  match lookup commit_type (commit_types cfg) with
  | Some c => Some c
  | None =>
      option_map snd
        (find (fun entry => existsb (text_eqb commit_type)
                                    (CommitTypeConfig.aliases (snd entry)))
              (commit_types cfg))
  end.

(** *** The dictionaries behind the configuration

    [Config.DEFAULT_CONFIG] is one dictionary of the class; [__init__] starts
    every instance from [self.DEFAULT_CONFIG.copy()], a new dictionary whose
    values are the very objects of the class dictionary.  A value loaded from
    YAML, or written in the class dictionary: *)
#[warnings="-register-all"]
Inductive yaml :=
| YStr (s : text)
| YBool (b : bool)
| YNone
| YList (l : list yaml)
| YDict (d : list (text * yaml)).

(** What a key of [self.config] is bound to: the object that
    [DEFAULT_CONFIG] holds under the same key, or an object of its own *)
Inductive slot :=
| Shared
| Own (v : yaml).

(** [d[key] = v]: a key keeps its place, a new key goes to the end *)
Fixpoint set {A} (key : text) (v : A) (d : list (text * A)) : list (text * A) :=
  match d with
  | [] => [(key, v)]
  | (k, w) :: d' => if text_eqb k key then (k, v) :: d' else (k, w) :: set key v d'
  end.

(** [d.update(u)] *)
Definition update {A} (d u : list (text * A)) : list (text * A) :=
  fold_left (fun d kv => set (fst kv) (snd kv) d) u d.

(** [self.DEFAULT_CONFIG.copy()] *)
Definition copy (defaults : list (text * yaml)) : list (text * slot) :=
  map (fun kv => (fst kv, Shared)) defaults.

(** [self.config[key]], read through the sharing *)
Definition read (defaults : list (text * yaml)) (config : list (text * slot))
    (key : text) : option yaml :=
  match lookup key config with
  | Some Shared => lookup key defaults
  | Some (Own v) => Some v
  | None => None
  end.

(** One turn of the loop of [_merge_config], on the class dictionary and
    the dictionary of the instance: [update] changes the object in place,
    the assignment rebinds the key of the instance *)
Definition merge_item (state : list (text * yaml) * list (text * slot))
    (item : text * yaml) : list (text * yaml) * list (text * slot) :=
  let (defaults, config) := state in
  let (key, value) := item in
  match lookup key config, read defaults config key, value with
  | Some Shared, Some (YDict d), YDict u =>
      (set key (YDict (update d u)) defaults, config)
  | Some (Own _), Some (YDict d), YDict u =>
      (defaults, set key (Own (YDict (update d u))) config)
  | _, _, _ => (defaults, set key (Own value) config)
  end.

(** [Config._merge_config] *)
Definition _merge_config (state : list (text * yaml) * list (text * slot))
    (user_config : list (text * yaml)) : list (text * yaml) * list (text * slot) :=
  fold_left merge_item user_config state.

End Config.

(** ** commit_parser.py *)

Module ParsedCommit.
Record t := {
  sha : text;
  type : text;
  scope : option text;
  subject : text;
  body : text;
  breaking : bool;
  bump : BumpType
}.

Definition formatted_type (c : t) : text :=
  if breaking c then txt "BREAKING CHANGE" else type c.
End ParsedCommit.

Module ConventionalCommitParser.

(** [^(?P<type>\w+)(?:\((?P<scope>[^)]+)\))?\s*:\s*(?P<subject>.+)$],
    compiled with [re.MULTILINE] *)
Definition COMMIT_PATTERN : regex :=
  Bol >> Group "type" (Rep 1 w_)
      >> Opt (Str (txt "(") >> Group "scope" (Rep 1 not_rparen) >> Str (txt ")"))
      >> Rep 0 s_ >> Str (txt ":") >> Rep 0 s_
      >> Group "subject" (Rep 1 dot_) >> Eol.

(** [BREAKING[- ]CHANGE:\s*(.+)] with [re.MULTILINE | re.IGNORECASE], and
    [^(\w+)(?:\([^)]+\))?!:\s*(.+)$] with [re.MULTILINE] *)
Definition BREAKING_FOOTER : regex :=
  Str (txt "BREAKING") >> One (CSet false [ILit "-"; ILit " "])
      >> Str (txt "CHANGE:") >> Rep 0 s_ >> Group "1" (Rep 1 dot_).

Definition BREAKING_HEADER : regex :=
  Bol >> Group "1" (Rep 1 w_)
      >> Opt (Str (txt "(") >> Rep 1 not_rparen >> Str (txt ")"))
      >> Str (txt "!:") >> Rep 0 s_ >> Group "2" (Rep 1 dot_) >> Eol.

Definition BREAKING_PATTERNS : list (flags * regex) :=
  [ (MULTILINE_IGNORECASE, BREAKING_FOOTER); (MULTILINE, BREAKING_HEADER) ].

(** [ConventionalCommitParser._is_breaking] *)
Definition _is_breaking (header body : text) : bool :=
  if has_char "!" (hd [] (split_on ":" header)) then true
  else existsb (fun p => is_some (re_search (fst p) (snd p) body)) BREAKING_PATTERNS.

Definition bump_map (b : text) : BumpType :=
  if text_eqb b (txt "major") then MAJOR
  else if text_eqb b (txt "minor") then MINOR
  else if text_eqb b (txt "patch") then PATCH
  else NONE.

(** [ConventionalCommitParser._determine_bump] *)
Definition _determine_bump (cfg : Config.t) (commit_type : text) (breaking : bool)
  : BumpType :=
  if breaking then MAJOR
  else match Config.get_commit_type cfg commit_type with
       | None => NONE
       | Some type_config => bump_map (CommitTypeConfig.bump type_config)
       end.

(** [ConventionalCommitParser.parse] *)
Definition parse (cfg : Config.t) (commit_message commit_sha : text)
  : option ParsedCommit.t :=
  match split_on LF (strip commit_message) with
  | [] => None
  | line0 :: lines1 =>
      let header := strip line0 in
      match re_match MULTILINE COMMIT_PATTERN header with
      | None => None
      | Some m =>
          let commit_type := lower (get (group "type" (groups m)) []) in
          let scope := group "scope" (groups m) in
          let subject := strip (get (group "subject" (groups m)) []) in
          let body := strip (join [LF] lines1) in
          let breaking := _is_breaking header body in
          let bump := _determine_bump cfg commit_type breaking in
          Some {| ParsedCommit.sha := commit_sha;
                  ParsedCommit.type := commit_type;
                  ParsedCommit.scope := scope;
                  ParsedCommit.subject := subject;
                  ParsedCommit.body := body;
                  ParsedCommit.breaking := breaking;
                  ParsedCommit.bump := bump |}
      end
  end.

(** [ConventionalCommitParser.parse_commits] *)
Fixpoint parse_commits (cfg : Config.t) (commits : list (text * text))
  : list ParsedCommit.t :=
  match commits with
  | [] => []
  | (sha, message) :: commits' =>
      match parse cfg message sha with
      | Some commit => commit :: parse_commits cfg commits'
      | None => parse_commits cfg commits'
      end
  end.

Definition bump_priority (b : BumpType) : Z :=
  match b with MAJOR => 3 | MINOR => 2 | PATCH => 1 | NONE => 0 end.

(** [ConventionalCommitParser.get_max_bump] *)
Definition get_max_bump (commits : list ParsedCommit.t) : BumpType :=
  fst (fold_left
         (fun acc commit =>
            let priority := bump_priority (ParsedCommit.bump commit) in
            if snd acc <? priority then (ParsedCommit.bump commit, priority) else acc)
         commits (NONE, 0)).

End ConventionalCommitParser.

(** ** commit_validator.py *)

Module ValidationLevel.
Inductive t := ERROR | WARNING | INFO.

Definition eqb (a b : t) : bool :=
  match a, b with
  | ERROR, ERROR | WARNING, WARNING | INFO, INFO => true
  | _, _ => false
  end.
End ValidationLevel.

Module ValidationResult.
Record t := {
  level : ValidationLevel.t;
  message : text;
  line : option Z
}.

Definition is_error (r : t) : bool := ValidationLevel.eqb (level r) ValidationLevel.ERROR.
Definition is_warning (r : t) : bool := ValidationLevel.eqb (level r) ValidationLevel.WARNING.
End ValidationResult.

Fixpoint text_compare (a b : text) : comparison :=
  match a, b with
  | [], [] => Eq
  | [], _ :: _ => Lt
  | _ :: _, [] => Gt
  | x :: a', y :: b' =>
      match N.compare (code x) (code y) with
      | Eq => text_compare a' b'
      | c => c
      end
  end.

Fixpoint insert_sorted (x : text) (l : list text) : list text :=
  match l with
  | [] => [x]
  | y :: l' =>
      match text_compare x y with
      | Lt => x :: l
      | Eq => l
      | Gt => y :: insert_sorted x l'
      end
  end.

(** [sorted(set(l))] *)
Definition sorted_set (l : list text) : list text := fold_right insert_sorted [] l.

Definition len (s : text) : Z := Z.of_nat (length s).

Module CommitMessageValidator.

Import ValidationLevel.

Definition finding (lv : ValidationLevel.t) (msg : text) (ln : option Z)
  : ValidationResult.t :=
  {| ValidationResult.level := lv; ValidationResult.message := msg;
     ValidationResult.line := ln |}.

(** [^(?P<type>\w+)(?:\((?P<scope>[^)]+)\))?(?P<breaking>!)?\s*:\s*(?P<subject>.+)$] *)
Definition COMMIT_PATTERN : regex :=
  Bol >> Group "type" (Rep 1 w_)
      >> Opt (Str (txt "(") >> Group "scope" (Rep 1 not_rparen) >> Str (txt ")"))
      >> Opt (Group "breaking" (Str (txt "!")))
      >> Rep 0 s_ >> Str (txt ":") >> Rep 0 s_
      >> Group "subject" (Rep 1 dot_) >> Eol.

(** [^[a-zA-Z0-9_-]+$] *)
Definition SCOPE_PATTERN : regex :=
  Bol >> Rep 1 (CSet false [IRange "a" "z"; IRange "A" "Z"; IRange "0" "9";
                            ILit "_"; ILit "-"])
      >> Eol.

Section Validator.

Variable config : Config.t.

Definition validation_config : ValidationConfig.t := Config.validation config.

(** [CommitMessageValidator._validate_type] *)
Definition _validate_type (commit_type : text) : list ValidationResult.t :=
  let allowed_types :=
    map fst (Config.commit_types config)
    ++ flat_map (fun e => CommitTypeConfig.aliases (snd e)) (Config.commit_types config) in
  if negb (existsb (text_eqb commit_type) allowed_types) then
    [ finding ERROR
        (txt "Invalid commit type '" ++ commit_type ++ txt "'. Allowed types: "
         ++ join (txt ", ") (sorted_set allowed_types))
        (Some 1) ]
  else [].

(** [CommitMessageValidator._validate_scope] *)
Definition _validate_scope (scope : text) : list ValidationResult.t :=
  (if negb (is_some (re_match no_flags SCOPE_PATTERN scope)) then
     [ finding ERROR
         (txt "Invalid scope format '" ++ scope
          ++ txt "'. Use only alphanumeric, dash, or underscore")
         (Some 1) ]
   else [])
  ++
  let allowed_scopes := get (ValidationConfig.allowed_scopes validation_config) [] in
  match allowed_scopes with
  | _ :: _ =>
      if negb (existsb (text_eqb scope) allowed_scopes) then
        [ finding WARNING
            (txt "Scope '" ++ scope ++ txt "' is not in allowed list: "
             ++ join (txt ", ") allowed_scopes)
            (Some 1) ]
      else []
  | [] => []
  end.

(** [CommitMessageValidator._validate_subject] *)
Definition _validate_subject (subject : text) : list ValidationResult.t :=
  let min_length := get (ValidationConfig.subject_min_length validation_config) 3 in
  let max_length := get (ValidationConfig.subject_max_length validation_config) 100 in
  (if len subject <? min_length then
     [ finding ERROR
         (txt "Subject too short (" ++ str_int (len subject) ++ txt " chars). Minimum: "
          ++ str_int min_length ++ txt " chars")
         (Some 1) ]
   else [])
  ++
  (if max_length <? len subject then
     [ finding ERROR
         (txt "Subject too long (" ++ str_int (len subject) ++ txt " chars). Maximum: "
          ++ str_int max_length ++ txt " chars")
         (Some 1) ]
   else [])
  ++
  (if get (ValidationConfig.subject_lowercase validation_config) true then
     match subject with
     | c :: _ =>
         if is_upper c then
           [ finding WARNING (txt "Subject should start with lowercase letter") (Some 1) ]
         else []
     | [] => []
     end
   else [])
  ++
  (if ends_with_char "." subject then
     [ finding WARNING (txt "Subject should not end with a period") (Some 1) ]
   else []).

(** [CommitMessageValidator._validate_breaking_indicator] *)
Definition _validate_breaking_indicator : list ValidationResult.t :=
  [ finding INFO
      (txt "Breaking change indicator (!) detected. Ensure BREAKING CHANGE in body or footer")
      (Some 1) ].

(** [CommitMessageValidator._validate_header_length] *)
Definition _validate_header_length (header : text) : list ValidationResult.t :=
  let max_header_length := get (ValidationConfig.header_max_length validation_config) 100 in
  if max_header_length <? len header then
    [ finding ERROR
        (txt "Header too long (" ++ str_int (len header) ++ txt " chars). Maximum: "
         ++ str_int max_header_length ++ txt " chars")
        (Some 1) ]
  else [].

(** [CommitMessageValidator._validate_header] *)
Definition _validate_header (header : text) : list ValidationResult.t :=
  match re_match no_flags COMMIT_PATTERN header with
  | None =>
      [ finding ERROR
          (txt "Header does not match conventional commit format: '" ++ header ++ txt "'")
          (Some 1);
        finding INFO
          (txt "Expected format: type(scope): subject or type: subject")
          (Some 1) ]
  | Some m =>
      let commit_type := lower (get (group "type" (groups m)) []) in
      let scope := group "scope" (groups m) in
      let subject := strip (get (group "subject" (groups m)) []) in
      let breaking := group "breaking" (groups m) in
      _validate_type commit_type
      ++ (if truthy scope then _validate_scope (get scope []) else [])
      ++ _validate_subject subject
      ++ (if truthy breaking then _validate_breaking_indicator else [])
      ++ _validate_header_length header
  end.

(** The loop over [enumerate(body.split('\n'), start=i)] *)
Fixpoint body_line_findings (max_line_length : Z) (i : Z) (lines : list text)
  : list ValidationResult.t :=
  match lines with
  | [] => []
  | line :: lines' =>
      (if max_line_length <? len line then
         [ finding WARNING
             (txt "Body line " ++ str_int (i - 2) ++ txt " too long ("
              ++ str_int (len line) ++ txt " chars). Maximum: "
              ++ str_int max_line_length ++ txt " chars")
             (Some i) ]
       else [])
      ++ body_line_findings max_line_length (i + 1) lines'
  end.

Definition body_breaking_info : ValidationResult.t :=
  finding INFO (txt "BREAKING CHANGE detected in body") None.

(** [CommitMessageValidator._validate_body] *)
Definition _validate_body (body : text) (total_lines : Z) : list ValidationResult.t :=
  let max_line_length := get (ValidationConfig.body_max_line_length validation_config) 100 in
  body_line_findings max_line_length 3 (split_on LF body)
  ++
  (if contains (txt "BREAKING CHANGE:") body || contains (txt "BREAKING-CHANGE:") body
   then [ body_breaking_info ]
   else []).

(** [CommitMessageValidator.validate] *)
Definition validate (commit_message : text) : list ValidationResult.t :=
  match split_on LF (strip commit_message) with
  | [] => [ finding ERROR (txt "Commit message is empty") None ]
  | line0 :: lines1 =>
      let header := strip line0 in
      _validate_header header
      ++
      match lines1 with
      | _ :: _ =>
          let body := strip (join [LF] lines1) in
          match body with
          | _ :: _ => _validate_body body (Z.of_nat (length (line0 :: lines1)))
          | [] => []
          end
      | [] => []
      end
  end.

(** [CommitMessageValidator.is_valid] *)
Definition is_valid (commit_message : text) : bool :=
  negb (existsb ValidationResult.is_error (validate commit_message)).

End Validator.

End CommitMessageValidator.

(** ** git_helper.py, as far as the version calculator reads it *)

Module GitHelper.

(** The tag names of the repository, in the order [git tag -l] prints them *)
Record t := { tags : list text }.

Section Tags.

(** The glob match of [git tag -l <pattern>]: [wildmatch pattern tag] *)
Variable wildmatch : text -> text -> bool.

(** [GitHelper.get_tags_matching]: the names printed by
    [git tag -l pattern], one per line, without the empty strings *)
Definition get_tags_matching (git : t) (pattern : text) : list text :=
  filter (fun tag => match tag with [] => false | _ => true end)
         (filter (wildmatch pattern) (tags git)).

End Tags.

(** [GitHelper.get_commits_since_tag], from what
    [git log <range> --format=%H|||%s%n%b---END--- --no-merges] prints;
    [None] stands for a failed command.  [_run_git] runs git with
    [text=True], so [result.stdout] is the printed text read with universal
    newlines *)
Definition get_commits_since_tag (log_output : option text) : list (text * text) :=
  match log_output with
  | None => []
  | Some printed =>
      let stdout := universal_newlines printed in
      flat_map
        (fun raw =>
           let raw := strip raw in
           match raw with
           | [] => []
           | _ :: _ =>
               match split1 (txt "|||") raw with
               | [part0; part1] => [ (strip part0, strip part1) ]
               | _ => []
               end
           end)
        (split_str (txt "---END---" ++ [LF]) stdout)
  end.

End GitHelper.

(** ** version_calc.VersionCalculator *)

Module VersionCalculator.

(** The sort key [(v.major, v.minor, v.patch)] and its order *)
Definition key (v : Version.t) : Z * Z * Z :=
  (Version.major v, Version.minor v, Version.patch v).

Definition key_ltb (a b : Z * Z * Z) : bool :=
  let '(a1, a2, a3) := a in
  let '(b1, b2, b3) := b in
  (a1 <? b1) || ((a1 =? b1) && ((a2 <? b2) || ((a2 =? b2) && (a3 <? b3)))).

(** [l.sort(key=..., reverse=True)]: descending and stable *)
Fixpoint insert_desc (v : Version.t) (l : list Version.t) : list Version.t :=
  match l with
  | [] => [v]
  | w :: l' => if key_ltb (key v) (key w) then w :: insert_desc v l' else v :: l
  end.

Definition sort_desc (l : list Version.t) : list Version.t :=
  fold_right insert_desc [] l.

(** [max(counters)] of a non-empty list *)
Definition list_max (x : Z) (l : list Z) : Z := fold_left Z.max l x.

Section Calculator.

Variable fnmatch : text -> text -> bool.
Variable wildmatch : text -> text -> bool.
Variable config : Config.t.
Variable git : GitHelper.t.

(** The stable versions collected by the loop of [_get_latest_stable_version] *)
Definition stable_versions_of (all_tags : list text) : list Version.t :=
  flat_map (fun tag =>
              match Version.parse tag with
              | Ok version =>
                  match Version.prerelease version with
                  | None => [version]
                  | Some _ => []
                  end
              | Raise _ => []
              end) all_tags.

(** [VersionCalculator._get_latest_stable_version] *)
Definition _get_latest_stable_version : option Version.t :=
  let all_tags := GitHelper.get_tags_matching wildmatch git (txt "*") in
  match sort_desc (stable_versions_of all_tags) with
  | [] => None
  | v :: _ => Some v
  end.

(** One turn of the loop of [_get_prerelease_counter]: the counter a tag
    contributes, if any *)
Definition counter_of_tag (prerelease_id tag : text) : list Z :=
  match Version.parse tag with
  | Ok version =>
      match Version.prerelease version with
      | Some (c :: p) =>
          match split_on "." (c :: p) with
          | part0 :: part1 :: _ =>
              if text_eqb part0 prerelease_id then
                match py_int part1 with
                | Some n => [n]
                | None => []
                end
              else []
          | _ => []
          end
      | _ => []
      end
  | Raise _ => []
  end.

(** [VersionCalculator._get_prerelease_counter] *)
Definition _get_prerelease_counter (base_version : Version.t)
    (prerelease_id branch_name : text) : Z :=
  let pattern := Version.str base_version ++ txt "-" ++ prerelease_id ++ txt ".*" in
  let matching_tags := GitHelper.get_tags_matching wildmatch git pattern in
  match matching_tags with
  | [] => 1
  | _ :: _ =>
      match flat_map (counter_of_tag prerelease_id) matching_tags with
      | c :: counters => list_max c counters + 1
      | [] => 1
      end
  end.

(** [VersionCalculator._calculate_prerelease_version] *)
Definition _calculate_prerelease_version (commits : list ParsedCommit.t)
    (max_bump : BumpType) (prerelease_id : text) : Version.t :=
  let stable_version := get _get_latest_stable_version (Version.make 0 0 0) in
  let next_base_version := Version.bump stable_version max_bump in
  let counter := _get_prerelease_counter next_base_version prerelease_id [] in
  Version.with_prerelease next_base_version prerelease_id counter.

(** [VersionCalculator.calculate_next_version]: the returned value and
    what it writes to the log *)
Definition calculate_next_version (commits : list ParsedCommit.t)
    (current_version : option Version.t) (branch_name : text) (max_bump : BumpType)
  : option Version.t * list LogRecord :=
  match Config.get_branch_config fnmatch config branch_name with
  | None =>
      (None, [ LogWarning (txt "No configuration for branch '" ++ branch_name ++ txt "'") ])
  | Some branch_config =>
      if BumpType_eqb max_bump NONE then
        (None, [ LogInfo (txt "No version bump needed (no relevant commits)") ])
      else if truthy (BranchConfig.prerelease branch_config) then
        (Some (_calculate_prerelease_version commits max_bump
                 (get (BranchConfig.prerelease branch_config) [])), [])
      else
        let base_version :=
          match current_version with
          | None => Version.make 0 0 0
          | Some cv => Version.make (Version.major cv) (Version.minor cv) (Version.patch cv)
          end in
        (Some (Version.bump base_version max_bump), [])
  end.

End Calculator.

(** [VersionCalculator.format_tag] *)
Definition format_tag (config : Config.t) (version : Version.t) : text :=
  replace (txt "${version}") (Version.str version) (Config.tag_format config).

End VersionCalculator.

(** ** platform.py *)

Module Platform.

Inductive t := GITLAB | GITHUB.

(** [_parse_github_url] *)
Definition _parse_github_url (remote_url : text) : option text :=
  if starts_with (txt "git@github.com:") remote_url then
    let path := rstrip_chars (txt ".git") (replace (txt "git@github.com:") [] remote_url) in
    Some (txt "https://github.com/" ++ path)
  else if contains (txt "github.com") remote_url then
    let url := rstrip_chars (txt ".git") remote_url in
    let url := if negb (starts_with (txt "https://") url)
               then txt "https://" ++ last (split1 (txt "://") url) []
               else url in
    Some url
  else None.

(** [_parse_gitlab_url] *)
Definition _parse_gitlab_url (remote_url : text) : option text :=
  let ssh :=
    if starts_with (txt "git@") remote_url then
      match split1 (txt ":") (replace (txt "git@") [] remote_url) with
      | [host; path] =>
          let path := rstrip_chars (txt ".git") path in
          Some (txt "https://" ++ host ++ txt "/" ++ path)
      | _ => None
      end
    else None in
  match ssh with
  | Some url => Some url
  | None =>
      if contains (txt "gitlab") (lower remote_url) then
        let url := rstrip_chars (txt ".git") remote_url in
        let url := if negb (starts_with (txt "https://") url)
                   then txt "https://" ++ last (split1 (txt "://") url) []
                   else url in
        Some url
      else None
  end.

(** [get_compare_url] *)
Definition get_compare_url (platform : t) (project_url from_tag to_tag : text) : text :=
  match platform with
  | GITHUB => project_url ++ txt "/compare/" ++ from_tag ++ txt "..." ++ to_tag
  | GITLAB => project_url ++ txt "/-/compare/" ++ from_tag ++ txt "..." ++ to_tag
  end.

(** [get_commit_url] *)
Definition get_commit_url (platform : t) (project_url sha : text) : text :=
  match platform with
  | GITHUB => project_url ++ txt "/commit/" ++ sha
  | GITLAB => project_url ++ txt "/-/commit/" ++ sha
  end.

End Platform.

(** ** changelog.py *)

Module ChangelogGenerator.

Section Grouping.

Variable config : Config.t.

(** [config.changelog_types], the list under [changelog.include_types] *)
Variable changelog_types : list text.

(** The key under which the loop of [_group_commits] files a commit *)
Definition commit_bucket (commit : ParsedCommit.t) : text :=
  if ParsedCommit.breaking commit then txt "breaking"
  else
    let commit_type := ParsedCommit.type commit in
    match Config.get_commit_type config commit_type with
    | Some type_config =>
        if negb (text_eqb (CommitTypeConfig.name type_config) commit_type)
        then CommitTypeConfig.name type_config
        else commit_type
    | None => commit_type
    end.

(** [grouped[key].append(commit)], after [grouped[key] = []] for a new key:
    a new key goes to the end of the dictionary *)
Fixpoint append_to (key : text) (commit : ParsedCommit.t)
    (grouped : list (text * list ParsedCommit.t)) : list (text * list ParsedCommit.t) :=
  match grouped with
  | [] => [(key, [commit])]
  | (k, l) :: grouped' =>
      if text_eqb k key then (k, l ++ [commit]) :: grouped'
      else (k, l) :: append_to key commit grouped'
  end.

(** [ChangelogGenerator._group_commits] *)
Definition _group_commits (commits : list ParsedCommit.t)
  : list (text * list ParsedCommit.t) :=
  fold_left
    (fun grouped commit =>
       let commit_type := commit_bucket commit in
       if negb (existsb (text_eqb commit_type) changelog_types) then grouped
       else append_to commit_type commit grouped)
    commits [].

End Grouping.

(** [^#+ \[([^\]]+)\]], used with [re.MULTILINE] *)
Definition VERSION_HEADER : regex :=
  Bol >> Rep 1 (CItem (ILit "#")) >> Str (txt " [")
      >> Group "1" (Rep 1 (CSet true [ILit "]"])) >> Str (txt "]").

(** [ChangelogGenerator._get_previous_version]; [content] is the text of
    the changelog file, [None] when the file does not exist *)
Definition _get_previous_version (content : option text) : option text :=
  match content with
  | None => None
  | Some content =>
      match re_search MULTILINE VERSION_HEADER content with
      | Some m => group "1" (groups m)
      | None => None
      end
  end.

Definition type_order : list text :=
  [ txt "breaking"; txt "feat"; txt "fix"; txt "perf"; txt "revert" ].

Definition type_labels : list (text * text) :=
  [ (txt "breaking", txt "BREAKING CHANGES");
    (txt "feat", txt "Features");
    (txt "fix", txt "Bug Fixes");
    (txt "perf", txt "Performance Improvements");
    (txt "revert", txt "Reverts") ].

(** [s.capitalize()], as it is on ASCII text; the keys of [type_order] all
    have a label, so this default is never the label *)
Definition capitalize (s : text) : text :=
  match s with
  | [] => []
  | c :: s' => upper_char c :: lower s'
  end.

Section Entry.

Variable platform : Platform.t.

(** [get_project_url(self.platform)], read from the environment *)
Variable project_url : option text.

(** One line of the list of commits in [_generate_entry] *)
Definition commit_line (commit : ParsedCommit.t) : text :=
  let sha := ParsedCommit.sha commit in
  let short_sha := if 7 <=? len sha then firstn 7 sha else sha in
  let sha_link :=
    if truthy project_url
    then txt "([" ++ short_sha ++ txt "]("
         ++ Platform.get_commit_url platform (get project_url []) sha ++ txt "))"
    else txt "(" ++ short_sha ++ txt ")" in
  let message :=
    if truthy (ParsedCommit.scope commit)
    then txt "**" ++ get (ParsedCommit.scope commit) [] ++ txt ":** "
         ++ ParsedCommit.subject commit
    else ParsedCommit.subject commit in
  txt "* " ++ message ++ txt " " ++ sha_link.

(** The lines that [_generate_entry] writes for one type of [type_order] *)
Definition type_section (grouped_commits : list (text * list ParsedCommit.t))
    (commit_type : text) : list text :=
  match Config.lookup commit_type grouped_commits with
  | None => []
  | Some commits =>
      let label := get (Config.lookup commit_type type_labels) (capitalize commit_type) in
      [ txt "### " ++ label; [] ] ++ map commit_line commits ++ [ [] ]
  end.

(** [ChangelogGenerator._generate_entry]; [date_str] is
    [date.strftime("%Y-%m-%d")] and [content] the text of the changelog file *)
Definition _generate_entry (version : Version.t)
    (grouped_commits : list (text * list ParsedCommit.t)) (date_str : text)
    (content : option text) : text :=
  let plain := txt "# [" ++ Version.str version ++ txt "] (" ++ date_str ++ txt ")" in
  let header :=
    if truthy project_url then
      let prev_version := _get_previous_version content in
      if truthy prev_version then
        let compare_link :=
          Platform.get_compare_url platform (get project_url []) (get prev_version [])
            (Version.str version) in
        txt "# [" ++ Version.str version ++ txt "](" ++ compare_link ++ txt ") ("
        ++ date_str ++ txt ")"
      else plain
    else plain in
  join [LF] ([ header; [] ] ++ flat_map (type_section grouped_commits) type_order).

End Entry.

(** [line.startswith("# [") or line.startswith("## [")] *)
Definition is_version_line (line : text) : bool :=
  starts_with (txt "# [") line || starts_with (txt "## [") line.

(** The position found by the loop of [_insert_entry]: the index of the
    first version header, or the number of lines *)
Fixpoint insert_pos (lines : list text) : nat :=
  match lines with
  | [] => O
  | line :: lines' => if is_version_line line then O else S (insert_pos lines')
  end.

(** [ChangelogGenerator._insert_entry]: the new text of the file *)
Definition _insert_entry (content new_entry : text) : text :=
  let lines := split_on LF content in
  let pos := insert_pos lines in
  join [LF] (firstn pos lines ++ [new_entry] ++ skipn pos lines).

(** [ChangelogGenerator._create_changelog]: the text of the new file *)
Definition _create_changelog (first_entry : text) : text :=
  join [LF]
    [ txt "# Changelog";
      [];
      txt "All notable changes to this project will be documented in this file.";
      [];
      txt "The format is based on [Keep a Changelog](https://keepachangelog.com/en/1.0.0/),";
      txt "and this project adheres to [Semantic Versioning](https://semver.org/spec/v2.0.0.html).";
      [];
      first_entry ].

(** [ChangelogGenerator.update]: the text of the file afterwards *)
Definition update (config : Config.t) (changelog_types : list text)
    (platform : Platform.t) (project_url : option text)
    (version : Version.t) (commits : list ParsedCommit.t) (date_str : text)
    (content : option text) : text :=
  let grouped := _group_commits config changelog_types commits in
  let new_entry := _generate_entry platform project_url version grouped date_str content in
  match content with
  | Some old => _insert_entry old new_entry
  | None => _create_changelog new_entry
  end.



End ChangelogGenerator.

(** ** A glob matcher for the examples

    [fnmatch.fnmatch] and the matcher of [git tag -l] are not code of the
    repository; the calculator above takes them as parameters.  On patterns
    made of literal characters, [*] and [?] both agree with [glob]. *)
Fixpoint glob (pattern name : text) : bool :=
  match pattern with
  | [] => match name with [] => true | _ => false end
  | p :: pattern' =>
      if Ascii.eqb p "*" then
        (fix star (name : text) : bool :=
           glob pattern' name ||
           match name with
           | [] => false
           | _ :: name' => star name'
           end) name
      else
        match name with
        | [] => false
        | c :: name' => (Ascii.eqb p "?" || Ascii.eqb p c) && glob pattern' name'
        end
  end.

Definition fnmatch_glob (name pattern : text) : bool := glob pattern name.

(** ** The specification's wording, for comparison *)

(** [normalize]: strip a single leading [v] *)
Definition normalize (s : text) : text :=
  match s with
  | "v"%char :: s' => s'
  | _ => s
  end.

(** The counter as the specification words it: one plus the greatest [n]
    among the tags [{next_base}-{id}.{n}], or 1 when there is none *)
Definition spec_counter (tags : list text) (next_base : Version.t) (id : text) : Z :=
  let prefix := Version.str next_base ++ txt "-" ++ id ++ txt "." in
  let counters :=
    flat_map (fun tag =>
                if starts_with prefix tag then
                  let n := skipn (length prefix) tag in
                  if forallb is_digit n then
                    match nat_literal n with Some k => [k] | None => [] end
                  else []
                else []) tags in
  match counters with
  | [] => 1
  | c :: cs => VersionCalculator.list_max c cs + 1
  end.

(** Breaking as the specification words it: an exclamation mark before the
    first colon of the header, or a body line that starts, in any case, with
    [BREAKING CHANGE:] or [BREAKING-CHANGE:] *)
Definition spec_breaking (header body : text) : bool :=
  has_char "!" (hd [] (split_on ":" header))
  || existsb (fun l => starts_with (txt "breaking change:") (lower l)
                       || starts_with (txt "breaking-change:") (lower l))
             (split_on LF body).

(** The lines of a message, numbered from 1 *)
Definition numbered (lines : list text) : list (Z * text) :=
  combine (map Z.of_nat (seq 1 (length lines))) lines.

(** ** Vocabulary of the properties *)

(** *** Versions and the tag ledger *)

Definition key_lt (a b : Z * Z * Z) : Prop :=
  let '(a1, a2, a3) := a in
  let '(b1, b2, b3) := b in
  a1 < b1 \/ (a1 = b1 /\ (a2 < b2 \/ (a2 = b2 /\ a3 < b3))).

Definition no_git : GitHelper.t := {| GitHelper.tags := [] |}.

Definition lowercase_marker_message : text :=
  txt "feat: add api" ++ [LF; LF] ++ txt "breaking change: removed old endpoint".

Section TagLedger.

Variable wildmatch : text -> text -> bool.
Variable git : GitHelper.t.

(** [v] is a stable version of the ledger: the parse of a tag that
    [git tag -l '*'] lists and that has no prerelease part *)
Definition stable_tag (v : Version.t) : Prop :=
  exists tag, In tag (GitHelper.get_tags_matching wildmatch git (txt "*"))
              /\ Version.parse tag = Ok v
              /\ Version.prerelease v = None.

(** [v] is the base of the prerelease path: a stable version of the ledger
    that none exceeds in (major, minor, patch), or 0.0.0 when the ledger has
    no stable version *)
Definition latest_stable (v : Version.t) : Prop :=
  (stable_tag v
   /\ forall w, stable_tag w ->
                ~ key_lt (VersionCalculator.key v) (VersionCalculator.key w))
  \/ ((forall w, ~ stable_tag w) /\ v = Version.make 0 0 0).

(** The tag [tag] carries the counter [n] for the identifier [id] under
    the base version [base]: [git tag -l '{base}-{id}.*'] lists it, it parses
    as a version, and the prerelease part, cut at its dots, starts with [id]
    followed by the integer [n] *)
Definition carries_counter (base : Version.t) (id tag : text) (n : Z) : Prop :=
  In tag (GitHelper.get_tags_matching wildmatch git
            (Version.str base ++ txt "-" ++ id ++ txt ".*"))
  /\ exists v pre part1 parts,
       Version.parse tag = Ok v
       /\ Version.prerelease v = Some pre
       /\ split_on "." pre = id :: part1 :: parts
       /\ py_int part1 = Some n.

(** [c] is one plus the greatest counter carried by a tag, or 1 when no tag
    carries one *)
Definition next_counter (base : Version.t) (id : text) (c : Z) : Prop :=
  ((exists tag, carries_counter base id tag (c - 1))
   /\ forall tag n, carries_counter base id tag n -> n <= c - 1)
  \/ ((forall tag n, ~ carries_counter base id tag n) /\ c = 1).

End TagLedger.

(** An identifier that is one dot-free segment over [[0-9A-Za-z-]] *)
Definition simple_id (id : text) : Prop :=
  id <> [] /\ forallb (cmem no_flags Version.ident_chars) id = true
  /\ ~ In "."%char id.

(** The ledgers and the configuration of the scenarios *)
Definition dev_git : GitHelper.t :=
  {| GitHelper.tags := [ txt "1.2.0"; txt "1.2.1-dev.1"; txt "1.2.1-dev.2" ] |}.

Definition dotted_config : Config.t :=
  {| Config.branches :=
       [ {| BranchConfig.name := txt "next"; BranchConfig.type := txt "prerelease";
            BranchConfig.prerelease := Some (txt "pre.rel") |} ];
     Config.commit_types := Config.commit_types Config.DEFAULT_CONFIG;
     Config.tag_format := txt "${version}";
     Config.validation := ValidationConfig.empty |}.

Definition dotted_git : GitHelper.t :=
  {| GitHelper.tags := [ txt "1.2.0"; txt "1.2.1-pre.rel.1" ] |}.

Definition build_git : GitHelper.t :=
  {| GitHelper.tags := [ txt "1.2.0"; txt "1.2.1-dev.7+build5" ] |}.

(** *** Findings of the validator *)

(** The WARNING of a body line that is too long, for the line numbered [k] *)
Definition line_warning (max_line_length : Z) (entry : Z * text)
  : list ValidationResult.t :=
  let '(k, l) := entry in
  if max_line_length <? len l then
    [ CommitMessageValidator.finding ValidationLevel.WARNING
        (txt "Body line " ++ str_int (k - 2) ++ txt " too long ("
         ++ str_int (len l) ++ txt " chars). Maximum: "
         ++ str_int max_line_length ++ txt " chars")
        (Some k) ]
  else [].

(** The INFO of [_validate_body] for a marker in the body *)
Definition marker_info (body : text) : list ValidationResult.t :=
  if contains (txt "BREAKING CHANGE:") body || contains (txt "BREAKING-CHANGE:") body
  then [ CommitMessageValidator.body_breaking_info ]
  else [].

Definition body_max (cfg : Config.t) : Z :=
  get (ValidationConfig.body_max_line_length (Config.validation cfg)) 100.

(** A message whose body follows the header without a blank line *)
Definition no_blank_line_message : text :=
  txt "fix: abc" ++ [LF] ++ repeat "a"%char 101.

(** *** What it means for a pattern to match

    [matches fl r sn rs sn' rs']: read from the position with [sn] behind and
    [rs] ahead, the pattern [r] can stop at the position with [sn'] behind
    and [rs'] ahead. *)

Definition lit_eq (fl : flags) (s m : text) : Prop :=
  if ignorecase fl then lower m = lower s else m = s.

Definition pos (sn rs : text) : mstate := {| seen := sn; rest := rs; groups := [] |}.

Fixpoint matches (fl : flags) (r : regex) (sn rs sn' rs' : text) : Prop :=
  match r with
  | Bol => at_bol fl (pos sn rs) = true /\ sn' = sn /\ rs' = rs
  | Eol => at_eol fl (pos sn rs) = true /\ sn' = sn /\ rs' = rs
  | Str s => exists m, rs = m ++ rs' /\ sn' = rev m ++ sn /\ lit_eq fl s m
  | One c => exists x, rs = x :: rs' /\ sn' = x :: sn /\ cmem fl c x = true
  | Rep min c =>
      exists m, rs = m ++ rs' /\ sn' = rev m ++ sn
                /\ forallb (cmem fl c) m = true /\ (min <= length m)%nat
  | Opt r => matches fl r sn rs sn' rs' \/ (sn' = sn /\ rs' = rs)
  | Group _ r => matches fl r sn rs sn' rs'
  | Seq r1 r2 =>
      exists sn1 rs1, matches fl r1 sn rs sn1 rs1 /\ matches fl r2 sn1 rs1 sn' rs'
  end.

(** *** Breaking markers *)

(** The body holds, anywhere, [BREAKING CHANGE:] or [BREAKING-CHANGE:] in
    any case, followed, after optional white space, by a character other
    than a newline *)
Definition has_footer_marker (body : text) : Prop :=
  exists pre kw ws c post,
    body = pre ++ kw ++ ws ++ c :: post
    /\ (lower kw = txt "breaking change:" \/ lower kw = txt "breaking-change:")
    /\ forallb is_space ws = true
    /\ c <> LF.

(** [sc] is empty or a parenthesised, non-empty scope without [)] *)
Definition scope_part (sc : text) : Prop :=
  sc = [] \/ exists inner, sc = "("%char :: inner ++ [")"%char]
                           /\ inner <> [] /\ ~ In ")"%char inner.

(** A line of the body starts with [type!:] or [type(scope)!:], followed,
    after optional white space, by a character other than a newline *)
Definition has_bang_line (body : text) : Prop :=
  exists pre ty sc ws c post,
    body = pre ++ ty ++ sc ++ txt "!:" ++ ws ++ c :: post
    /\ (pre = [] \/ exists pre', pre = pre' ++ [LF])
    /\ ty <> [] /\ forallb is_word ty = true
    /\ scope_part sc
    /\ forallb is_space ws = true
    /\ c <> LF.

(** The header that the parser and the validator read from a message *)
Definition header_of (msg : text) : text :=
  strip (hd [] (split_on LF (strip msg))).

(** Three messages with a conventional header *)
Definition midline_marker_message : text :=
  txt "fix: x" ++ [LF; LF] ++ txt "see BREAKING CHANGE: y".

Definition bang_in_body_message : text :=
  txt "fix: x" ++ [LF; LF] ++ txt "feat!: y".

Definition bare_marker_message : text :=
  txt "fix: x" ++ [LF; LF] ++ txt "BREAKING CHANGE:".

(** Two messages of type [breaking]: one with an exclamation mark at the end
    of its subject, one with the marker in the middle of a body line *)
Definition breaking_type_bang_message : text := txt "breaking: remove old api!".

Definition breaking_type_midline_message : text :=
  txt "breaking: x" ++ [LF; LF] ++ txt "see BREAKING CHANGE: y".

(** *** Version strings and first matches *)

(** A prerelease or build part as [Version.parse] can return it: absent, or
    a non-empty string over [[0-9A-Za-z.-]] *)
Definition wf_ident (o : option text) : Prop :=
  match o with
  | None => True
  | Some s => s <> [] /\ forallb (cmem no_flags Version.ident_chars) s = true
  end.

(** A version as [Version.parse] can return it *)
Definition canonical (v : Version.t) : Prop :=
  0 <= Version.major v /\ 0 <= Version.minor v /\ 0 <= Version.patch v
  /\ wf_ident (Version.prerelease v) /\ wf_ident (Version.build v).

(** [r] matches from [st], and the first match it finds is [st'] *)
Definition first_is (fl : flags) (r : regex) (st st' : mstate) : Prop :=
  exists others, run fl r st = st' :: others.

(** The character set [p] cannot go on at [rs] *)
Definition stops (p : ascii -> bool) (rs : text) : Prop :=
  match rs with
  | [] => True
  | y :: _ => p y = false
  end.

(** The optional parts of a version string *)
Definition tail_part (sep : ascii) (o : option text) : text :=
  match o with
  | Some (c :: s) => sep :: c :: s
  | _ => []
  end.

Definition opt_entry (name : string) (o : option text) : list (string * text) :=
  match o with
  | Some s => [(name, s)]
  | None => []
  end.

(** [p] holds of each of the 256 characters *)
Definition all_ascii (p : ascii -> bool) : bool :=
  forallb p (map ascii_of_nat (seq 0 256)).

(** *** Vocabulary of the further properties *)

(** The higher of two bumps in the priority order of [get_max_bump] *)
Definition higher (a b : BumpType) : BumpType :=
  if ConventionalCommitParser.bump_priority a <? ConventionalCommitParser.bump_priority b
  then b else a.

(** The finding of a header that does not match the validator's pattern *)
Definition format_error (header : text) : ValidationResult.t :=
  CommitMessageValidator.finding ValidationLevel.ERROR
    (txt "Header does not match conventional commit format: '" ++ header ++ txt "'")
    (Some 1).

(** The three numbers of a version are not negative *)
Definition nonneg (v : Version.t) : Prop :=
  0 <= Version.major v /\ 0 <= Version.minor v /\ 0 <= Version.patch v.

(** A configuration that writes its tags as [v${version}], and a ledger
    written with it *)
Definition v_config : Config.t :=
  {| Config.branches := Config.branches Config.DEFAULT_CONFIG;
     Config.commit_types := Config.commit_types Config.DEFAULT_CONFIG;
     Config.tag_format := txt "v${version}";
     Config.validation := ValidationConfig.empty |}.

Definition v_git : GitHelper.t :=
  {| GitHelper.tags := [ txt "v1.2.0"; txt "v1.2.1-dev.1" ] |}.

(** A ledger whose prerelease line is ahead of its stable line *)
Definition ahead_git : GitHelper.t :=
  {| GitHelper.tags := [ txt "1.2.0"; txt "2.0.0-dev.1" ] |}.



(** The commits of a list that [_group_commits] files under [key] *)
Definition filed_under (cfg : Config.t) (key : text) (commits : list ParsedCommit.t)
  : list ParsedCommit.t :=
  filter (fun c => text_eqb (ChangelogGenerator.commit_bucket cfg c) key) commits.

(** [config.changelog_types] of the default configuration *)
Definition default_changelog_types : list text :=
  [ txt "feat"; txt "fix"; txt "perf"; txt "revert"; txt "breaking" ].

(** The last character of [s] is one of [chars] *)
Definition ends_in (chars s : text) : bool :=
  match rev s with
  | x :: _ => has_char x chars
  | [] => false
  end.

(** What [git log --format=%H|||%s%n%b---END---] prints for commits given
    by their hash and their message, subject and body together *)
Definition log_entry (c : text * text) : text := fst c ++ txt "|||" ++ snd c.

Definition END_MARK : text := txt "---END---" ++ [LF].

Definition git_log_output (commits : list (text * text)) : text :=
  concat (map (fun c => log_entry c ++ END_MARK) commits).

(** A hash as git prints it: not empty, without white space or [|] *)
Definition plain_sha (h : text) : Prop :=
  h <> [] /\ forallb (fun c => negb (is_space c)) h = true /\ ~ In "|"%char h.

(** [s] holds no newline *)
Definition one_line (s : text) : Prop := ~ In LF s.

(** [line] starts like a version header: one or more [#], a space and [[] *)
Definition header_start (line : text) : bool :=
  match line with
  | "#"%char :: _ => starts_with (txt " [") (drop_while (Ascii.eqb "#") line)
  | _ => false
  end.


(** No line of the changelog before its first version line starts like a
    version header *)
Definition plain_preamble (content : text) : Prop :=
  let lines := split_on LF content in
  forall line, In line (firstn (ChangelogGenerator.insert_pos lines) lines) ->
               header_start line = false.



(** A commit and a changelog for the examples: the file that [update]
    creates for the version 1.2.0 *)
Definition sample_commit : ParsedCommit.t :=
  {| ParsedCommit.sha := txt "1a2b3c4d5e6f";
     ParsedCommit.type := txt "feat";
     ParsedCommit.scope := Some (txt "core");
     ParsedCommit.subject := txt "add the thing";
     ParsedCommit.body := [];
     ParsedCommit.breaking := false;
     ParsedCommit.bump := MINOR |}.

Definition sample_url : option text := Some (txt "https://github.com/acme/parser").

Definition sample_changelog : text :=
  ChangelogGenerator.update Config.DEFAULT_CONFIG default_changelog_types
    Platform.GITHUB sample_url (Version.make 1 2 0) [sample_commit] (txt "2024-04-01") None.

(** A position at the start of a line: nothing behind, or a newline *)
Definition line_start (sn : text) : Prop := sn = [] \/ exists t, sn = LF :: t.

(** The bump of a commit under the default configuration, by its type *)
Definition default_bump (breaking : bool) (commit_type : text) : BumpType :=
  let one_of := existsb (text_eqb commit_type) in
  if breaking then MAJOR
  else if one_of [txt "breaking"] then MAJOR
  else if one_of [txt "feat"; txt "feature"] then MINOR
  else if one_of [txt "fix"; txt "bugfix"; txt "hotfix"; txt "perf"; txt "revert"] then PATCH
  else NONE.

(** The dictionary [Config.DEFAULT_CONFIG] as the class defines it *)
Definition branch_dict (name type : string) (prerelease : Config.yaml) : Config.yaml :=
  Config.YDict [ (txt "name", Config.YStr (txt name));
                 (txt "type", Config.YStr (txt type));
                 (txt "prerelease", prerelease) ].

Definition default_dictionary : list (text * Config.yaml) :=
  [ (txt "platform", Config.YStr (txt "auto"));
    (txt "branches",
     Config.YList
       [ branch_dict "main" "release" Config.YNone;
         branch_dict "master" "release" Config.YNone;
         branch_dict "dev" "prerelease" (Config.YStr (txt "dev"));
         branch_dict "develop" "prerelease" (Config.YStr (txt "dev")) ]);
    (txt "commit_types",
     Config.YDict
       [ (txt "breaking",
          Config.YDict
            [ (txt "bump", Config.YStr (txt "major"));
              (txt "keywords",
               Config.YList [ Config.YStr (txt "BREAKING CHANGE");
                              Config.YStr (txt "BREAKING-CHANGE") ]) ]);
         (txt "feat",
          Config.YDict [ (txt "bump", Config.YStr (txt "minor"));
                         (txt "aliases", Config.YList [ Config.YStr (txt "feature") ]) ]);
         (txt "fix",
          Config.YDict [ (txt "bump", Config.YStr (txt "patch"));
                         (txt "aliases", Config.YList [ Config.YStr (txt "bugfix");
                                                        Config.YStr (txt "hotfix") ]) ]);
         (txt "perf",
          Config.YDict [ (txt "bump", Config.YStr (txt "patch"));
                         (txt "aliases", Config.YList []) ]);
         (txt "revert",
          Config.YDict [ (txt "bump", Config.YStr (txt "patch"));
                         (txt "aliases", Config.YList []) ]) ]);
    (txt "tag_format", Config.YStr (txt "${version}"));
    (txt "changelog",
     Config.YDict
       [ (txt "file", Config.YStr (txt "CHANGELOG.md"));
         (txt "include_types",
          Config.YList [ Config.YStr (txt "feat"); Config.YStr (txt "fix");
                         Config.YStr (txt "perf"); Config.YStr (txt "revert");
                         Config.YStr (txt "breaking") ]) ]);
    (txt "slack",
     Config.YDict
       [ (txt "enabled", Config.YBool false);
         (txt "token", Config.YNone);
         (txt "channel", Config.YNone);
         (txt "notify_success", Config.YBool true);
         (txt "notify_failure", Config.YBool true) ]) ].

(** A user configuration that makes [feat] a patch and sets the tag format *)
Definition sample_user_config : list (text * Config.yaml) :=
  [ (txt "tag_format", Config.YStr (txt "v${version}"));
    (txt "commit_types",
     Config.YDict
       [ (txt "feat", Config.YDict [ (txt "bump", Config.YStr (txt "patch")) ]) ]) ].

(** The configuration with its branches replaced *)
Definition with_branches (cfg : Config.t) (branches : list BranchConfig.t) : Config.t :=
  {| Config.branches := branches;
     Config.commit_types := Config.commit_types cfg;
     Config.tag_format := Config.tag_format cfg;
     Config.validation := Config.validation cfg |}.

(** The conditions under which the validator finds no error in a header *)
Definition header_ok (cfg : Config.t) (header : text) : bool :=
  match re_match no_flags CommitMessageValidator.COMMIT_PATTERN header with
  | None => false
  | Some m =>
      let commit_type := lower (get (group "type" (groups m)) []) in
      let scope := group "scope" (groups m) in
      let subject := strip (get (group "subject" (groups m)) []) in
      let limits := Config.validation cfg in
      is_some (Config.get_commit_type cfg commit_type)
      && (if truthy scope
          then is_some (re_match no_flags CommitMessageValidator.SCOPE_PATTERN (get scope []))
          else true)
      && (get (ValidationConfig.subject_min_length limits) 3 <=? len subject)
      && (len subject <=? get (ValidationConfig.subject_max_length limits) 100)
      && (len header <=? get (ValidationConfig.header_max_length limits) 100)
  end.

(** * Properties *)

(** ** Version.bump *)

Lemma key_ltb_spec a b : VersionCalculator.key_ltb a b = true <-> key_lt a b.
Proof.
  destruct a as [[a1 a2] a3], b as [[b1 b2] b3]; cbn.
  rewrite !orb_true_iff, !andb_true_iff, !orb_true_iff, !andb_true_iff.
  rewrite !Z.ltb_lt, !Z.eqb_eq. tauto.
Qed.

(** C5. Bumping by MAJOR, MINOR or PATCH gives a version strictly above the
    original in the lexicographic order of (major, minor, patch); bumping by
    NONE keeps the three numbers; and whatever the severity, the result has
    neither prerelease nor build. *)
Theorem bump_monotone_and_clears (v : Version.t) :
  key_lt (VersionCalculator.key v) (VersionCalculator.key (Version.bump v MAJOR))
  /\ key_lt (VersionCalculator.key v) (VersionCalculator.key (Version.bump v MINOR))
  /\ key_lt (VersionCalculator.key v) (VersionCalculator.key (Version.bump v PATCH))
  /\ Version.bump v NONE
     = {| Version.major := Version.major v; Version.minor := Version.minor v;
          Version.patch := Version.patch v;
          Version.prerelease := None; Version.build := None |}
  /\ forall s, Version.prerelease (Version.bump v s) = None
               /\ Version.build (Version.bump v s) = None.
Proof.
  destruct v as [a b c p q]; cbn.
  split; [left; lia|].
  split; [right; split; [reflexivity|]; left; lia|].
  split; [right; split; [reflexivity|]; right; split; [reflexivity|]; lia|].
  split; [reflexivity|].
  intros s; destruct s; split; reflexivity.
Qed.

(** ** Version.parse and leading [v]s *)

Lemma lstrip_v_repeat n s :
  lstrip_char "v" (repeat "v"%char n ++ s) = lstrip_char "v" s.
Proof.
  induction n as [|n IH]; [reflexivity|]. cbn. exact IH.
Qed.

Lemma parse_ignores_leading_vs n s :
  Version.parse (repeat "v"%char n ++ s) = Version.parse s.
Proof.
  unfold Version.parse. rewrite lstrip_v_repeat. reflexivity.
Qed.

(** ** validate on the empty message *)

Lemma split_on_not_nil sep s : split_on sep s <> [].
Proof.
  destruct s as [|x s]; cbn; [discriminate|].
  destruct (Ascii.eqb x sep); [discriminate|].
  destruct (split_on sep s); discriminate.
Qed.

Ltac finding_cases H :=
  repeat match type of H with
         | In _ (_ ++ _) => apply in_app_iff in H; destruct H as [H|H]
         | In _ (if ?c then _ else _) => destruct c
         | In _ (match ?x with _ => _ end) => destruct x
         | In _ (_ :: _) => destruct H as [H|H]
         | In _ [] => destruct H
         end.

Lemma header_findings_line cfg header r :
  In r (CommitMessageValidator._validate_header cfg header) ->
  ValidationResult.line r = Some 1.
Proof.
  unfold CommitMessageValidator._validate_header.
  destruct (re_match no_flags CommitMessageValidator.COMMIT_PATTERN header) as [m|];
    intros H.
  - unfold CommitMessageValidator._validate_type,
      CommitMessageValidator._validate_scope,
      CommitMessageValidator._validate_subject,
      CommitMessageValidator._validate_breaking_indicator,
      CommitMessageValidator._validate_header_length in H.
    finding_cases H; subst r; reflexivity.
  - finding_cases H; subst r; reflexivity.
Qed.

Lemma body_line_findings_level max lines r : forall i,
  In r (CommitMessageValidator.body_line_findings max i lines) ->
  ValidationResult.level r = ValidationLevel.WARNING.
Proof.
  induction lines as [|l lines IH]; intros i H; [destruct H|].
  cbn [CommitMessageValidator.body_line_findings] in H.
  apply in_app_iff in H as [H|H]; [|exact (IH _ H)].
  destruct (max <? len l); [|destruct H]. destruct H as [<-|[]]. reflexivity.
Qed.

Lemma body_findings_level cfg body total r :
  In r (CommitMessageValidator._validate_body cfg body total) ->
  ValidationResult.level r <> ValidationLevel.ERROR.
Proof.
  unfold CommitMessageValidator._validate_body. intros H.
  apply in_app_iff in H as [H|H].
  - apply body_line_findings_level in H. rewrite H. discriminate.
  - destruct (contains _ body || contains _ body); [|destruct H].
    destruct H as [<-|[]]. discriminate.
Qed.

(** C7. On the empty message [validate] returns two findings, the ERROR of
    a header that does not match the format and the INFO hint that follows
    it; and on no message at all does it return the finding of its
    empty-message guard. *)
Theorem validate_empty_message (cfg : Config.t) :
  CommitMessageValidator.validate cfg []
  = [ CommitMessageValidator.finding ValidationLevel.ERROR
        (txt "Header does not match conventional commit format: ''") (Some 1);
      CommitMessageValidator.finding ValidationLevel.INFO
        (txt "Expected format: type(scope): subject or type: subject") (Some 1) ]
  /\ forall msg,
       ~ In (CommitMessageValidator.finding ValidationLevel.ERROR
               (txt "Commit message is empty") None)
            (CommitMessageValidator.validate cfg msg).
Proof.
  split; [reflexivity|].
  intros msg H. unfold CommitMessageValidator.validate in H.
  pose proof (split_on_not_nil LF (strip msg)) as Hn.
  destruct (split_on LF (strip msg)) as [|line0 lines1]; [congruence|].
  apply in_app_iff in H as [H|H].
  - apply header_findings_line in H. discriminate H.
  - destruct lines1 as [|l ls]; [destruct H|].
    destruct (strip (join [LF] (l :: ls))) as [|c body]; [destruct H|].
    apply body_findings_level in H. apply H. reflexivity.
Qed.

(** ** calculate_next_version without a branch configuration *)

Lemma get_branch_config_none fnmatch cfg branch :
  Config.get_branch_config fnmatch cfg branch = None
  <-> forall bc, In bc (Config.branches cfg) ->
                 fnmatch branch (BranchConfig.name bc) = false.
Proof.
  unfold Config.get_branch_config.
  induction (Config.branches cfg) as [|b l IH]; cbn [find].
  - split; [intros _ bc []|reflexivity].
  - destruct (fnmatch branch (BranchConfig.name b)) eqn:E.
    + split; [discriminate|]. intros H.
      rewrite (H b (or_introl eq_refl)) in E. discriminate.
    + rewrite IH. split.
      * intros H bc [<-|Hin]; [exact E|exact (H bc Hin)].
      * intros H bc Hin. apply H. right; exact Hin.
Qed.

(** C2, as amended. When the branch matches none of the configured
    patterns, [calculate_next_version] returns [None] and only writes a
    warning to the log; [None] is also the value it returns, for any branch,
    when the bump is NONE. *)
Theorem no_branch_config_returns_none
    (fnmatch wildmatch : text -> text -> bool) (cfg : Config.t) (git : GitHelper.t)
    (commits : list ParsedCommit.t) (current : option Version.t)
    (branch : text) (max_bump : BumpType) :
  (forall bc, In bc (Config.branches cfg) ->
              fnmatch branch (BranchConfig.name bc) = false) ->
  VersionCalculator.calculate_next_version fnmatch wildmatch cfg git
    commits current branch max_bump
  = (None, [ LogWarning (txt "No configuration for branch '" ++ branch ++ txt "'") ])
  /\ forall commits' current' branch',
       fst (VersionCalculator.calculate_next_version fnmatch wildmatch cfg git
              commits' current' branch' NONE)
       = fst (VersionCalculator.calculate_next_version fnmatch wildmatch cfg git
                commits current branch max_bump).
Proof.
  intros H. apply get_branch_config_none in H.
  unfold VersionCalculator.calculate_next_version. rewrite H.
  split; [reflexivity|].
  intros commits' current' branch'.
  destruct (Config.get_branch_config fnmatch cfg branch'); reflexivity.
Qed.

Lemma no_branch_config_returns_none_witness :
  (forall bc, In bc (Config.branches Config.DEFAULT_CONFIG) ->
              fnmatch_glob (txt "feature/x") (BranchConfig.name bc) = false)
  /\ VersionCalculator.calculate_next_version fnmatch_glob glob Config.DEFAULT_CONFIG
       no_git [] None (txt "feature/x") MINOR
     = (None, [ LogWarning (txt "No configuration for branch 'feature/x'") ]).
Proof.
  assert (H : forall bc, In bc (Config.branches Config.DEFAULT_CONFIG) ->
                         fnmatch_glob (txt "feature/x") (BranchConfig.name bc) = false).
  { intros bc [<-|[<-|[<-|[<-|[]]]]]; reflexivity. }
  split; [exact H|].
  exact (proj1 (no_branch_config_returns_none fnmatch_glob glob Config.DEFAULT_CONFIG
                  no_git [] None (txt "feature/x") MINOR H)).
Defined.

(** C2, as stated, fails: for the branch [feature/x], which the default
    configuration does not know, the caller receives the very value it
    receives on [main] when no release is needed. *)
Lemma no_branch_config_is_not_a_failure :
  Config.get_branch_config fnmatch_glob Config.DEFAULT_CONFIG (txt "feature/x") = None
  /\ fst (VersionCalculator.calculate_next_version fnmatch_glob glob
            Config.DEFAULT_CONFIG no_git [] None (txt "feature/x") MINOR)
     = fst (VersionCalculator.calculate_next_version fnmatch_glob glob
              Config.DEFAULT_CONFIG no_git [] None (txt "main") NONE).
Proof. split; reflexivity. Qed.

(** ** Lowercase BREAKING CHANGE markers *)

(** C10. There is a message with a lowercase [breaking change:] line in its
    body that the parser classifies as breaking, hence MAJOR, while the
    validator reports no INFO finding for it. *)
Theorem lowercase_marker_parser_vs_validator :
  exists msg commit,
    In (txt "breaking change: removed old endpoint") (split_on LF msg)
    /\ ConventionalCommitParser.parse Config.DEFAULT_CONFIG msg [] = Some commit
    /\ ParsedCommit.body commit = txt "breaking change: removed old endpoint"
    /\ ParsedCommit.breaking commit = true
    /\ ParsedCommit.bump commit = MAJOR
    /\ existsb (fun r => ValidationLevel.eqb (ValidationResult.level r) ValidationLevel.INFO)
         (CommitMessageValidator.validate Config.DEFAULT_CONFIG msg) = false.
Proof.
  exists lowercase_marker_message.
  eexists. split; [cbn; tauto|].
  split; [vm_compute; reflexivity|].
  repeat split; vm_compute; reflexivity.
Qed.

(** ** The prerelease path *)

Lemma text_eqb_eq a b : text_eqb a b = true <-> a = b.
Proof.
  revert b; induction a as [|x a IH]; intros [|y b]; cbn; split;
    try discriminate; try reflexivity.
  - rewrite andb_true_iff, Ascii.eqb_eq, IH. intros [-> ->]. reflexivity.
  - intros E; injection E as -> ->.
    rewrite andb_true_iff, Ascii.eqb_eq, IH. split; reflexivity.
Qed.

Lemma text_eqb_refl a : text_eqb a a = true.
Proof. apply text_eqb_eq. reflexivity. Qed.

Lemma key_lt_asym a b : key_lt a b -> ~ key_lt b a.
Proof.
  destruct a as [[a1 a2] a3], b as [[b1 b2] b3]; cbn. lia.
Qed.

Lemma key_nlt_trans a b c : ~ key_lt a b -> ~ key_lt b c -> ~ key_lt a c.
Proof.
  destruct a as [[a1 a2] a3], b as [[b1 b2] b3], c as [[c1 c2] c3]; cbn. lia.
Qed.

Lemma key_ltb_false a b : VersionCalculator.key_ltb a b = false <-> ~ key_lt a b.
Proof.
  rewrite <- key_ltb_spec. destruct (VersionCalculator.key_ltb a b); split;
    congruence.
Qed.

Lemma hd_insert_desc v l :
  hd_error (VersionCalculator.insert_desc v l)
  = match l with
    | [] => Some v
    | w :: _ =>
        if VersionCalculator.key_ltb (VersionCalculator.key v) (VersionCalculator.key w)
        then Some w else Some v
    end.
Proof.
  destruct l as [|w l]; cbn [VersionCalculator.insert_desc]; [reflexivity|].
  destruct (VersionCalculator.key_ltb _ _); reflexivity.
Qed.

Lemma insert_desc_not_nil v l : VersionCalculator.insert_desc v l <> [].
Proof.
  destruct l as [|w l]; cbn [VersionCalculator.insert_desc]; [discriminate|].
  destruct (VersionCalculator.key_ltb _ _); discriminate.
Qed.

(** The head of the sorted list is an element that no element exceeds. *)
Lemma sort_desc_head l :
  match VersionCalculator.sort_desc l with
  | [] => l = []
  | v :: _ =>
      In v l /\ forall w, In w l ->
                ~ key_lt (VersionCalculator.key v) (VersionCalculator.key w)
  end.
Proof.
  induction l as [|a l IH]; [reflexivity|].
  change (VersionCalculator.sort_desc (a :: l))
    with (VersionCalculator.insert_desc a (VersionCalculator.sort_desc l)).
  pose proof (hd_insert_desc a (VersionCalculator.sort_desc l)) as Hh.
  destruct (VersionCalculator.insert_desc a (VersionCalculator.sort_desc l))
    as [|v r] eqn:E.
  - exfalso. exact (insert_desc_not_nil _ _ E).
  - cbn [hd_error] in Hh. destruct (VersionCalculator.sort_desc l) as [|w s].
    + subst l. injection Hh as ->. split; [left; reflexivity|].
      intros w [<-|[]]. intros H; exact (key_lt_asym _ _ H H).
    + destruct IH as [Hin Hmax].
      destruct (VersionCalculator.key_ltb (VersionCalculator.key a)
                  (VersionCalculator.key w)) eqn:Hlt; injection Hh as ->.
      * split; [right; exact Hin|].
        intros x [<-|Hx]; [|exact (Hmax x Hx)].
        apply key_lt_asym. apply key_ltb_spec. exact Hlt.
      * apply key_ltb_false in Hlt. split; [left; reflexivity|].
        intros x [<-|Hx]; [intros H; exact (key_lt_asym _ _ H H)|].
        exact (key_nlt_trans _ _ _ Hlt (Hmax x Hx)).
Qed.

Lemma list_max_spec l : forall x,
  In (VersionCalculator.list_max x l) (x :: l)
  /\ forall y, In y (x :: l) -> y <= VersionCalculator.list_max x l.
Proof.
  unfold VersionCalculator.list_max.
  induction l as [|a l IH]; intros x; cbn [fold_left].
  - split; [left; reflexivity|]. intros y [<-|[]]. lia.
  - destruct (IH (Z.max x a)) as [Hin Hmax]. split.
    + destruct Hin as [E|Hin].
      * rewrite <- E. destruct (Z.max_spec x a) as [[_ ->]|[_ ->]];
          [right; left|left]; reflexivity.
      * right; right; exact Hin.
    + intros y [E|[E|Hy]].
      * specialize (Hmax (Z.max x a) (or_introl eq_refl)). lia.
      * specialize (Hmax (Z.max x a) (or_introl eq_refl)). lia.
      * apply Hmax. right; exact Hy.
Qed.

Lemma in_get_tags_matching wildmatch git pattern tag :
  In tag (GitHelper.get_tags_matching wildmatch git pattern)
  <-> In tag (GitHelper.tags git) /\ wildmatch pattern tag = true /\ tag <> [].
Proof.
  unfold GitHelper.get_tags_matching. rewrite !filter_In.
  destruct tag; intuition congruence.
Qed.

Lemma in_stable_versions_of v tags :
  In v (VersionCalculator.stable_versions_of tags)
  <-> exists tag, In tag tags /\ Version.parse tag = Ok v /\ Version.prerelease v = None.
Proof.
  unfold VersionCalculator.stable_versions_of. rewrite in_flat_map.
  split.
  - intros (tag & Hin & Hv). exists tag. split; [exact Hin|].
    destruct (Version.parse tag) as [w|e]; [|destruct Hv].
    destruct (Version.prerelease w) eqn:Hp; [destruct Hv|].
    destruct Hv as [<-|[]]. split; [reflexivity|exact Hp].
  - intros (tag & Hin & Hparse & Hp). exists tag. split; [exact Hin|].
    rewrite Hparse, Hp. left; reflexivity.
Qed.

Lemma in_counter_of_tag id tag n :
  In n (VersionCalculator.counter_of_tag id tag)
  <-> exists v pre part1 parts,
        Version.parse tag = Ok v
        /\ Version.prerelease v = Some pre
        /\ split_on "." pre = id :: part1 :: parts
        /\ py_int part1 = Some n.
Proof.
  unfold VersionCalculator.counter_of_tag. split.
  - destruct (Version.parse tag) as [v|e]; [|intros []].
    destruct (Version.prerelease v) as [[|c p]|] eqn:Hp; try (intros []).
    destruct (split_on "." (c :: p)) as [|part0 [|part1 parts]] eqn:Hs;
      try (intros []).
    destruct (text_eqb part0 id) eqn:He; [|intros []].
    apply text_eqb_eq in He. subst part0.
    destruct (py_int part1) as [k|] eqn:Hk; [|intros []].
    intros [<-|[]]. exists v, (c :: p), part1, parts. auto.
  - intros (v & pre & part1 & parts & -> & -> & Hs & Hk).
    destruct pre as [|c p]; [discriminate Hs|].
    rewrite Hs, text_eqb_refl, Hk. left; reflexivity.
Qed.

Lemma latest_stable_computed wildmatch git :
  latest_stable wildmatch git
    (get (VersionCalculator._get_latest_stable_version wildmatch git)
         (Version.make 0 0 0)).
Proof.
  unfold VersionCalculator._get_latest_stable_version, latest_stable, stable_tag.
  pose proof (sort_desc_head
    (VersionCalculator.stable_versions_of
       (GitHelper.get_tags_matching wildmatch git (txt "*")))) as H.
  destruct (VersionCalculator.sort_desc _) as [|v r]; cbn [get].
  - right. split; [|reflexivity].
    intros w Hw. apply in_stable_versions_of in Hw. rewrite H in Hw. exact Hw.
  - left. destruct H as [Hin Hmax]. split.
    + apply in_stable_versions_of. exact Hin.
    + intros w Hw. apply Hmax. apply in_stable_versions_of. exact Hw.
Qed.

Lemma next_counter_computed wildmatch git base id branch :
  next_counter wildmatch git base id
    (VersionCalculator._get_prerelease_counter wildmatch git base id branch).
Proof.
  unfold VersionCalculator._get_prerelease_counter, next_counter, carries_counter.
  set (matching := GitHelper.get_tags_matching wildmatch git _).
  assert (Hc : forall n,
             In n (flat_map (VersionCalculator.counter_of_tag id) matching)
             <-> exists tag, In tag matching
                   /\ exists v pre part1 parts,
                        Version.parse tag = Ok v
                        /\ Version.prerelease v = Some pre
                        /\ split_on "." pre = id :: part1 :: parts
                        /\ py_int part1 = Some n).
  { intros n. rewrite in_flat_map. split; intros (tag & Hin & H); exists tag;
      (split; [exact Hin|]); apply in_counter_of_tag; exact H. }
  destruct (flat_map (VersionCalculator.counter_of_tag id) matching)
    as [|c cs] eqn:Hcs.
  - assert (Hnone : forall tag n,
               ~ (In tag matching
                  /\ exists v pre part1 parts,
                       Version.parse tag = Ok v
                       /\ Version.prerelease v = Some pre
                       /\ split_on "." pre = id :: part1 :: parts
                       /\ py_int part1 = Some n)).
    { intros tag n H. apply (proj2 (Hc n)). exists tag. exact H. }
    destruct matching; right; (split; [exact Hnone|reflexivity]).
  - destruct (list_max_spec cs c) as [Hin Hmax].
    assert (Hgoal :
      (exists tag, In tag matching
         /\ exists v pre part1 parts,
              Version.parse tag = Ok v
              /\ Version.prerelease v = Some pre
              /\ split_on "." pre = id :: part1 :: parts
              /\ py_int part1 = Some (VersionCalculator.list_max c cs + 1 - 1))
      /\ forall tag n,
           In tag matching
           /\ (exists v pre part1 parts,
                 Version.parse tag = Ok v
                 /\ Version.prerelease v = Some pre
                 /\ split_on "." pre = id :: part1 :: parts
                 /\ py_int part1 = Some n)
           -> n <= VersionCalculator.list_max c cs + 1 - 1).
    { replace (VersionCalculator.list_max c cs + 1 - 1)
        with (VersionCalculator.list_max c cs) by lia.
      split.
      - apply Hc. exact Hin.
      - intros tag n H. apply Hmax. apply Hc. exists tag. exact H. }
    destruct matching as [|t ts]; [discriminate Hcs|]. left. exact Hgoal.
Qed.

(** ** The line numbers of body warnings *)

Lemma split_on_app_sep sep h s :
  ~ In sep h -> split_on sep (h ++ sep :: s) = h :: split_on sep s.
Proof.
  induction h as [|x h IH]; intros Hn; cbn.
  - rewrite Ascii.eqb_refl. reflexivity.
  - destruct (Ascii.eqb x sep) eqn:E.
    + apply Ascii.eqb_eq in E. subst x. exfalso. apply Hn. left; reflexivity.
    + rewrite IH; [reflexivity|]. intros H. apply Hn. right; exact H.
Qed.

Lemma join_cons sep p ps : ps <> [] -> join sep (p :: ps) = p ++ sep ++ join sep ps.
Proof. destruct ps; [congruence|reflexivity]. Qed.

Lemma join_push sep x l ls : join sep ((x :: l) :: ls) = x :: join sep (l :: ls).
Proof. destruct ls; reflexivity. Qed.

Lemma join_split_on sep s : join [sep] (split_on sep s) = s.
Proof.
  induction s as [|x s IH]; [reflexivity|]. cbn [split_on].
  pose proof (split_on_not_nil sep s) as Hn.
  destruct (Ascii.eqb x sep) eqn:E.
  - apply Ascii.eqb_eq in E. subst x.
    rewrite join_cons by exact Hn. rewrite IH. reflexivity.
  - destruct (split_on sep s) as [|l ls] eqn:Hs; [congruence|].
    rewrite join_push. f_equal. exact IH.
Qed.

Lemma strip_cons_space c s : is_space c = true -> strip (c :: s) = strip s.
Proof. intros H. unfold strip. cbn [drop_while]. rewrite H. reflexivity. Qed.

Lemma body_line_findings_numbered cfg lines : forall i,
  CommitMessageValidator.body_line_findings (body_max cfg) i lines
  = flat_map (line_warning (body_max cfg))
      (combine (map (fun k => i + Z.of_nat k) (seq 0 (length lines))) lines).
Proof.
  induction lines as [|l lines IH]; intros i; [reflexivity|].
  cbn [CommitMessageValidator.body_line_findings length seq map combine flat_map].
  rewrite IH, <- seq_shift, map_map. cbn [line_warning].
  replace (i + Z.of_nat 0) with i by lia.
  f_equal. f_equal. f_equal. apply map_ext. intros k. lia.
Qed.

(** What [validate] returns for a message with a non-empty body: the
    findings of the header, then one WARNING for each line of the stripped
    body that is too long, numbered from 3 on, then the INFO of a marker. *)
Lemma validate_with_body cfg msg line0 lines1 :
  split_on LF (strip msg) = line0 :: lines1 ->
  lines1 <> [] ->
  strip (join [LF] lines1) <> [] ->
  CommitMessageValidator.validate cfg msg
  = CommitMessageValidator._validate_header cfg (strip line0)
    ++ flat_map (line_warning (body_max cfg))
         (combine (map (fun k => 3 + Z.of_nat k)
                       (seq 0 (length (split_on LF (strip (join [LF] lines1))))))
                  (split_on LF (strip (join [LF] lines1))))
    ++ marker_info (strip (join [LF] lines1)).
Proof.
  intros Hs Hl Hb. unfold CommitMessageValidator.validate. rewrite Hs.
  destruct lines1 as [|l1 ls]; [congruence|].
  destruct (strip (join [LF] (l1 :: ls))) as [|c body] eqn:Hbody; [congruence|].
  unfold CommitMessageValidator._validate_body.
  rewrite <- body_line_findings_numbered. reflexivity.
Qed.

Lemma numbered_from_third h l lines :
  skipn 2 (numbered (h :: l :: lines))
  = combine (map (fun k => 3 + Z.of_nat k) (seq 0 (length lines))) lines.
Proof.
  unfold numbered. cbn [length seq map combine skipn].
  rewrite <- seq_shift, <- seq_shift, <- seq_shift, !map_map.
  f_equal. apply map_ext. intros k. lia.
Qed.

(** C8, as amended. For a message laid out as header, one blank line, body,
    [validate] returns the findings of the header followed by one WARNING for
    each line of the message from the third on that exceeds the configured
    length (100 by default), each carrying the 1-based number of its line in
    the message, followed by the INFO of a marker in the body. *)
Theorem body_warnings_line_numbers (cfg : Config.t) (header body : text) :
  ~ In LF header ->
  strip (header ++ LF :: LF :: body) = header ++ LF :: LF :: body ->
  strip body = body ->
  body <> [] ->
  CommitMessageValidator.validate cfg (header ++ LF :: LF :: body)
  = CommitMessageValidator._validate_header cfg (strip header)
    ++ flat_map (line_warning (body_max cfg))
         (skipn 2 (numbered (split_on LF (header ++ LF :: LF :: body))))
    ++ marker_info body.
Proof.
  intros Hh Hm Hb Hne.
  assert (Hsplit : split_on LF (header ++ LF :: LF :: body)
                   = header :: [] :: split_on LF body).
  { rewrite split_on_app_sep by exact Hh. reflexivity. }
  assert (Hjoin : strip (join [LF] ([] :: split_on LF body)) = body).
  { pose proof (split_on_not_nil LF body) as Hn.
    pose proof (join_split_on LF body) as Hj.
    rewrite join_cons by exact Hn. rewrite Hj. cbn [app].
    rewrite strip_cons_space by reflexivity. exact Hb. }
  rewrite (validate_with_body cfg _ header ([] :: split_on LF body)).
  - rewrite Hjoin, Hsplit, numbered_from_third. reflexivity.
  - rewrite Hm. exact Hsplit.
  - discriminate.
  - rewrite Hjoin. exact Hne.
Qed.

Lemma body_warnings_line_numbers_witness :
  CommitMessageValidator.validate Config.DEFAULT_CONFIG
    (txt "fix: abc" ++ LF :: LF :: repeat "a"%char 101)
  = CommitMessageValidator._validate_header Config.DEFAULT_CONFIG (strip (txt "fix: abc"))
    ++ flat_map (line_warning (body_max Config.DEFAULT_CONFIG))
         (skipn 2 (numbered (split_on LF (txt "fix: abc" ++ LF :: LF :: repeat "a"%char 101))))
    ++ marker_info (repeat "a"%char 101).
Proof.
  apply (body_warnings_line_numbers Config.DEFAULT_CONFIG (txt "fix: abc")
           (repeat "a"%char 101)).
  - vm_compute. intuition discriminate.
  - vm_compute. reflexivity.
  - vm_compute. reflexivity.
  - discriminate.
Defined.

(** C8, as stated, fails: when the body follows the header without a blank
    line, the long line is the second line of the message and the WARNING
    names line 3, a line the message does not have. *)
Lemma body_warning_line_number_off :
  numbered (split_on LF no_blank_line_message)
  = [ (1, txt "fix: abc"); (2, repeat "a"%char 101) ]
  /\ CommitMessageValidator.validate Config.DEFAULT_CONFIG no_blank_line_message
     = [ CommitMessageValidator.finding ValidationLevel.WARNING
           (txt "Body line 1 too long (101 chars). Maximum: 100 chars") (Some 3) ].
Proof. split; vm_compute; reflexivity. Qed.

(** ** The matcher and the patterns, declaratively *)

Lemma all_ascii_spec p : all_ascii p = true -> forall c, p c = true.
Proof.
  unfold all_ascii. rewrite forallb_forall. intros H c. apply H.
  rewrite <- (ascii_nat_embedding c). apply in_map. apply in_seq.
  pose proof (nat_ascii_bounded c). lia.
Qed.

Lemma item_mem_lit_nocase fl a x :
  ignorecase fl = true ->
  item_mem fl (ILit a) x = Ascii.eqb (lower_char x) (lower_char a).
Proof.
  intros Hfl.
  change (item_mem fl (ILit a) x)
    with (item_raw (ILit a) x
          || (ignorecase fl && (item_raw (ILit a) (lower_char x)
                                || item_raw (ILit a) (upper_char x)))).
  rewrite Hfl.
  change (item_mem MULTILINE_IGNORECASE (ILit a) x
          = Ascii.eqb (lower_char x) (lower_char a)).
  revert a x.
  assert (H : all_ascii (fun a => all_ascii (fun x =>
             Bool.eqb (item_mem MULTILINE_IGNORECASE (ILit a) x)
                      (Ascii.eqb (lower_char x) (lower_char a)))) = true)
    by (vm_compute; reflexivity).
  intros a x. apply Bool.eqb_prop.
  exact (all_ascii_spec _ (all_ascii_spec _ H a) x).
Qed.

Lemma item_mem_lit_case fl a x :
  ignorecase fl = false -> item_mem fl (ILit a) x = Ascii.eqb x a.
Proof.
  intros H. unfold item_mem. rewrite H. cbn. apply orb_false_r.
Qed.

Lemma eat_spec fl s : forall sn rs sn' rs',
  eat fl s sn rs = Some (sn', rs')
  <-> exists m, rs = m ++ rs' /\ sn' = rev m ++ sn /\ lit_eq fl s m.
Proof.
  unfold lit_eq.
  induction s as [|a s IH]; intros sn rs sn' rs'; cbn [eat].
  - split.
    + intros E; injection E as <- <-. exists []. destruct (ignorecase fl); auto.
    + intros (m & -> & -> & Hm).
      assert (m = []) as ->.
      { destruct (ignorecase fl); [|exact Hm]. destruct m; [reflexivity|discriminate]. }
      reflexivity.
  - destruct rs as [|x rs].
    + split; [discriminate|].
      intros (m & Hrs & _ & Hm). exfalso.
      destruct m as [|y m]; [|discriminate Hrs].
      destruct (ignorecase fl); discriminate.
    + destruct (ignorecase fl) eqn:Hfl.
      * rewrite item_mem_lit_nocase by exact Hfl.
        destruct (Ascii.eqb (lower_char x) (lower_char a)) eqn:E.
        -- apply Ascii.eqb_eq in E. rewrite IH. split.
           ++ intros (m & -> & -> & Hm). exists (x :: m). cbn.
              unfold lower in Hm. rewrite <- app_assoc, E, Hm. auto.
           ++ intros (m & Hrs & -> & Hm). destruct m as [|y m]; [discriminate|].
              cbn in Hrs, Hm. injection Hrs as <- ->. injection Hm as _ Hm.
              exists m. cbn. rewrite <- app_assoc. auto.
        -- split; [discriminate|].
           intros (m & Hrs & _ & Hm). exfalso.
           destruct m as [|y m]; [discriminate|].
           cbn in Hrs, Hm. injection Hrs as <- _. injection Hm as Hc _.
           rewrite Hc, Ascii.eqb_refl in E. discriminate.
      * rewrite item_mem_lit_case by exact Hfl.
        destruct (Ascii.eqb x a) eqn:E.
        -- apply Ascii.eqb_eq in E. subst x. rewrite IH. split.
           ++ intros (m & -> & -> & ->). exists (a :: s). cbn.
              rewrite <- app_assoc. auto.
           ++ intros (m & Hrs & -> & ->). cbn in Hrs. injection Hrs as ->.
              exists s. cbn. rewrite <- app_assoc. auto.
        -- split; [discriminate|].
           intros (m & Hrs & _ & ->). cbn in Hrs. injection Hrs as <- _.
           rewrite Ascii.eqb_refl in E. discriminate.
Qed.

Lemma rep_spec p gs rs : forall min sn st',
  In st' (rep p min sn rs gs)
  <-> exists m, rs = m ++ rest st' /\ seen st' = rev m ++ sn
                /\ forallb p m = true /\ (min <= length m)%nat
                /\ groups st' = gs.
Proof.
  induction rs as [|x rs IH]; intros min sn st'.
  - cbn [rep]. split.
    + destruct min; [|intros []]. intros [<-|[]]. exists []. cbn. auto.
    + intros (m & Hrs & Hsn & _ & Hmin & Hgs).
      destruct m; [|discriminate]. cbn in *. destruct min; [|lia].
      left. destruct st'; cbn in *. subst. reflexivity.
  - cbn [rep].
    assert (Hhere : In st' (match min with
                            | O => [ {| seen := sn; rest := x :: rs; groups := gs |} ]
                            | S _ => []
                            end)
                    <-> (min = O /\ st' = {| seen := sn; rest := x :: rs; groups := gs |})).
    { destruct min; cbn; split; try tauto; try (intros [H _]; discriminate).
      - intros [<-|[]]; auto.
      - intros [_ ->]; auto. }
    destruct (p x) eqn:Hp.
    + rewrite in_app_iff, IH, Hhere. split.
      * intros [(m & Hrs & Hsn & Hall & Hmin & Hgs)|[-> ->]].
        -- exists (x :: m). cbn. rewrite Hp, Hall, Hsn, <- app_assoc, Hrs.
           repeat split; auto. lia.
        -- exists []. cbn. auto.
      * intros (m & Hrs & Hsn & Hall & Hmin & Hgs). destruct m as [|y m].
        -- right. cbn in *. split; [lia|]. destruct st'; cbn in *; subst; reflexivity.
        -- left. cbn in Hrs, Hsn, Hall, Hmin. injection Hrs as <- Hrs.
           apply andb_true_iff in Hall as [_ Hall].
           exists m. rewrite <- app_assoc in Hsn. repeat split; auto. lia.
    + rewrite Hhere. split.
      * intros [-> ->]. exists []. cbn. auto.
      * intros (m & Hrs & Hsn & Hall & Hmin & Hgs). destruct m as [|y m].
        -- cbn in *. split; [lia|]. destruct st'; cbn in *; subst; reflexivity.
        -- exfalso. cbn in Hrs, Hall. injection Hrs as <- _.
           rewrite Hp in Hall. discriminate.
Qed.

(** The matcher finds exactly the matches of the pattern. *)
Theorem run_matches fl r : forall st sn' rs',
  (exists st', In st' (run fl r st) /\ seen st' = sn' /\ rest st' = rs')
  <-> matches fl r (seen st) (rest st) sn' rs'.
Proof.
  induction r as [| |s|c|min c|r IH|name r IH|r1 IH1 r2 IH2]; intros st sn' rs';
    cbn [run matches].
  - unfold at_bol, pos; cbn [seen]. split.
    + intros (st' & Hin & <- & <-).
      destruct (match seen st with [] => true | x :: _ => _ end);
        [|destruct Hin]. destruct Hin as [<-|[]]. auto.
    + intros (-> & -> & ->). exists st. cbn. auto.
  - unfold at_eol, pos; cbn [rest]. split.
    + intros (st' & Hin & <- & <-).
      destruct (match rest st with [] => true | x :: _ => _ end);
        [|destruct Hin]. destruct Hin as [<-|[]]. auto.
    + intros (-> & -> & ->). exists st. cbn. auto.
  - rewrite <- eat_spec. split.
    + intros (st' & Hin & <- & <-).
      destruct (eat fl s (seen st) (rest st)) as [[sn rs]|]; [|destruct Hin].
      destruct Hin as [<-|[]]. reflexivity.
    + intros ->. eexists. split; [left; reflexivity|]. auto.
  - split.
    + intros (st' & Hin & <- & <-).
      destruct (rest st) as [|x rs]; [destruct Hin|].
      destruct (cmem fl c x) eqn:Hc; [|destruct Hin].
      destruct Hin as [<-|[]]. exists x. auto.
    + intros (x & -> & -> & ->). eexists. split; [left; reflexivity|]. auto.
  - split.
    + intros (st' & Hin & <- & <-). apply rep_spec in Hin.
      destruct Hin as (m & Hrs & Hsn & Hall & Hmin & _). exists m. auto.
    + intros (m & Hrs & Hsn & Hall & Hmin).
      exists {| seen := sn'; rest := rs'; groups := groups st |}.
      split; [|auto]. apply rep_spec. exists m. auto.
  - rewrite <- IH. split.
    + intros (st' & Hin & <- & <-). apply in_app_iff in Hin as [Hin|[<-|[]]].
      * left. exists st'. auto.
      * right. auto.
    + intros [(st' & Hin & <- & <-)|[-> ->]].
      * exists st'. split; [apply in_app_iff; left; exact Hin|auto].
      * exists st. split; [apply in_app_iff; right; left; reflexivity|auto].
  - rewrite <- IH. split.
    + intros (st' & Hin & <- & <-). apply in_map_iff in Hin as (st0 & <- & Hin).
      exists st0. auto.
    + intros (st0 & Hin & <- & <-). exists (capture name st st0).
      split; [apply in_map; exact Hin|auto].
  - split.
    + intros (st' & Hin & <- & <-). apply in_flat_map in Hin as (st1 & H1 & H2).
      exists (seen st1), (rest st1). split.
      * apply IH1. exists st1. auto.
      * apply IH2. exists st'. auto.
    + intros (sn1 & rs1 & H1 & H2).
      apply IH1 in H1 as (st1 & Hin1 & <- & <-).
      apply IH2 in H2 as (st' & Hin2 & <- & <-).
      exists st'. split; [|auto]. apply in_flat_map. exists st1. auto.
Qed.

Lemma search_from_spec fl r rs : forall sn,
  is_some (search_from fl r sn rs) = true
  <-> exists pre post sn' rs',
        rs = pre ++ post /\ matches fl r (rev pre ++ sn) post sn' rs'.
Proof.
  induction rs as [|x rs IH]; intros sn; cbn [search_from].
  - destruct (run fl r {| seen := sn; rest := []; groups := [] |}) as [|st l] eqn:Hrun.
    + split; [discriminate|].
      intros (pre & post & sn' & rs' & Hrs & Hm). exfalso.
      destruct pre; [|discriminate]. cbn in Hrs. subst post.
      apply (run_matches fl r {| seen := sn; rest := []; groups := [] |}) in Hm
        as (st' & Hin & _).
      rewrite Hrun in Hin. exact Hin.
    + split; [|reflexivity]. intros _.
      exists [], [], (seen st), (rest st). split; [reflexivity|].
      apply (run_matches fl r {| seen := sn; rest := []; groups := [] |}).
      exists st. rewrite Hrun. cbn. auto.
  - destruct (run fl r {| seen := sn; rest := x :: rs; groups := [] |})
      as [|st l] eqn:Hrun.
    + rewrite IH. split.
      * intros (pre & post & sn' & rs' & -> & Hm).
        exists (x :: pre), post, sn', rs'. cbn. rewrite <- app_assoc. auto.
      * intros (pre & post & sn' & rs' & Hrs & Hm). destruct pre as [|y pre].
        -- exfalso. cbn in Hrs. subst post.
           apply (run_matches fl r {| seen := sn; rest := x :: rs; groups := [] |})
             in Hm as (st' & Hin & _).
           rewrite Hrun in Hin. exact Hin.
        -- cbn in Hrs. injection Hrs as <- ->.
           exists pre, post, sn', rs'. cbn in Hm. rewrite <- app_assoc in Hm. auto.
    + split; [|reflexivity]. intros _.
      exists [], (x :: rs), (seen st), (rest st). split; [reflexivity|].
      apply (run_matches fl r {| seen := sn; rest := x :: rs; groups := [] |}).
      exists st. rewrite Hrun. cbn. auto.
Qed.

(** [pattern.search(s)] succeeds exactly when the pattern matches from some
    position of [s]. *)
Lemma re_search_spec fl r s :
  is_some (re_search fl r s) = true
  <-> exists pre post sn' rs',
        s = pre ++ post /\ matches fl r (rev pre) post sn' rs'.
Proof.
  unfold re_search. rewrite search_from_spec.
  split; intros (pre & post & sn' & rs' & Hs & Hm); exists pre, post, sn', rs';
    rewrite app_nil_r in *; auto.
Qed.

(** *** Character sets of the breaking patterns *)

Lemma forallb_ext_eq (p q : ascii -> bool) (l : text) :
  (forall x, p x = q x) -> forallb p l = forallb q l.
Proof.
  intros H. induction l as [|x l IH]; cbn; [reflexivity|]. rewrite H, IH. reflexivity.
Qed.

Lemma cmem_sep_nocase x :
  cmem MULTILINE_IGNORECASE (CSet false [ILit "-"; ILit " "]) x
  = Ascii.eqb x "-" || Ascii.eqb x " ".
Proof.
  revert x.
  assert (H : all_ascii (fun x =>
             Bool.eqb (cmem MULTILINE_IGNORECASE (CSet false [ILit "-"; ILit " "]) x)
                      (Ascii.eqb x "-" || Ascii.eqb x " ")) = true)
    by (vm_compute; reflexivity).
  intros x. apply Bool.eqb_prop. exact (all_ascii_spec _ H x).
Qed.

Lemma cmem_space_nocase x : cmem MULTILINE_IGNORECASE s_ x = is_space x.
Proof.
  revert x.
  assert (H : all_ascii (fun x =>
             Bool.eqb (cmem MULTILINE_IGNORECASE s_ x) (is_space x)) = true)
    by (vm_compute; reflexivity).
  intros x. apply Bool.eqb_prop. exact (all_ascii_spec _ H x).
Qed.

Lemma cmem_space x : cmem MULTILINE s_ x = is_space x.
Proof. unfold cmem, s_, item_mem. cbn. apply orb_false_r. Qed.

Lemma cmem_word x : cmem MULTILINE w_ x = is_word x.
Proof. unfold cmem, w_, item_mem. cbn. apply orb_false_r. Qed.

Lemma cmem_dot fl x : cmem fl dot_ x = negb (Ascii.eqb x LF).
Proof. reflexivity. Qed.

Lemma cmem_not_rparen x : cmem MULTILINE not_rparen x = negb (Ascii.eqb x ")").
Proof.
  unfold cmem, not_rparen, item_mem. cbn [existsb ignorecase MULTILINE item_raw].
  rewrite andb_false_l, !orb_false_r. reflexivity.
Qed.

Lemma lower_sep x :
  lower_char x = " "%char \/ lower_char x = "-"%char ->
  Ascii.eqb x "-" || Ascii.eqb x " " = true.
Proof.
  revert x.
  assert (H : all_ascii (fun x =>
             implb (Ascii.eqb (lower_char x) " " || Ascii.eqb (lower_char x) "-")
                   (Ascii.eqb x "-" || Ascii.eqb x " ")) = true)
    by (vm_compute; reflexivity).
  intros x Hx. pose proof (all_ascii_spec _ H x) as Hi. cbv beta in Hi.
  destruct Hx as [E|E]; rewrite E in Hi; exact Hi.
Qed.

Lemma lower_app a b : lower (a ++ b) = lower a ++ lower b.
Proof. apply map_app. Qed.

Lemma forallb_neq_not_in c l :
  forallb (fun x => negb (Ascii.eqb x c)) l = true <-> ~ In c l.
Proof.
  induction l as [|x l IH]; cbn; [tauto|].
  rewrite andb_true_iff, IH, negb_true_iff, Ascii.eqb_neq. intuition congruence.
Qed.

(** The footer pattern matches somewhere in the body exactly when the body
    holds a footer marker. *)
Lemma footer_search_spec body :
  is_some (re_search MULTILINE_IGNORECASE ConventionalCommitParser.BREAKING_FOOTER body)
  = true
  <-> has_footer_marker body.
Proof.
  rewrite re_search_spec. unfold has_footer_marker. split.
  - intros (pre & post & sn' & rs' & -> & Hm).
    unfold ConventionalCommitParser.BREAKING_FOOTER in Hm. cbn [matches] in Hm.
    destruct Hm as (sn1 & rs1 & (m1 & -> & -> & H1) & sn2 & rs2
                    & (x & -> & -> & Hx) & sn3 & rs3 & (m2 & -> & -> & H2)
                    & sn4 & rs4 & (ws & -> & -> & Hws & _)
                    & (t & -> & -> & Ht & Hlen)).
    unfold lit_eq in H1, H2. cbn [ignorecase MULTILINE_IGNORECASE] in H1, H2.
    rewrite cmem_sep_nocase in Hx.
    rewrite (forallb_ext_eq _ _ _ cmem_space_nocase) in Hws.
    destruct t as [|c t]; [cbn in Hlen; lia|].
    cbn [forallb] in Ht. apply andb_true_iff in Ht as [Hc _].
    rewrite cmem_dot, negb_true_iff, Ascii.eqb_neq in Hc.
    exists pre, (m1 ++ x :: m2), ws, c, (t ++ rs').
    split; [rewrite <- !app_assoc; reflexivity|].
    split; [|split; [exact Hws|exact Hc]].
    rewrite lower_app. change (lower (x :: m2)) with (lower_char x :: lower m2).
    rewrite H1, H2.
    apply orb_true_iff in Hx as [Hx|Hx]; apply Ascii.eqb_eq in Hx; subst x;
      [right|left]; reflexivity.
  - intros (pre & kw & ws & c & post & -> & Hkw & Hws & Hc).
    assert (Hsplit : exists m1 x m2,
               kw = m1 ++ x :: m2
               /\ lower m1 = lower (txt "BREAKING")
               /\ (lower_char x = " "%char \/ lower_char x = "-"%char)
               /\ lower m2 = lower (txt "CHANGE:")).
    { unfold lower in Hkw.
      do 16 (destruct kw as [|? kw]; [destruct Hkw; discriminate|]).
      destruct kw; [|destruct Hkw; discriminate].
      exists [a; a0; a1; a2; a3; a4; a5; a6], a7, [a8; a9; a10; a11; a12; a13; a14].
      split; [reflexivity|]. cbn in Hkw |- *.
      destruct Hkw as [Hkw|Hkw]; injection Hkw as -> -> -> -> -> -> -> -> E -> -> -> -> -> -> ->;
        rewrite E; auto. }
    destruct Hsplit as (m1 & x & m2 & -> & H1 & Hx & H2).
    exists pre, ((m1 ++ x :: m2) ++ ws ++ c :: post),
      (c :: rev ws ++ rev m2 ++ x :: rev m1 ++ rev pre), post.
    split; [reflexivity|].
    unfold ConventionalCommitParser.BREAKING_FOOTER. cbn [matches].
    exists (rev m1 ++ rev pre), (x :: m2 ++ ws ++ c :: post). split.
    { exists m1. rewrite <- !app_assoc. auto. }
    exists (x :: rev m1 ++ rev pre), (m2 ++ ws ++ c :: post). split.
    { exists x. rewrite cmem_sep_nocase. auto using lower_sep. }
    exists (rev m2 ++ x :: rev m1 ++ rev pre), (ws ++ c :: post). split.
    { exists m2. auto. }
    exists (rev ws ++ rev m2 ++ x :: rev m1 ++ rev pre), (c :: post). split.
    { exists ws. rewrite (forallb_ext_eq _ _ _ cmem_space_nocase).
      repeat split; auto. lia. }
    exists [c]. cbn [app rev length forallb]. rewrite cmem_dot.
    apply Ascii.eqb_neq in Hc. rewrite Hc. repeat split; auto.
Qed.

Lemma at_bol_multiline pre post :
  at_bol MULTILINE (pos (rev pre) post) = true
  <-> pre = [] \/ exists pre', pre = pre' ++ [LF].
Proof.
  unfold at_bol, pos; cbn [seen multiline MULTILINE andb].
  destruct (rev pre) as [|x l] eqn:E.
  - split; [|reflexivity]. intros _. left.
    apply (f_equal (@rev ascii)) in E. rewrite rev_involutive in E. exact E.
  - apply (f_equal (@rev ascii)) in E. rewrite rev_involutive in E. cbn in E.
    rewrite Ascii.eqb_eq. split.
    + intros ->. right. exists (rev l). exact E.
    + intros [->|(pre' & ->)]; [destruct (rev l); discriminate|].
      apply app_inj_tail in E as [_ E]. congruence.
Qed.

Lemma line_span sn s :
  exists t rs,
    s = t ++ rs
    /\ forallb (fun x => negb (Ascii.eqb x LF)) t = true
    /\ at_eol MULTILINE (pos sn rs) = true.
Proof.
  induction s as [|x s (t & rs & -> & Ht & He)].
  - exists [], []. auto.
  - destruct (Ascii.eqb x LF) eqn:E.
    + exists [], (x :: t ++ rs). repeat split.
      unfold at_eol, pos; cbn. rewrite E. reflexivity.
    + exists (x :: t), rs. cbn. rewrite E, Ht. auto.
Qed.

(** The header pattern, searched in the body, matches exactly when the body
    holds a line of the form [type!:] or [type(scope)!:]. *)
Lemma bang_line_search_spec body :
  is_some (re_search MULTILINE ConventionalCommitParser.BREAKING_HEADER body) = true
  <-> has_bang_line body.
Proof.
  rewrite re_search_spec. unfold has_bang_line. split.
  - intros (pre & post & sn' & rs' & -> & Hm).
    unfold ConventionalCommitParser.BREAKING_HEADER in Hm. cbn [matches] in Hm.
    destruct Hm as (sn1 & rs1 & (Hbol & -> & ->) & sn2 & rs2
                    & (ty & -> & -> & Hty & Hlen) & sn3 & rs3 & Hopt & sn4 & rs4
                    & (m & -> & -> & Hm) & sn5 & rs5 & (ws & -> & -> & Hws & _)
                    & sn6 & rs6 & (t & -> & -> & Ht & Htl) & _).
    unfold lit_eq in Hm; cbn [ignorecase MULTILINE] in Hm. subst m.
    rewrite (forallb_ext_eq _ _ _ cmem_word) in Hty.
    rewrite (forallb_ext_eq _ _ _ cmem_space) in Hws.
    destruct t as [|c t]; [cbn in Htl; lia|].
    cbn [forallb] in Ht. apply andb_true_iff in Ht as [Hc _].
    rewrite cmem_dot, negb_true_iff, Ascii.eqb_neq in Hc.
    apply at_bol_multiline in Hbol.
    assert (Hsc : exists sc, rs2 = sc ++ txt "!:" ++ ws ++ (c :: t) ++ rs6 /\ scope_part sc).
    { destruct Hopt as [(sna & rsa & (m1 & -> & -> & H1) & snb & rsb
                         & (inner & -> & -> & Hin & Hil) & (m2 & Hr & _ & H2))
                       |[_ Hr]].
      - unfold lit_eq in H1, H2; cbn [ignorecase MULTILINE] in H1, H2. subst m1 m2.
        exists (("("%char :: inner) ++ [")"%char]). split.
        + rewrite Hr. cbn. rewrite <- !app_assoc. reflexivity.
        + right. exists inner. split; [reflexivity|].
          split; [destruct inner; [cbn in Hil; lia|discriminate]|].
          apply forallb_neq_not_in.
          rewrite <- (forallb_ext_eq _ _ _ cmem_not_rparen). exact Hin.
      - exists []. split; [symmetry; exact Hr|left; reflexivity]. }
    destruct Hsc as (sc & -> & Hsc).
    exists pre, ty, sc, ws, c, (t ++ rs6).
    split; [reflexivity|]. split; [exact Hbol|].
    split; [destruct ty; [cbn in Hlen; lia|discriminate]|].
    auto.
  - intros (pre & ty & sc & ws & c & post & -> & Hbol & Hne & Hty & Hsc & Hws & Hc).
    destruct (line_span (c :: rev ws ++ rev (txt "!:") ++ rev sc ++ rev ty ++ rev pre) post)
      as (t & rs & -> & Ht & He).
    exists pre, (ty ++ sc ++ txt "!:" ++ ws ++ c :: t ++ rs),
      (rev t ++ c :: rev ws ++ rev (txt "!:") ++ rev sc ++ rev ty ++ rev pre), rs.
    split; [reflexivity|].
    unfold ConventionalCommitParser.BREAKING_HEADER. cbn [matches].
    exists (rev pre), (ty ++ sc ++ txt "!:" ++ ws ++ c :: t ++ rs). split.
    { split; [apply at_bol_multiline; exact Hbol|auto]. }
    exists (rev ty ++ rev pre), (sc ++ txt "!:" ++ ws ++ c :: t ++ rs). split.
    { exists ty. rewrite (forallb_ext_eq _ _ _ cmem_word).
      repeat split; auto. destruct ty; [congruence|cbn; lia]. }
    exists (rev sc ++ rev ty ++ rev pre), (txt "!:" ++ ws ++ c :: t ++ rs). split.
    { destruct Hsc as [->|(inner & -> & Hin & Hnr)]; [right; auto|]. left.
      exists ("("%char :: rev ty ++ rev pre), (inner ++ [")"%char] ++ txt "!:" ++ ws ++ c :: t ++ rs).
      split.
      { exists ["("%char]. cbn. rewrite <- !app_assoc. auto. }
      exists (rev inner ++ "("%char :: rev ty ++ rev pre),
        ([")"%char] ++ txt "!:" ++ ws ++ c :: t ++ rs).
      split.
      { exists inner. rewrite (forallb_ext_eq _ _ _ cmem_not_rparen).
        repeat split; auto.
        - apply forallb_neq_not_in. exact Hnr.
        - destruct inner; [congruence|cbn; lia]. }
      exists [")"%char]. cbn [rev app]. rewrite rev_app_distr. cbn [rev app].
      rewrite <- !app_assoc. cbn. auto. }
    exists (rev (txt "!:") ++ rev sc ++ rev ty ++ rev pre), (ws ++ c :: t ++ rs). split.
    { exists (txt "!:"). cbn. auto. }
    exists (rev ws ++ rev (txt "!:") ++ rev sc ++ rev ty ++ rev pre), (c :: t ++ rs). split.
    { exists ws. rewrite (forallb_ext_eq _ _ _ cmem_space).
      repeat split; auto. lia. }
    exists (rev t ++ c :: rev ws ++ rev (txt "!:") ++ rev sc ++ rev ty ++ rev pre), rs.
    split.
    { exists (c :: t). cbn [forallb app rev length]. rewrite cmem_dot.
      apply Ascii.eqb_neq in Hc. rewrite Hc.
      rewrite (forallb_ext_eq _ _ _ (cmem_dot MULTILINE)). rewrite Ht.
      rewrite <- app_assoc. repeat split; auto. lia. }
    split; [|auto]. unfold at_eol, pos in *. cbn [rest] in *. exact He.
Qed.

(** ** Breaking changes *)

Lemma is_breaking_spec header body :
  ConventionalCommitParser._is_breaking header body = true
  <-> has_char "!" (hd [] (split_on ":" header)) = true
      \/ has_footer_marker body
      \/ has_bang_line body.
Proof.
  unfold ConventionalCommitParser._is_breaking,
    ConventionalCommitParser.BREAKING_PATTERNS.
  cbn [existsb fst snd].
  destruct (has_char "!" (hd [] (split_on ":" header))).
  - split; [left; reflexivity|reflexivity].
  - rewrite orb_false_r, orb_true_iff, footer_search_spec, bang_line_search_spec.
    split; [intros H; right; exact H|intros [H|H]; [discriminate|exact H]].
Qed.

Lemma parse_fields cfg msg sha commit :
  ConventionalCommitParser.parse cfg msg sha = Some commit ->
  ParsedCommit.breaking commit
  = ConventionalCommitParser._is_breaking (header_of msg) (ParsedCommit.body commit)
  /\ ParsedCommit.bump commit
     = ConventionalCommitParser._determine_bump cfg (ParsedCommit.type commit)
         (ParsedCommit.breaking commit)
  /\ ParsedCommit.body commit = strip (join [LF] (tl (split_on LF (strip msg))))
  /\ is_some (re_match MULTILINE ConventionalCommitParser.COMMIT_PATTERN (header_of msg))
     = true.
Proof.
  unfold ConventionalCommitParser.parse, header_of.
  destruct (split_on LF (strip msg)) as [|line0 lines1]; [discriminate|].
  cbn [hd tl].
  destruct (re_match MULTILINE ConventionalCommitParser.COMMIT_PATTERN (strip line0));
    [|discriminate].
  intros E; injection E as <-. cbn. auto.
Qed.

(** C3, as amended. For a message whose header matches the grammar, [parse]
    sets [breaking] exactly when an exclamation mark stands before the first
    colon of the header, or the body holds anywhere, in any case,
    [BREAKING CHANGE:] or [BREAKING-CHANGE:] followed after optional white
    space by a character other than a newline, or a line of the body starts
    with [type!:] or [type(scope)!:] followed by such a character. *)
Theorem breaking_detection (cfg : Config.t) (msg sha : text) (commit : ParsedCommit.t) :
  ConventionalCommitParser.parse cfg msg sha = Some commit ->
  ParsedCommit.breaking commit = true
  <-> has_char "!" (hd [] (split_on ":" (header_of msg))) = true
      \/ has_footer_marker (ParsedCommit.body commit)
      \/ has_bang_line (ParsedCommit.body commit).
Proof.
  intros H. apply parse_fields in H as (-> & _). apply is_breaking_spec.
Qed.

Lemma breaking_detection_witness :
  exists commit,
    ConventionalCommitParser.parse Config.DEFAULT_CONFIG midline_marker_message []
    = Some commit
    /\ (ParsedCommit.breaking commit = true
        <-> has_char "!" (hd [] (split_on ":" (header_of midline_marker_message))) = true
            \/ has_footer_marker (ParsedCommit.body commit)
            \/ has_bang_line (ParsedCommit.body commit)).
Proof.
  eexists. split.
  - vm_compute. reflexivity.
  - apply (breaking_detection Config.DEFAULT_CONFIG midline_marker_message []).
    vm_compute. reflexivity.
Defined.

(** A header with the breaking marker after the type, such as
    [feat!: drop old api], does not match the parser's pattern, which has no
    place for the marker: [parse] returns nothing for it.  Before the first
    colon of a header that parses, an exclamation mark can only stand inside
    the scope. *)
Lemma bang_header_not_parsed :
  ConventionalCommitParser.parse Config.DEFAULT_CONFIG (txt "feat!: drop old api") []
  = None
  /\ ConventionalCommitParser.parse Config.DEFAULT_CONFIG
       (txt "feat(api)!: drop old api") [] = None
  /\ option_map ParsedCommit.breaking
       (ConventionalCommitParser.parse Config.DEFAULT_CONFIG
          (txt "feat(api!): drop old api") []) = Some true.
Proof. repeat split; vm_compute; reflexivity. Qed.

(** C3, as stated, fails in both directions: a marker in the middle of a
    body line and a body line [feat!: y] make the commit breaking although no
    body line starts with the marker, and a body line that is the bare marker
    [BREAKING CHANGE:] does not. *)
Lemma breaking_detection_differs :
  (exists commit,
     ConventionalCommitParser.parse Config.DEFAULT_CONFIG midline_marker_message []
     = Some commit
     /\ ParsedCommit.breaking commit = true
     /\ spec_breaking (header_of midline_marker_message) (ParsedCommit.body commit)
        = false)
  /\ (exists commit,
        ConventionalCommitParser.parse Config.DEFAULT_CONFIG bang_in_body_message []
        = Some commit
        /\ ParsedCommit.breaking commit = true
        /\ spec_breaking (header_of bang_in_body_message) (ParsedCommit.body commit)
           = false)
  /\ (exists commit,
        ConventionalCommitParser.parse Config.DEFAULT_CONFIG bare_marker_message []
        = Some commit
        /\ ParsedCommit.breaking commit = false
        /\ spec_breaking (header_of bare_marker_message) (ParsedCommit.body commit)
           = true).
Proof.
  repeat split; eexists; (split; [vm_compute; reflexivity|]);
    split; vm_compute; reflexivity.
Qed.

(** ** Parts of a message are parts of the message *)

Lemma has_char_in c s : has_char c s = true <-> In c s.
Proof.
  unfold has_char. rewrite existsb_exists. split.
  - intros (x & Hin & E). apply Ascii.eqb_eq in E. subst x. exact Hin.
  - intros H. exists c. split; [exact H|apply Ascii.eqb_refl].
Qed.

Lemma drop_while_suffix p s : exists a, s = a ++ drop_while p s.
Proof.
  induction s as [|x s (a & IH)]; cbn.
  - exists []. reflexivity.
  - destruct (p x).
    + exists (x :: a). cbn. f_equal. exact IH.
    + exists []. reflexivity.
Qed.

Lemma strip_infix s : exists a b, s = a ++ strip s ++ b.
Proof.
  unfold strip.
  destruct (drop_while_suffix is_space s) as (a & Ha).
  destruct (drop_while_suffix is_space (rev (drop_while is_space s))) as (b & Hb).
  exists a, (rev b). rewrite <- rev_app_distr, <- Hb, rev_involutive. exact Ha.
Qed.

Lemma split_on_head sep s :
  exists b, s = hd [] (split_on sep s) ++ b
            /\ (b = [] \/ b = sep :: join [sep] (tl (split_on sep s))).
Proof.
  pose proof (join_split_on sep s) as Hj.
  pose proof (split_on_not_nil sep s) as Hn.
  destruct (split_on sep s) as [|l ls]; [congruence|]. cbn [hd tl].
  destruct ls as [|l' ls].
  - exists []. cbn in Hj. rewrite app_nil_r. auto.
  - rewrite join_cons in Hj by discriminate.
    exists (sep :: join [sep] (l' :: ls)). auto.
Qed.

Lemma starts_with_spec n s : starts_with n s = true <-> exists b, s = n ++ b.
Proof.
  revert s; induction n as [|x n IH]; intros s; cbn.
  - split; [intros _; exists s; reflexivity|reflexivity].
  - destruct s as [|y s].
    + split; [discriminate|intros (b & H); discriminate].
    + rewrite andb_true_iff, Ascii.eqb_eq, IH. split.
      * intros (-> & b & ->). exists b. reflexivity.
      * intros (b & H). injection H as -> ->. split; [reflexivity|exists b; reflexivity].
Qed.

Lemma contains_spec n s : contains n s = true <-> exists a b, s = a ++ n ++ b.
Proof.
  induction s as [|x s IH].
  - cbn [contains]. rewrite orb_false_r, starts_with_spec. split.
    + intros (b & H). exists [], b. exact H.
    + intros (a & b & H). destruct a; [|discriminate]. exists b. exact H.
  - cbn [contains]. rewrite orb_true_iff, starts_with_spec, IH. split.
    + intros [(b & H)|(a & b & H)].
      * exists [], b. exact H.
      * exists (x :: a), b. cbn. f_equal. exact H.
    + intros (a & b & H). destruct a as [|y a].
      * left. exists b. exact H.
      * right. injection H as _ H. exists a, b. exact H.
Qed.

Lemma contains_infix n s a b : contains n s = true -> contains n (a ++ s ++ b) = true.
Proof.
  rewrite !contains_spec. intros (a' & b' & ->).
  exists (a ++ a'), (b' ++ b). rewrite <- !app_assoc. reflexivity.
Qed.

Lemma header_infix msg : exists a b, msg = a ++ hd [] (split_on LF (strip msg)) ++ b.
Proof.
  destruct (strip_infix msg) as (a & b & Hm).
  destruct (split_on_head LF (strip msg)) as (c & Hs & _).
  exists a, (c ++ b). rewrite Hm at 1. rewrite Hs at 1.
  rewrite <- !app_assoc. reflexivity.
Qed.

Lemma body_infix msg :
  exists a b, msg = a ++ strip (join [LF] (tl (split_on LF (strip msg)))) ++ b.
Proof.
  destruct (strip_infix msg) as (a & b & Hm).
  destruct (split_on_head LF (strip msg)) as (c & Hs & [->| ->]).
  - destruct (strip_infix (join [LF] (tl (split_on LF (strip msg))))) as (a' & b' & Hb).
    pose proof (split_on_not_nil LF (strip msg)) as Hn.
    pose proof (join_split_on LF (strip msg)) as Hj.
    destruct (split_on LF (strip msg)) as [|l ls]; [congruence|]. cbn [hd tl] in *.
    destruct ls as [|l' ls'].
    + exists msg, []. cbn. rewrite app_nil_r. reflexivity.
    + exfalso. rewrite join_cons in Hj by discriminate. rewrite <- Hj in Hs.
      apply (f_equal (@length ascii)) in Hs. rewrite !length_app in Hs.
      cbn in Hs. lia.
  - destruct (strip_infix (join [LF] (tl (split_on LF (strip msg))))) as (a' & b' & Hb).
    exists (a ++ hd [] (split_on LF (strip msg)) ++ LF :: a'), (b' ++ b).
    rewrite Hm at 1. rewrite Hs at 1. rewrite Hb at 1.
    rewrite <- !app_assoc. cbn. rewrite <- !app_assoc. reflexivity.
Qed.

Lemma footer_marker_contained body :
  has_footer_marker body ->
  contains (txt "breaking change:") (lower body) = true
  \/ contains (txt "breaking-change:") (lower body) = true.
Proof.
  intros (pre & kw & ws & c & post & -> & Hkw & _).
  rewrite !contains_spec.
  destruct Hkw as [Hkw|Hkw]; [left|right];
    exists (lower pre), (lower (ws ++ c :: post));
    rewrite !lower_app, Hkw; reflexivity.
Qed.

Lemma bang_line_has_bang body : has_bang_line body -> In "!"%char body.
Proof.
  intros (pre & ty & sc & ws & c & post & -> & _).
  rewrite !in_app_iff. do 3 right. left. left. reflexivity.
Qed.

(** A message of type [breaking] that holds no exclamation mark at all and,
    in any case, neither [BREAKING CHANGE:] nor [BREAKING-CHANGE:] anywhere,
    is not breaking and has the bump MAJOR. *)
Lemma breaking_type_without_marker_text (msg sha : text) (commit : ParsedCommit.t) :
  ConventionalCommitParser.parse Config.DEFAULT_CONFIG msg sha = Some commit ->
  ParsedCommit.type commit = txt "breaking" ->
  has_char "!" msg = false ->
  contains (txt "breaking change:") (lower msg) = false ->
  contains (txt "breaking-change:") (lower msg) = false ->
  ParsedCommit.breaking commit = false /\ ParsedCommit.bump commit = MAJOR.
Proof.
  intros Hparse Htype Hbang Hf1 Hf2.
  destruct (parse_fields _ _ _ _ Hparse) as (Hbr & Hbump & Hbody & _).
  assert (Hnot : ParsedCommit.breaking commit = false).
  { rewrite Hbr.
    destruct (ConventionalCommitParser._is_breaking (header_of msg)
                (ParsedCommit.body commit)) eqn:E; [exfalso|reflexivity].
    apply is_breaking_spec in E.
    destruct (body_infix msg) as (a & b & Hm). rewrite <- Hbody in Hm.
    destruct E as [E|[E|E]].
    - apply has_char_in in E.
      assert (In "!"%char msg).
      { destruct (split_on_head ":" (header_of msg)) as (c & Hs & _).
        assert (In "!"%char (header_of msg)) as Hh
          by (rewrite Hs; apply in_or_app; left; exact E).
        unfold header_of in Hh. destruct (strip_infix (hd [] (split_on LF (strip msg))))
          as (a1 & b1 & H1).
        destruct (header_infix msg) as (a2 & b2 & H2).
        rewrite H2, H1, !in_app_iff. right. left. right. left. exact Hh. }
      apply has_char_in in H. congruence.
    - apply footer_marker_contained in E.
      rewrite Hm, !lower_app in Hf1, Hf2.
      destruct E as [E|E]; apply (contains_infix _ _ (lower a) (lower b)) in E; congruence.
    - apply bang_line_has_bang in E.
      assert (In "!"%char msg) by (rewrite Hm, !in_app_iff; right; left; exact E).
      apply has_char_in in H. congruence. }
  split; [exact Hnot|]. rewrite Hbump, Hnot, Htype. reflexivity.
Qed.

(** C9, as amended. With the default configuration, a message that parses
    with the header type [breaking] has the bump MAJOR, whether it is marked
    breaking or not; and its [breaking] is false exactly when no exclamation
    mark stands before the first colon of the header, the body holds nowhere,
    in any case, [BREAKING CHANGE:] or [BREAKING-CHANGE:] followed after
    optional white space by a character other than a newline, and no line of
    the body starts with [type!:] or [type(scope)!:] followed by such a
    character.  An exclamation mark elsewhere, as at the end of the subject,
    does not make the commit breaking. *)
Theorem breaking_type_is_major (msg sha : text) (commit : ParsedCommit.t) :
  ConventionalCommitParser.parse Config.DEFAULT_CONFIG msg sha = Some commit ->
  ParsedCommit.type commit = txt "breaking" ->
  ParsedCommit.bump commit = MAJOR
  /\ (ParsedCommit.breaking commit = false
      <-> has_char "!" (hd [] (split_on ":" (header_of msg))) = false
          /\ ~ has_footer_marker (ParsedCommit.body commit)
          /\ ~ has_bang_line (ParsedCommit.body commit)).
Proof.
  intros Hparse Htype.
  destruct (parse_fields _ _ _ _ Hparse) as (Hbr & Hbump & _).
  split.
  - rewrite Hbump, Htype. destruct (ParsedCommit.breaking commit); reflexivity.
  - rewrite Hbr.
    pose proof (is_breaking_spec (header_of msg) (ParsedCommit.body commit)) as Hs.
    destruct (ConventionalCommitParser._is_breaking (header_of msg)
                (ParsedCommit.body commit)).
    + split; [discriminate|]. intros (Hb & Hf & Hl).
      destruct (proj1 Hs eq_refl) as [E|[E|E]];
        [congruence|destruct (Hf E)|destruct (Hl E)].
    + split; [|reflexivity]. intros _.
      destruct (has_char "!" (hd [] (split_on ":" (header_of msg)))) eqn:Eb.
      * assert (false = true) by (apply Hs; left; reflexivity). discriminate.
      * split; [reflexivity|].
        split; intros E; assert (false = true) as Hx by (apply Hs; auto);
          discriminate Hx.
Qed.

Lemma breaking_type_is_major_witness :
  exists commit,
    ConventionalCommitParser.parse Config.DEFAULT_CONFIG breaking_type_bang_message []
    = Some commit
    /\ ParsedCommit.type commit = txt "breaking"
    /\ ParsedCommit.breaking commit = false
    /\ ParsedCommit.bump commit = MAJOR
    /\ (ParsedCommit.breaking commit = false
        <-> has_char "!" (hd [] (split_on ":" (header_of breaking_type_bang_message)))
            = false
            /\ ~ has_footer_marker (ParsedCommit.body commit)
            /\ ~ has_bang_line (ParsedCommit.body commit)).
Proof.
  eexists. split; [vm_compute; reflexivity|].
  split; [vm_compute; reflexivity|].
  split; [vm_compute; reflexivity|].
  apply (breaking_type_is_major breaking_type_bang_message []);
    vm_compute; reflexivity.
Defined.

(** C9, as stated, fails: the message [breaking: x] with the body line
    [see BREAKING CHANGE: y] has the type [breaking], no exclamation mark and
    no body line that starts with the marker, and [parse] sets [breaking]
    for it; the bump is MAJOR all the same. *)
Lemma breaking_type_marked_midline :
  exists commit,
    ConventionalCommitParser.parse Config.DEFAULT_CONFIG breaking_type_midline_message []
    = Some commit
    /\ ParsedCommit.type commit = txt "breaking"
    /\ has_char "!" breaking_type_midline_message = false
    /\ spec_breaking (header_of breaking_type_midline_message) (ParsedCommit.body commit)
       = false
    /\ ParsedCommit.breaking commit = true
    /\ ParsedCommit.bump commit = MAJOR.
Proof.
  eexists. split; [vm_compute; reflexivity|].
  repeat split; vm_compute; reflexivity.
Qed.

(** ** The first match of a pattern *)

Lemma first_seq fl r1 r2 st st1 st2 :
  first_is fl r1 st st1 -> first_is fl r2 st1 st2 -> first_is fl (r1 >> r2) st st2.
Proof.
  intros (o1 & H1) (o2 & H2). unfold first_is. cbn [run]. rewrite H1.
  cbn [flat_map]. rewrite H2. eexists. reflexivity.
Qed.

Lemma first_opt_take fl r st st1 : first_is fl r st st1 -> first_is fl (Opt r) st st1.
Proof. intros (o & H). unfold first_is. cbn [run]. rewrite H. eexists. reflexivity. Qed.

Lemma first_opt_skip fl r st : run fl r st = [] -> first_is fl (Opt r) st st.
Proof. intros H. unfold first_is. cbn [run]. rewrite H. eexists. reflexivity. Qed.

Lemma rep_greedy p gs rs' m : forall min sn,
  forallb p m = true -> (min <= length m)%nat -> stops p rs' ->
  exists others,
    rep p min sn (m ++ rs') gs
    = {| seen := rev m ++ sn; rest := rs'; groups := gs |} :: others.
Proof.
  induction m as [|x m IH]; intros min sn Hall Hmin Hstop.
  - cbn in Hmin. assert (min = O) as -> by lia. cbn [app rev].
    destruct rs' as [|y t]; cbn [rep].
    + eexists. reflexivity.
    + cbn in Hstop. rewrite Hstop. eexists. reflexivity.
  - cbn [forallb] in Hall. apply andb_true_iff in Hall as [Hx Hall].
    cbn [app rep]. rewrite Hx.
    destruct (IH (Nat.pred min) (x :: sn) Hall) as (o & ->); [cbn in Hmin; lia|exact Hstop|].
    cbn [rev]. rewrite <- app_assoc. cbn [app]. eexists. reflexivity.
Qed.

Lemma first_group_rep fl name min c sn m rs' gs :
  forallb (cmem fl c) m = true -> (min <= length m)%nat -> stops (cmem fl c) rs' ->
  first_is fl (Group name (Rep min c))
    {| seen := sn; rest := m ++ rs'; groups := gs |}
    {| seen := rev m ++ sn; rest := rs'; groups := (name, m) :: gs |}.
Proof.
  intros Hall Hmin Hstop. unfold first_is. cbn [run seen rest groups].
  destruct (rep_greedy (cmem fl c) gs rs' m min sn Hall Hmin Hstop) as (o & ->).
  cbn [map]. unfold capture at 1. cbn [seen rest groups].
  rewrite length_app, Nat.add_sub, firstn_app, Nat.sub_diag, firstn_all, firstn_O,
    app_nil_r.
  eexists. reflexivity.
Qed.

Lemma cmem_digit x : cmem no_flags d_ x = is_digit x.
Proof. unfold cmem, d_, item_mem. cbn. apply orb_false_r. Qed.

(** ** Decimal numerals *)

Lemma digits_of_uint_digits d : forallb is_digit (digits_of_uint d) = true.
Proof. induction d; cbn [digits_of_uint forallb]; try rewrite IHd; reflexivity. Qed.

Lemma uint_of_digits_inv d : uint_of_digits true (digits_of_uint d) = Some d.
Proof.
  induction d; cbn [digits_of_uint uint_of_digits]; [reflexivity|..];
    cbn [Ascii.eqb Bool.eqb andb]; rewrite IHd; reflexivity.
Qed.

Lemma nat_literal_digits d :
  d <> Nil -> nat_literal (digits_of_uint d) = Some (Z.of_N (N.of_uint d)).
Proof.
  intros Hd. unfold nat_literal.
  destruct d; [congruence|..]; cbn [digits_of_uint uint_of_digits];
    cbn [Ascii.eqb Bool.eqb andb]; rewrite uint_of_digits_inv; reflexivity.
Qed.

Lemma drop_while_stops p s : stops p s -> drop_while p s = s.
Proof. destruct s as [|x s]; cbn; [reflexivity|]. intros ->. reflexivity. Qed.

Lemma strip_no_space s :
  forallb (fun c => negb (is_space c)) s = true -> strip s = s.
Proof.
  intros H. unfold strip.
  assert (Hs : forall l, forallb (fun c => negb (is_space c)) l = true -> stops is_space l).
  { intros [|x l]; cbn; [auto|]. rewrite andb_true_iff, negb_true_iff. tauto. }
  rewrite (drop_while_stops _ s) by (apply Hs; exact H).
  rewrite drop_while_stops; [apply rev_involutive|].
  apply Hs. rewrite forallb_forall in *. intros x Hx. apply H. apply in_rev. exact Hx.
Qed.

Lemma digit_facts x :
  is_digit x = true ->
  is_space x = false /\ x <> "-"%char /\ x <> "+"%char /\ x <> "v"%char.
Proof.
  revert x.
  assert (H : all_ascii (fun x =>
             implb (is_digit x)
                   (negb (is_space x) && negb (Ascii.eqb x "-")
                    && negb (Ascii.eqb x "+") && negb (Ascii.eqb x "v"))) = true)
    by (vm_compute; reflexivity).
  intros x Hx. pose proof (all_ascii_spec _ H x) as Hi. cbv beta in Hi.
  rewrite Hx in Hi. cbn [implb] in Hi.
  rewrite !andb_true_iff, !negb_true_iff, !Ascii.eqb_neq in Hi. tauto.
Qed.

Lemma py_int_digits d :
  d <> Nil -> py_int (digits_of_uint d) = Some (Z.of_N (N.of_uint d)).
Proof.
  intros Hd. unfold py_int.
  rewrite strip_no_space.
  - pose proof (digits_of_uint_digits d) as Hall.
    pose proof (nat_literal_digits d Hd) as Hn.
    destruct (digits_of_uint d) as [|x s]; [exact Hn|].
    cbn [forallb] in Hall. apply andb_true_iff in Hall as [Hx _].
    destruct (digit_facts x Hx) as (_ & Hm & Hp & _).
    destruct x as [[] [] [] [] [] [] [] []]; try exact Hn; congruence.
  - pose proof (digits_of_uint_digits d) as Hall. rewrite forallb_forall in *.
    intros x Hx. apply negb_true_iff. apply digit_facts. apply Hall. exact Hx.
Qed.

Lemma to_uint_not_nil n : N.to_uint n <> Nil.
Proof.
  intros H. pose proof (DecimalN.Unsigned.of_to n) as E. rewrite H in E.
  cbn in E. subst n. discriminate H.
Qed.

Lemma str_int_nonneg z : 0 <= z -> str_int z = digits_of_uint (N.to_uint (Z.to_N z)).
Proof. destruct z; [reflexivity|reflexivity|lia]. Qed.

(** [int(str(z)) = z] for the numbers of a version *)
Lemma py_int_str_int z : 0 <= z -> py_int (str_int z) = Some z.
Proof.
  intros Hz. rewrite str_int_nonneg by exact Hz.
  rewrite py_int_digits by apply to_uint_not_nil.
  rewrite DecimalN.Unsigned.of_to, Z2N.id by exact Hz. reflexivity.
Qed.

(** ** Version.parse on a well-formed version string *)

Lemma version_str_parts v :
  Version.str v
  = str_int (Version.major v) ++ "."%char :: str_int (Version.minor v)
    ++ "."%char :: str_int (Version.patch v)
    ++ tail_part "-" (Version.prerelease v) ++ tail_part "+" (Version.build v).
Proof.
  unfold Version.str, tail_part.
  destruct (Version.prerelease v) as [[|c p]|], (Version.build v) as [[|c' b]|];
    cbn [txt list_ascii_of_string app]; rewrite <- ?app_assoc; cbn [app];
    rewrite <- ?app_assoc; cbn [app]; rewrite ?app_nil_r; reflexivity.
Qed.

Lemma first_char fl a sn rs gs :
  ignorecase fl = false ->
  first_is fl (Str [a]) {| seen := sn; rest := a :: rs; groups := gs |}
                        {| seen := a :: sn; rest := rs; groups := gs |}.
Proof.
  intros Hfl. unfold first_is. cbn [run eat seen rest groups].
  rewrite item_mem_lit_case by exact Hfl. rewrite Ascii.eqb_refl.
  eexists. reflexivity.
Qed.

Lemma version_tail_first sn gs pre build :
  wf_ident pre -> wf_ident build ->
  exists sn',
    first_is no_flags
      (Opt (Str (txt "-") >> Group "prerelease" (Rep 1 Version.ident_chars))
       >> Opt (Str (txt "+") >> Group "build" (Rep 1 Version.ident_chars))
       >> Eol)
      {| seen := sn; rest := tail_part "-" pre ++ tail_part "+" build; groups := gs |}
      {| seen := sn'; rest := [];
         groups := opt_entry "build" build ++ opt_entry "prerelease" pre ++ gs |}.
Proof.
  intros Hpre Hbuild.
  assert (Hb : forall sn1 gs1,
             exists sn',
               first_is no_flags
                 (Opt (Str (txt "+") >> Group "build" (Rep 1 Version.ident_chars)) >> Eol)
                 {| seen := sn1; rest := tail_part "+" build; groups := gs1 |}
                 {| seen := sn'; rest := []; groups := opt_entry "build" build ++ gs1 |}).
  { intros sn1 gs1. destruct build as [[|c b]|]; cbn [wf_ident] in Hbuild.
    - destruct Hbuild as [Hne _]. congruence.
    - destruct Hbuild as [_ Hall]. eexists. cbn [tail_part opt_entry app].
      eapply first_seq.
      + apply first_opt_take. eapply first_seq.
        * apply (first_char no_flags "+"). reflexivity.
        * rewrite <- (app_nil_r (c :: b)) at 1.
          apply first_group_rep; [exact Hall|cbn; lia|exact I].
      + unfold first_is. cbn. eexists. reflexivity.
    - eexists. cbn [tail_part opt_entry app]. eapply first_seq.
      + apply first_opt_skip. reflexivity.
      + unfold first_is. cbn. eexists. reflexivity. }
  destruct pre as [[|c p]|]; cbn [wf_ident] in Hpre.
  - destruct Hpre as [Hne _]. congruence.
  - destruct Hpre as [_ Hall].
    destruct (Hb (rev (c :: p) ++ "-"%char :: sn) (("prerelease"%string, c :: p) :: gs))
      as (sn' & Hfirst).
    exists sn'. cbn [tail_part opt_entry app]. eapply first_seq; [|exact Hfirst].
    apply first_opt_take. eapply first_seq.
    + apply (first_char no_flags "-"). reflexivity.
    + change (c :: p ++ tail_part "+" build) with ((c :: p) ++ tail_part "+" build).
      apply first_group_rep; [exact Hall|cbn; lia|].
      destruct build as [[|c' b]|]; cbn; auto.
  - destruct (Hb sn gs) as (sn' & Hfirst).
    exists sn'. cbn [tail_part opt_entry app]. eapply first_seq; [|exact Hfirst].
    apply first_opt_skip.
    destruct build as [[|c' b]|]; reflexivity.
Qed.

(** On three runs of digits separated by dots and followed by well-formed
    optional parts, the pattern of [Version.parse] matches and captures the
    five parts. *)
Lemma version_pattern_match da db dc pre build :
  da <> [] -> db <> [] -> dc <> [] ->
  forallb is_digit da = true -> forallb is_digit db = true ->
  forallb is_digit dc = true ->
  wf_ident pre -> wf_ident build ->
  exists m,
    re_match no_flags Version.pattern
      (da ++ "."%char :: db ++ "."%char :: dc
       ++ tail_part "-" pre ++ tail_part "+" build) = Some m
    /\ groups m = opt_entry "build" build ++ opt_entry "prerelease" pre
                  ++ [("patch"%string, dc); ("minor"%string, db); ("major"%string, da)].
Proof.
  intros Ha Hb Hc Hda Hdb Hdc Hpre Hbuild.
  assert (Hlen : forall l : text, l <> [] -> (1 <= length l)%nat)
    by (intros [|x l] H; [congruence|cbn; lia]).
  rewrite <- (forallb_ext_eq _ _ da cmem_digit) in Hda.
  rewrite <- (forallb_ext_eq _ _ db cmem_digit) in Hdb.
  rewrite <- (forallb_ext_eq _ _ dc cmem_digit) in Hdc.
  destruct (version_tail_first
              (rev dc ++ "."%char :: rev db ++ "."%char :: rev da ++ [])
              [("patch"%string, dc); ("minor"%string, db); ("major"%string, da)]
              pre build Hpre Hbuild) as (sn' & Htail).
  assert (Hfirst : first_is no_flags Version.pattern
            (start (da ++ "."%char :: db ++ "."%char :: dc
                    ++ tail_part "-" pre ++ tail_part "+" build))
            {| seen := sn'; rest := [];
               groups := opt_entry "build" build ++ opt_entry "prerelease" pre
                         ++ [("patch"%string, dc); ("minor"%string, db);
                             ("major"%string, da)] |}).
  { unfold Version.pattern, start.
    eapply first_seq; [unfold first_is; cbn; eexists; reflexivity|].
    eapply first_seq; [apply first_group_rep; [exact Hda|auto|reflexivity]|].
    eapply first_seq; [apply (first_char no_flags "."); reflexivity|].
    eapply first_seq; [apply first_group_rep; [exact Hdb|auto|reflexivity]|].
    eapply first_seq; [apply (first_char no_flags "."); reflexivity|].
    eapply first_seq; [|exact Htail].
    apply first_group_rep; [exact Hdc|auto|].
    destruct pre as [[|c p]|], build as [[|c' b]|]; cbn; auto. }
  destruct Hfirst as (others & Hrun).
  eexists. unfold re_match. rewrite Hrun. cbn [hd_error]. split; reflexivity.
Qed.

Lemma str_int_shape z :
  0 <= z ->
  str_int z <> [] /\ forallb is_digit (str_int z) = true.
Proof.
  intros Hz. rewrite str_int_nonneg by exact Hz. split.
  - pose proof (to_uint_not_nil (Z.to_N z)) as Hn.
    destruct (N.to_uint (Z.to_N z)); [congruence|..]; discriminate.
  - apply digits_of_uint_digits.
Qed.

Lemma lstrip_v_digit s t :
  s <> [] -> forallb is_digit s = true -> lstrip_char "v" (s ++ t) = s ++ t.
Proof.
  intros Hne Hd. destruct s as [|x s]; [congruence|].
  cbn [forallb] in Hd. apply andb_true_iff in Hd as [Hx _].
  destruct (digit_facts x Hx) as (_ & _ & _ & Hv).
  unfold lstrip_char. cbn [app drop_while].
  destruct (Ascii.eqb_spec "v"%char x); [congruence|reflexivity].
Qed.

Lemma parse_str v : canonical v -> Version.parse (Version.str v) = Ok v.
Proof.
  intros (Ha & Hb & Hc & Hpre & Hbuild).
  destruct (str_int_shape _ Ha) as [Hna Hda].
  destruct (str_int_shape _ Hb) as [Hnb Hdb].
  destruct (str_int_shape _ Hc) as [Hnc Hdc].
  rewrite version_str_parts. unfold Version.parse.
  rewrite lstrip_v_digit by assumption.
  destruct (version_pattern_match _ _ _ _ _ Hna Hnb Hnc Hda Hdb Hdc Hpre Hbuild)
    as (m & -> & Hg).
  unfold Version.group_int.
  assert (Hgroups :
    group "major" (groups m) = Some (str_int (Version.major v))
    /\ group "minor" (groups m) = Some (str_int (Version.minor v))
    /\ group "patch" (groups m) = Some (str_int (Version.patch v))
    /\ group "prerelease" (groups m) = Version.prerelease v
    /\ group "build" (groups m) = Version.build v).
  { rewrite Hg.
    destruct (Version.prerelease v), (Version.build v); repeat split; reflexivity. }
  destruct Hgroups as (-> & -> & -> & -> & ->).
  rewrite !py_int_str_int by assumption.
  destruct v; reflexivity.
Qed.

(** C4, as amended. For a version string written as [Version.__str__]
    writes it (three decimal numbers without superfluous zeros, then the
    optional prerelease and build parts), with or without one leading [v],
    [parse] returns the version with exactly these parts, and formatting it
    gives the string back without the [v]. *)
Theorem parse_format_roundtrip (v : Version.t) (V : text) :
  canonical v ->
  V = Version.str v \/ V = "v"%char :: Version.str v ->
  Version.parse V = Ok v /\ Version.str v = normalize V.
Proof.
  intros Hv HV.
  assert (Hnv : normalize (Version.str v) = Version.str v).
  { destruct Hv as (Ha & _). destruct (str_int_shape _ Ha) as [Hn Hd].
    rewrite version_str_parts.
    destruct (str_int (Version.major v)) as [|x s]; [congruence|].
    cbn [forallb] in Hd. apply andb_true_iff in Hd as [Hx _].
    destruct (digit_facts x Hx) as (_ & _ & _ & Hne).
    cbn [app normalize].
    destruct x as [[] [] [] [] [] [] [] []]; try reflexivity; congruence. }
  destruct HV as [-> | ->].
  - split; [apply parse_str; exact Hv|symmetry; exact Hnv].
  - split; [|reflexivity].
    change ("v"%char :: Version.str v) with (repeat "v"%char 1 ++ Version.str v).
    rewrite parse_ignores_leading_vs. apply parse_str. exact Hv.
Qed.

Lemma parse_format_roundtrip_witness :
  let v := {| Version.major := 1; Version.minor := 2; Version.patch := 3;
              Version.prerelease := Some (txt "dev.4");
              Version.build := Some (txt "build.12") |} in
  Version.parse (txt "v1.2.3-dev.4+build.12") = Ok v
  /\ Version.str v = normalize (txt "v1.2.3-dev.4+build.12").
Proof.
  apply (parse_format_roundtrip
           {| Version.major := 1; Version.minor := 2; Version.patch := 3;
              Version.prerelease := Some (txt "dev.4");
              Version.build := Some (txt "build.12") |}
           (txt "v1.2.3-dev.4+build.12")).
  - unfold canonical, wf_ident. cbn [Version.major Version.minor Version.patch
      Version.prerelease Version.build].
    repeat split; try lia; try discriminate; vm_compute; reflexivity.
  - right. vm_compute. reflexivity.
Defined.

(** C4, as stated, fails: [01.2.3] matches the pattern, and parsing then
    formatting it gives [1.2.3]. *)
Lemma leading_zero_not_restored :
  is_some (re_match no_flags Version.pattern (normalize (txt "01.2.3"))) = true
  /\ exists w, Version.parse (txt "01.2.3") = Ok w
               /\ Version.str w = txt "1.2.3"
               /\ Version.str w <> normalize (txt "01.2.3").
Proof.
  split; [vm_compute; reflexivity|].
  eexists. split; [vm_compute; reflexivity|].
  split; [vm_compute; reflexivity|]. vm_compute. discriminate.
Qed.

(** ** Tags of the form [{base}-{id}.{n}] *)

Lemma split_on_no_sep sep s : ~ In sep s -> split_on sep s = [s].
Proof.
  induction s as [|x s IH]; intros Hn; cbn; [reflexivity|].
  destruct (Ascii.eqb x sep) eqn:E.
  - apply Ascii.eqb_eq in E. subst x. exfalso. apply Hn. left; reflexivity.
  - rewrite IH; [reflexivity|]. intros H. apply Hn. right; exact H.
Qed.

Lemma digit_is_ident x :
  is_digit x = true -> cmem no_flags Version.ident_chars x = true /\ x <> "."%char.
Proof.
  revert x.
  assert (H : all_ascii (fun x =>
             implb (is_digit x)
                   (cmem no_flags Version.ident_chars x && negb (Ascii.eqb x "."))) = true)
    by (vm_compute; reflexivity).
  intros x Hx. pose proof (all_ascii_spec _ H x) as Hi. cbv beta in Hi.
  rewrite Hx in Hi. cbn [implb] in Hi.
  rewrite andb_true_iff, negb_true_iff, Ascii.eqb_neq in Hi. exact Hi.
Qed.

Lemma str_int_no_dot n : 0 <= n -> ~ In "."%char (str_int n).
Proof.
  intros Hn Hin. destruct (str_int_shape n Hn) as [_ Hd].
  rewrite forallb_forall in Hd. apply Hd in Hin.
  apply digit_is_ident in Hin as [_ Hne]. congruence.
Qed.

Lemma with_prerelease_str a b c id n :
  id <> [] ->
  Version.str (Version.with_prerelease (Version.make a b c) id n)
  = Version.str (Version.make a b c) ++ txt "-" ++ id ++ txt "." ++ str_int n.
Proof.
  intros Hid. rewrite !version_str_parts.
  cbn [Version.with_prerelease Version.make Version.major Version.minor Version.patch
       Version.prerelease Version.build tail_part].
  destruct id as [|x id]; [congruence|].
  cbn [app txt list_ascii_of_string]. rewrite !app_nil_r, <- !app_assoc.
  cbn [app]. rewrite <- !app_assoc. reflexivity.
Qed.

(** For a simple identifier, a listed tag [{base}-{id}.{n}] carries [n]. *)
Lemma plain_tag_carries_counter wildmatch git a b c id n :
  0 <= a -> 0 <= b -> 0 <= c -> 0 <= n -> simple_id id ->
  In (Version.str (Version.make a b c) ++ txt "-" ++ id ++ txt "." ++ str_int n)
     (GitHelper.get_tags_matching wildmatch git
        (Version.str (Version.make a b c) ++ txt "-" ++ id ++ txt ".*")) ->
  carries_counter wildmatch git (Version.make a b c) id
    (Version.str (Version.make a b c) ++ txt "-" ++ id ++ txt "." ++ str_int n) n.
Proof.
  intros Ha Hb Hc Hn (Hid & Hchars & Hdot) Hin. split; [exact Hin|].
  exists (Version.with_prerelease (Version.make a b c) id n),
    (id ++ txt "." ++ str_int n), (str_int n), [].
  split; [|split; [reflexivity|split]].
  - rewrite <- with_prerelease_str by exact Hid. apply parse_str.
    unfold canonical.
    cbn [Version.with_prerelease Version.make Version.major Version.minor
         Version.patch Version.prerelease Version.build wf_ident].
    repeat split; try assumption.
    + destruct id; [congruence|discriminate].
    + rewrite forallb_app, Hchars. cbn [txt list_ascii_of_string app forallb andb].
      destruct (str_int_shape n Hn) as [_ Hd].
      apply andb_true_iff. split; [reflexivity|].
      rewrite forallb_forall in *. intros x Hx. apply digit_is_ident. apply Hd. exact Hx.
  - cbn [txt list_ascii_of_string app].
    rewrite split_on_app_sep by exact Hdot.
    rewrite split_on_no_sep by (apply str_int_no_dot; exact Hn). reflexivity.
  - apply py_int_str_int. exact Hn.
Qed.

(** C1, as amended. On a prerelease branch whose identifier [id] is one
    dot-free segment over [[0-9A-Za-z-]] and for a bump other than NONE,
    [calculate_next_version] returns [next_base.with_prerelease(id, counter)],
    where [next_base] is the bump of the greatest stable version of the
    ledger (0.0.0 when there is none) and [counter] is one plus the greatest
    integer found in the second dot-segment of the prerelease part among the
    tags that the glob [{next_base}-{id}.*] selects, that parse as versions
    and whose first dot-segment is [id], or 1 when there is no such tag.
    Every listed tag [{next_base}-{id}.{n}] is among these tags, with counter
    [n].  With identifier [dev], tags 1.2.0, 1.2.1-dev.1, 1.2.1-dev.2 and a
    PATCH bump the result is 1.2.1-dev.3. *)
Theorem prerelease_version_calculated :
  (forall (fnmatch wildmatch : text -> text -> bool) (cfg : Config.t)
          (git : GitHelper.t) (commits : list ParsedCommit.t)
          (current : option Version.t) (branch : text)
          (branch_config : BranchConfig.t) (id : text) (max_bump : BumpType),
      Config.get_branch_config fnmatch cfg branch = Some branch_config ->
      BranchConfig.prerelease branch_config = Some id ->
      simple_id id ->
      max_bump <> NONE ->
      exists stable counter,
        latest_stable wildmatch git stable
        /\ next_counter wildmatch git (Version.bump stable max_bump) id counter
        /\ VersionCalculator.calculate_next_version fnmatch wildmatch cfg git
             commits current branch max_bump
           = (Some (Version.with_prerelease (Version.bump stable max_bump) id counter),
              []))
  /\ (forall (wildmatch : text -> text -> bool) (git : GitHelper.t)
             (a b c n : Z) (id : text),
         0 <= a -> 0 <= b -> 0 <= c -> 0 <= n -> simple_id id ->
         In (Version.str (Version.make a b c) ++ txt "-" ++ id ++ txt "." ++ str_int n)
            (GitHelper.get_tags_matching wildmatch git
               (Version.str (Version.make a b c) ++ txt "-" ++ id ++ txt ".*")) ->
         carries_counter wildmatch git (Version.make a b c) id
           (Version.str (Version.make a b c) ++ txt "-" ++ id ++ txt "." ++ str_int n) n)
  /\ exists v,
       VersionCalculator.calculate_next_version fnmatch_glob glob
         Config.DEFAULT_CONFIG dev_git [] (Some (Version.make 1 2 0)) (txt "dev") PATCH
       = (Some v, [])
       /\ Version.str v = txt "1.2.1-dev.3".
Proof.
  split.
  - intros fnmatch wildmatch cfg git commits current branch bc id max_bump
           Hbc Hid (Hne & _) Hbump.
    exists (get (VersionCalculator._get_latest_stable_version wildmatch git)
                (Version.make 0 0 0)).
    eexists. split; [apply latest_stable_computed|].
    split; [apply next_counter_computed with (branch := [])|].
    unfold VersionCalculator.calculate_next_version. rewrite Hbc, Hid.
    destruct max_bump; try congruence; destruct id; try congruence; reflexivity.
  - split; [intros; apply plain_tag_carries_counter; assumption|].
    eexists. split; vm_compute; reflexivity.
Qed.

Lemma prerelease_version_calculated_witness :
  simple_id (txt "dev")
  /\ exists stable counter,
       latest_stable glob dev_git stable
       /\ next_counter glob dev_git (Version.bump stable PATCH) (txt "dev") counter
       /\ VersionCalculator.calculate_next_version fnmatch_glob glob
            Config.DEFAULT_CONFIG dev_git [] None (txt "dev") PATCH
          = (Some (Version.with_prerelease (Version.bump stable PATCH) (txt "dev") counter),
             []).
Proof.
  assert (Hid : simple_id (txt "dev")).
  { split; [discriminate|]. split; [reflexivity|].
    cbn. intros [H|[H|[H|[]]]]; discriminate H. }
  split; [exact Hid|].
  apply (proj1 prerelease_version_calculated fnmatch_glob glob Config.DEFAULT_CONFIG
           dev_git [] None (txt "dev")
           {| BranchConfig.name := txt "dev"; BranchConfig.type := txt "prerelease";
              BranchConfig.prerelease := Some (txt "dev") |}
           (txt "dev") PATCH).
  - reflexivity.
  - reflexivity.
  - exact Hid.
  - discriminate.
Defined.

(** C1, as stated, fails.  With the identifier [pre.rel] the ledger holds
    the tag 1.2.1-pre.rel.1, which has the form [{next_base}-{id}.{n}], and
    the calculator still returns the counter 1, not 2.  With the identifier
    [dev] and the tag 1.2.1-dev.7+build5, which does not have that form, the
    calculator returns the counter 8, not 1. *)
Lemma prerelease_counter_differs :
  let next_base := Version.make 1 2 1 in
  (let result :=
     fst (VersionCalculator.calculate_next_version fnmatch_glob glob dotted_config
            dotted_git [] None (txt "next") PATCH) in
   In (Version.str next_base ++ txt "-" ++ txt "pre.rel" ++ txt "." ++ str_int 1)
      (GitHelper.tags dotted_git)
   /\ spec_counter (GitHelper.tags dotted_git) next_base (txt "pre.rel") = 2
   /\ result = Some (Version.with_prerelease next_base (txt "pre.rel") 1)
   /\ result <> Some (Version.with_prerelease next_base (txt "pre.rel")
                        (spec_counter (GitHelper.tags dotted_git) next_base
                           (txt "pre.rel"))))
  /\ (let result :=
        fst (VersionCalculator.calculate_next_version fnmatch_glob glob
               Config.DEFAULT_CONFIG build_git [] None (txt "dev") PATCH) in
      spec_counter (GitHelper.tags build_git) next_base (txt "dev") = 1
      /\ result = Some (Version.with_prerelease next_base (txt "dev") 8)
      /\ result <> Some (Version.with_prerelease next_base (txt "dev")
                           (spec_counter (GitHelper.tags build_git) next_base
                              (txt "dev")))).
Proof.
  cbv zeta. split.
  - split; [right; left; vm_compute; reflexivity|].
    split; [vm_compute; reflexivity|].
    split; [vm_compute; reflexivity|].
    vm_compute. discriminate.
  - split; [vm_compute; reflexivity|].
    split; [vm_compute; reflexivity|].
    vm_compute. discriminate.
Qed.

(** ** When Version.parse fails *)

Lemma digit_pushes x d :
  is_digit x = true ->
  exists d', push_digit x d = Some d' /\ digits_of_uint d' = x :: digits_of_uint d.
Proof.
  intros H.
  destruct x as [[] [] [] [] [] [] [] []]; vm_compute in H; try discriminate;
    eexists; split; reflexivity.
Qed.

Lemma digits_as_uint s :
  s <> [] -> forallb is_digit s = true ->
  exists d, d <> Nil /\ s = digits_of_uint d.
Proof.
  induction s as [|x s IH]; intros Hne Hd; [congruence|].
  cbn [forallb] in Hd. apply andb_true_iff in Hd as [Hx Hs].
  destruct s as [|y s].
  - destruct (digit_pushes x Nil Hx) as (d' & Hp & Hd'). exists d'.
    split; [|symmetry; exact Hd'].
    intros ->. discriminate Hd'.
  - destruct (IH ltac:(discriminate) Hs) as (d & _ & Hd).
    destruct (digit_pushes x d Hx) as (d' & Hp & Hd'). exists d'.
    split; [intros ->; discriminate Hd'|]. rewrite Hd', <- Hd. reflexivity.
Qed.

Lemma py_int_digit_string s :
  s <> [] -> forallb is_digit s = true -> exists z, py_int s = Some z.
Proof.
  intros Hne Hd. destruct (digits_as_uint s Hne Hd) as (d & Hnil & ->).
  eexists. apply py_int_digits. exact Hnil.
Qed.

Lemma in_group_rep fl name min c st st' :
  In st' (run fl (Group name (Rep min c)) st) ->
  exists m, forallb (cmem fl c) m = true /\ (min <= length m)%nat
            /\ groups st' = (name, m) :: groups st.
Proof.
  cbn [run]. intros H. apply in_map_iff in H as (st0 & <- & H).
  apply rep_spec in H as (m & Hrs & _ & Hall & Hmin & Hgs).
  exists m. split; [exact Hall|]. split; [exact Hmin|].
  unfold capture. cbn [groups]. rewrite Hgs, Hrs, length_app, Nat.add_sub,
    firstn_app, Nat.sub_diag, firstn_all, firstn_O, app_nil_r. reflexivity.
Qed.

Lemma in_str_groups fl s st st' : In st' (run fl (Str s) st) -> groups st' = groups st.
Proof.
  cbn [run]. destruct (eat fl s (seen st) (rest st)) as [[sn rs]|]; [|intros []].
  intros [<-|[]]. reflexivity.
Qed.

Lemma in_opt_part fl sep name c st st' :
  In st' (run fl (Opt (Str sep >> Group name (Rep 1 c))) st) ->
  groups st' = groups st \/ exists m, groups st' = (name, m) :: groups st.
Proof.
  cbn [run]. intros H. apply in_app_iff in H as [H|[<-|[]]]; [|left; reflexivity].
  apply in_flat_map in H as (st1 & H1 & H2).
  apply (in_str_groups fl sep) in H1.
  apply (in_group_rep fl name 1 c) in H2 as (m & _ & _ & Hg).
  right. exists m. rewrite Hg, H1. reflexivity.
Qed.

(** Whenever the pattern matches, its three numeric groups are non-empty
    runs of digits. *)
Lemma version_groups_numeric s m :
  re_match no_flags Version.pattern s = Some m ->
  exists da db dc,
    (da <> [] /\ forallb is_digit da = true)
    /\ (db <> [] /\ forallb is_digit db = true)
    /\ (dc <> [] /\ forallb is_digit dc = true)
    /\ group "major" (groups m) = Some da
    /\ group "minor" (groups m) = Some db
    /\ group "patch" (groups m) = Some dc.
Proof.
  unfold re_match. intros H.
  assert (Hin : In m (run no_flags Version.pattern (start s))).
  { destruct (run no_flags Version.pattern (start s)); [discriminate|].
    injection H as ->. left; reflexivity. }
  clear H. unfold Version.pattern in Hin.
  assert (Hnum : forall l : text,
             forallb (cmem no_flags d_) l = true -> (1 <= length l)%nat ->
             l <> [] /\ forallb is_digit l = true).
  { intros l Hl Hlen. rewrite (forallb_ext_eq _ _ l cmem_digit) in Hl.
    split; [destruct l; [cbn in Hlen; lia|discriminate]|exact Hl]. }
  cbn [run] in Hin.
  apply in_flat_map in Hin as (st1 & H1 & Hin).
  assert (groups st1 = []) as G1.
  { destruct (at_bol no_flags (start s)); [|destruct H1].
    destruct H1 as [<-|[]]. reflexivity. }
  apply in_flat_map in Hin as (st2 & H2 & Hin).
  apply (in_group_rep no_flags "major" 1 d_) in H2 as (da & Hda & Hla & G2).
  apply in_flat_map in Hin as (st3 & H3 & Hin).
  apply (in_str_groups no_flags (txt ".")) in H3.
  apply in_flat_map in Hin as (st4 & H4 & Hin).
  apply (in_group_rep no_flags "minor" 1 d_) in H4 as (db & Hdb & Hlb & G4).
  apply in_flat_map in Hin as (st5 & H5 & Hin).
  apply (in_str_groups no_flags (txt ".")) in H5.
  apply in_flat_map in Hin as (st6 & H6 & Hin).
  apply (in_group_rep no_flags "patch" 1 d_) in H6 as (dc & Hdc & Hlc & G6).
  apply in_flat_map in Hin as (st7 & H7 & Hin).
  apply (in_opt_part no_flags (txt "-") "prerelease" Version.ident_chars) in H7.
  apply in_flat_map in Hin as (st8 & H8 & Hin).
  apply (in_opt_part no_flags (txt "+") "build" Version.ident_chars) in H8.
  assert (groups m = groups st8) as G9.
  { destruct (at_eol no_flags st8); [|destruct Hin].
    destruct Hin as [<-|[]]. reflexivity. }
  exists da, db, dc.
  split; [apply Hnum; assumption|].
  split; [apply Hnum; assumption|].
  split; [apply Hnum; assumption|].
  rewrite G9. rewrite G1 in G2. rewrite H3, G2 in G4. rewrite H5, G4 in G6.
  destruct H7 as [G7|(p & G7)], H8 as [G8|(b & G8)];
    rewrite G8, G7, G6; repeat split; reflexivity.
Qed.

(** C6. [Version.parse] strips every leading [v], not one: [vv1.2.3] does
    not match the pattern once a single [v] is removed, and [parse] returns
    the version 1.2.3 for it.  In general [parse] fails exactly when the text
    left after removing all leading [v]s does not match the pattern. *)
Theorem parse_accepts_repeated_v :
  Version.parse (txt "vv1.2.3") = Ok (Version.make 1 2 3)
  /\ re_match no_flags Version.pattern (normalize (txt "vv1.2.3")) = None
  /\ forall s,
       (exists e, Version.parse s = Raise e)
       <-> re_match no_flags Version.pattern (lstrip_char "v" s) = None.
Proof.
  split; [vm_compute; reflexivity|].
  split; [vm_compute; reflexivity|].
  intros s. unfold Version.parse.
  destruct (re_match no_flags Version.pattern (lstrip_char "v" s)) as [m|] eqn:Hm.
  - split; [|discriminate]. intros (e & He). exfalso.
    destruct (version_groups_numeric _ _ Hm)
      as (da & db & dc & (Ha1 & Ha2) & (Hb1 & Hb2) & (Hc1 & Hc2) & Ga & Gb & Gc).
    unfold Version.group_int in He. rewrite Ga, Gb, Gc in He.
    destruct (py_int_digit_string da Ha1 Ha2) as (za & Hza).
    destruct (py_int_digit_string db Hb1 Hb2) as (zb & Hzb).
    destruct (py_int_digit_string dc Hc1 Hc2) as (zc & Hzc).
    rewrite Hza, Hzb, Hzc in He. discriminate He.
  - split; [reflexivity|]. intros _. eexists. reflexivity.
Qed.

(** * Further properties of the code *)

(** ** get_max_bump *)

Lemma higher_assoc a b c : higher (higher a b) c = higher a (higher b c).
Proof. destruct a, b, c; reflexivity. Qed.

Lemma higher_comm a b : higher a b = higher b a.
Proof. destruct a, b; reflexivity. Qed.

Lemma higher_idem a : higher a a = a.
Proof. destruct a; reflexivity. Qed.

Lemma higher_none_l a : higher NONE a = a.
Proof. destruct a; reflexivity. Qed.

Lemma max_bump_fold commits : forall b,
  fold_left
    (fun acc commit =>
       let priority := ConventionalCommitParser.bump_priority (ParsedCommit.bump commit) in
       if snd acc <? priority then (ParsedCommit.bump commit, priority) else acc)
    commits (b, ConventionalCommitParser.bump_priority b)
  = (fold_left higher (map ParsedCommit.bump commits) b,
     ConventionalCommitParser.bump_priority
       (fold_left higher (map ParsedCommit.bump commits) b)).
Proof.
  induction commits as [|c l IH]; intros b; [reflexivity|].
  cbn [fold_left map]. cbv zeta. cbn [snd].
  change (higher b (ParsedCommit.bump c))
    with (if ConventionalCommitParser.bump_priority b
             <? ConventionalCommitParser.bump_priority (ParsedCommit.bump c)
          then ParsedCommit.bump c else b).
  destruct (ConventionalCommitParser.bump_priority b
            <? ConventionalCommitParser.bump_priority (ParsedCommit.bump c));
    apply IH.
Qed.

Lemma get_max_bump_fold commits :
  ConventionalCommitParser.get_max_bump commits
  = fold_left higher (map ParsedCommit.bump commits) NONE.
Proof.
  unfold ConventionalCommitParser.get_max_bump.
  change (NONE, 0) with (NONE, ConventionalCommitParser.bump_priority NONE).
  rewrite max_bump_fold. reflexivity.
Qed.

Lemma fold_higher l : forall b, fold_left higher l b = higher b (fold_left higher l NONE).
Proof.
  induction l as [|x l IH]; intros b; cbn [fold_left].
  - destruct b; reflexivity.
  - rewrite IH, (IH (higher NONE x)), higher_none_l, higher_assoc. reflexivity.
Qed.

Lemma higher_bounds a b :
  ConventionalCommitParser.bump_priority a
  <= ConventionalCommitParser.bump_priority (higher a b)
  /\ ConventionalCommitParser.bump_priority b
     <= ConventionalCommitParser.bump_priority (higher a b)
  /\ (higher a b = a \/ higher a b = b).
Proof. destruct a, b; cbn; repeat split; try lia; auto. Qed.

(** X1. [get_max_bump] returns a bump of the highest priority present: no
    commit of the list has a bump of higher priority than the result, and the
    result is NONE or the bump of a commit of the list. *)
Theorem max_bump_is_maximum (commits : list ParsedCommit.t) :
  (forall c, In c commits ->
             ConventionalCommitParser.bump_priority (ParsedCommit.bump c)
             <= ConventionalCommitParser.bump_priority
                  (ConventionalCommitParser.get_max_bump commits))
  /\ (ConventionalCommitParser.get_max_bump commits = NONE
      \/ exists c, In c commits
                   /\ ParsedCommit.bump c = ConventionalCommitParser.get_max_bump commits).
Proof.
  rewrite get_max_bump_fold.
  induction commits as [|c l [IHb IHa]]; cbn [map fold_left].
  - split; [intros c []|left; reflexivity].
  - rewrite fold_higher, higher_none_l.
    destruct (higher_bounds (ParsedCommit.bump c)
                (fold_left higher (map ParsedCommit.bump l) NONE)) as (Ha & Hb & Hc).
    split.
    + intros x [<-|Hx]; [exact Ha|]. specialize (IHb x Hx). lia.
    + destruct Hc as [-> | ->].
      * right. exists c. split; [left; reflexivity|reflexivity].
      * destruct IHa as [E|(x & Hx & E)]; [left; exact E|].
        right. exists x. split; [right; exact Hx|exact E].
Qed.

(** X2. The maximum bump of two batches put together is the higher of their
    maximum bumps; hence repeating a batch or exchanging two batches does not
    change the result. *)
Theorem max_bump_of_batches (l1 l2 : list ParsedCommit.t) :
  ConventionalCommitParser.get_max_bump (l1 ++ l2)
  = higher (ConventionalCommitParser.get_max_bump l1)
           (ConventionalCommitParser.get_max_bump l2)
  /\ ConventionalCommitParser.get_max_bump (l1 ++ l1)
     = ConventionalCommitParser.get_max_bump l1
  /\ ConventionalCommitParser.get_max_bump (l1 ++ l2)
     = ConventionalCommitParser.get_max_bump (l2 ++ l1).
Proof.
  assert (H : forall a b,
             ConventionalCommitParser.get_max_bump (a ++ b)
             = higher (ConventionalCommitParser.get_max_bump a)
                      (ConventionalCommitParser.get_max_bump b)).
  { intros a b. rewrite !get_max_bump_fold, map_app, fold_left_app.
    apply fold_higher. }
  split; [apply H|]. split.
  - rewrite H. apply higher_idem.
  - rewrite !H. apply higher_comm.
Qed.

(** ** Known commit types: the validator and the configuration *)

Lemma text_eqb_sym a b : text_eqb a b = text_eqb b a.
Proof.
  destruct (text_eqb a b) eqn:E.
  - apply text_eqb_eq in E. subst b. symmetry. apply text_eqb_refl.
  - destruct (text_eqb b a) eqn:E'; [|reflexivity].
    apply text_eqb_eq in E'. subst b. rewrite text_eqb_refl in E. discriminate.
Qed.

Lemma lookup_is_some {A} key (d : list (text * A)) :
  is_some (Config.lookup key d) = existsb (text_eqb key) (map fst d).
Proof.
  induction d as [|[k v] d IH]; [reflexivity|].
  cbn [Config.lookup map fst existsb]. rewrite (text_eqb_sym key k).
  destruct (text_eqb k key); [reflexivity|exact IH].
Qed.

Lemma find_alias_is_some key (d : list (text * CommitTypeConfig.t)) :
  is_some (find (fun entry => existsb (text_eqb key)
                                (CommitTypeConfig.aliases (snd entry))) d)
  = existsb (text_eqb key) (flat_map (fun e => CommitTypeConfig.aliases (snd e)) d).
Proof.
  induction d as [|e d IH]; [reflexivity|].
  cbn [find flat_map]. rewrite existsb_app.
  destruct (existsb (text_eqb key) (CommitTypeConfig.aliases (snd e)));
    [reflexivity|exact IH].
Qed.

Lemma get_commit_type_is_some cfg key :
  is_some (Config.get_commit_type cfg key)
  = existsb (text_eqb key)
      (map fst (Config.commit_types cfg)
       ++ flat_map (fun e => CommitTypeConfig.aliases (snd e)) (Config.commit_types cfg)).
Proof.
  unfold Config.get_commit_type. rewrite existsb_app, <- lookup_is_some.
  destruct (Config.lookup key (Config.commit_types cfg)); [reflexivity|].
  rewrite <- find_alias_is_some.
  destruct (find _ (Config.commit_types cfg)); reflexivity.
Qed.

(** ** The bump of a parsed commit *)

Lemma default_determine_bump commit_type :
  ConventionalCommitParser._determine_bump Config.DEFAULT_CONFIG commit_type false
  = default_bump false commit_type.
Proof.
  unfold default_bump. cbv zeta. cbn [existsb].
  destruct (text_eqb commit_type (txt "breaking")) eqn:E1;
    [apply text_eqb_eq in E1; subst; reflexivity|].
  destruct (text_eqb commit_type (txt "feat")) eqn:E2;
    [apply text_eqb_eq in E2; subst; reflexivity|].
  destruct (text_eqb commit_type (txt "feature")) eqn:E3;
    [apply text_eqb_eq in E3; subst; reflexivity|].
  destruct (text_eqb commit_type (txt "fix")) eqn:E4;
    [apply text_eqb_eq in E4; subst; reflexivity|].
  destruct (text_eqb commit_type (txt "bugfix")) eqn:E5;
    [apply text_eqb_eq in E5; subst; reflexivity|].
  destruct (text_eqb commit_type (txt "hotfix")) eqn:E6;
    [apply text_eqb_eq in E6; subst; reflexivity|].
  destruct (text_eqb commit_type (txt "perf")) eqn:E7;
    [apply text_eqb_eq in E7; subst; reflexivity|].
  destruct (text_eqb commit_type (txt "revert")) eqn:E8;
    [apply text_eqb_eq in E8; subst; reflexivity|].
  cbn [orb]. unfold ConventionalCommitParser._determine_bump.
  pose proof (get_commit_type_is_some Config.DEFAULT_CONFIG commit_type) as H.
  cbn [Config.commit_types Config.DEFAULT_CONFIG map fst snd flat_map app
       Config.commit_type_entry CommitTypeConfig.aliases existsb] in H.
  cbn [txt list_ascii_of_string] in *.
  rewrite E1, E2, E3, E4, E5, E6, E7, E8 in H.
  destruct (Config.get_commit_type Config.DEFAULT_CONFIG commit_type);
    [discriminate H|reflexivity].
Qed.

(** X3. The bump of a parsed commit.  Whatever the configuration, a breaking
    commit has the bump MAJOR, and a commit that is not breaking and whose
    type the configuration does not know has the bump NONE.  With the default
    configuration the bump is MAJOR for a breaking commit and for the type
    [breaking], MINOR for [feat] and [feature], PATCH for [fix], [bugfix],
    [hotfix], [perf] and [revert], and NONE for every other type. *)
Theorem parsed_commit_bump (cfg : Config.t) (msg sha : text) (commit : ParsedCommit.t) :
  ConventionalCommitParser.parse cfg msg sha = Some commit ->
  (ParsedCommit.breaking commit = true -> ParsedCommit.bump commit = MAJOR)
  /\ (ParsedCommit.breaking commit = false ->
      Config.get_commit_type cfg (ParsedCommit.type commit) = None ->
      ParsedCommit.bump commit = NONE)
  /\ (cfg = Config.DEFAULT_CONFIG ->
      ParsedCommit.bump commit
      = default_bump (ParsedCommit.breaking commit) (ParsedCommit.type commit)).
Proof.
  intros H. apply parse_fields in H as (_ & -> & _).
  split; [|split].
  - intros ->. reflexivity.
  - intros Hb Hn. unfold ConventionalCommitParser._determine_bump.
    rewrite Hb, Hn. reflexivity.
  - intros ->. destruct (ParsedCommit.breaking commit); [reflexivity|].
    apply default_determine_bump.
Qed.

Lemma parsed_commit_bump_witness :
  exists commit,
    ConventionalCommitParser.parse Config.DEFAULT_CONFIG (txt "docs(api!): x") []
    = Some commit
    /\ ParsedCommit.breaking commit = true
    /\ Config.get_commit_type Config.DEFAULT_CONFIG (ParsedCommit.type commit) = None
    /\ ParsedCommit.bump commit = MAJOR.
Proof.
  eexists. split; [vm_compute; reflexivity|].
  split; [vm_compute; reflexivity|].
  split; [vm_compute; reflexivity|].
  apply (parsed_commit_bump Config.DEFAULT_CONFIG (txt "docs(api!): x") []).
  - vm_compute. reflexivity.
  - vm_compute. reflexivity.
Defined.

(** X4. The validator and the parser agree on which commit types are known:
    [_validate_type] reports nothing for a type exactly when
    [Config.get_commit_type] finds a configuration for it, by name or by
    alias. *)
Theorem validate_type_agrees_with_config (cfg : Config.t) (commit_type : text) :
  CommitMessageValidator._validate_type cfg commit_type = []
  <-> is_some (Config.get_commit_type cfg commit_type) = true.
Proof.
  rewrite get_commit_type_is_some.
  unfold CommitMessageValidator._validate_type.
  destruct (existsb (text_eqb commit_type) _); cbn [negb]; split; intros H;
    try reflexivity; discriminate H.
Qed.

Lemma header_errors cfg header :
  existsb ValidationResult.is_error (CommitMessageValidator._validate_header cfg header)
  = negb (header_ok cfg header).
Proof.
  unfold CommitMessageValidator._validate_header, header_ok.
  destruct (re_match no_flags CommitMessageValidator.COMMIT_PATTERN header) as [m|];
    [|reflexivity].
  cbv zeta. rewrite !existsb_app.
  set (ty := lower (get (group "type" (groups m)) [])).
  set (subject := strip (get (group "subject" (groups m)) [])).
  assert (Ht : existsb ValidationResult.is_error (CommitMessageValidator._validate_type cfg ty)
               = negb (is_some (Config.get_commit_type cfg ty))).
  { rewrite get_commit_type_is_some. unfold CommitMessageValidator._validate_type.
    cbv zeta. destruct (existsb (text_eqb ty) _); reflexivity. }
  assert (Hs : forall scope,
             existsb ValidationResult.is_error
               (CommitMessageValidator._validate_scope cfg scope)
             = negb (is_some (re_match no_flags CommitMessageValidator.SCOPE_PATTERN scope))).
  { intros scope. unfold CommitMessageValidator._validate_scope. rewrite existsb_app.
    destruct (is_some (re_match no_flags CommitMessageValidator.SCOPE_PATTERN scope));
      cbn [negb existsb orb];
      destruct (get _ []) as [|a l]; try reflexivity;
      destruct (negb (existsb (text_eqb scope) (a :: l))); reflexivity. }
  assert (Hj : existsb ValidationResult.is_error
                 (CommitMessageValidator._validate_subject cfg subject)
               = (len subject <? get (ValidationConfig.subject_min_length
                                        (Config.validation cfg)) 3)
                 || (get (ValidationConfig.subject_max_length (Config.validation cfg)) 100
                     <? len subject)).
  { unfold CommitMessageValidator._validate_subject,
      CommitMessageValidator.validation_config.
    cbv zeta. rewrite !existsb_app.
    destruct (len subject <? _); destruct (_ <? len subject); cbn [existsb orb];
      try reflexivity;
      destruct (get (ValidationConfig.subject_lowercase (Config.validation cfg)) true);
      destruct subject as [|c sj]; try destruct (is_upper c);
      try destruct (ends_with_char "." (c :: sj));
      try destruct (ends_with_char "." []); reflexivity. }
  assert (Hl : existsb ValidationResult.is_error
                 (CommitMessageValidator._validate_header_length cfg header)
               = (get (ValidationConfig.header_max_length (Config.validation cfg)) 100
                  <? len header)).
  { unfold CommitMessageValidator._validate_header_length,
      CommitMessageValidator.validation_config.
    cbv zeta. destruct (_ <? len header); reflexivity. }
  rewrite Ht, Hj, Hl.
  assert (Hb : existsb ValidationResult.is_error
                 (if truthy (group "breaking" (groups m))
                  then CommitMessageValidator._validate_breaking_indicator
                  else []) = false)
    by (destruct (truthy (group "breaking" (groups m))); reflexivity).
  rewrite Hb.
  assert (Hsc : existsb ValidationResult.is_error
                  (if truthy (group "scope" (groups m))
                   then CommitMessageValidator._validate_scope cfg
                          (get (group "scope" (groups m)) [])
                   else [])
                = negb (if truthy (group "scope" (groups m))
                        then is_some (re_match no_flags CommitMessageValidator.SCOPE_PATTERN
                                        (get (group "scope" (groups m)) []))
                        else true)).
  { destruct (truthy (group "scope" (groups m))); [apply Hs|reflexivity]. }
  rewrite Hsc.
  rewrite !negb_andb, !Z.leb_antisym, !negb_involutive, orb_false_l.
  rewrite <- !orb_assoc. reflexivity.
Qed.

(** X5. Whether a message is valid is decided by its header alone, and
    only by errors.  The findings on the body are never errors, so
    [is_valid] is the absence of an ERROR among the findings of
    [_validate_header] on the first line; and that is the case exactly when
    the header matches the pattern, its type is a configured name or alias,
    its scope, if any, matches the scope pattern, its subject has a length
    between the two limits and the header is no longer than its limit.
    Warnings, such as a scope outside the allowed list, a capital first
    letter or a final period, never make a message invalid. *)
Theorem is_valid_depends_on_header (cfg : Config.t) (msg : text) :
  CommitMessageValidator.is_valid cfg msg
  = negb (existsb ValidationResult.is_error
            (CommitMessageValidator._validate_header cfg (header_of msg)))
  /\ CommitMessageValidator.is_valid cfg msg = header_ok cfg (header_of msg).
Proof.
  assert (H : CommitMessageValidator.is_valid cfg msg
              = negb (existsb ValidationResult.is_error
                        (CommitMessageValidator._validate_header cfg (header_of msg)))).
  { unfold CommitMessageValidator.is_valid, CommitMessageValidator.validate, header_of.
    pose proof (split_on_not_nil LF (strip msg)) as Hn.
    destruct (split_on LF (strip msg)) as [|line0 lines1]; [congruence|].
    cbn [hd]. rewrite existsb_app. f_equal.
    match goal with |- ?a || ?b = _ => assert (Hb : b = false) end.
    { destruct lines1 as [|l ls]; [reflexivity|].
      destruct (strip (join [LF] (l :: ls))) as [|c body]; [reflexivity|].
      destruct (existsb _ _) eqn:E; [|reflexivity].
      apply existsb_exists in E as (r & Hin & Hr).
      apply body_findings_level in Hin. exfalso. apply Hin.
      unfold ValidationResult.is_error in Hr.
      destruct (ValidationResult.level r); try discriminate Hr. reflexivity. }
    rewrite Hb. apply orb_false_r. }
  split; [exact H|]. rewrite H, header_errors. apply negb_involutive.
Qed.

(** ** Looking up branches and commit types *)

Lemma find_first {A} (p : A -> bool) (l : list A) x :
  find p l = Some x
  <-> exists before after,
        l = before ++ x :: after /\ p x = true
        /\ forall y, In y before -> p y = false.
Proof.
  induction l as [|b l IH]; cbn [find].
  - split; [discriminate|]. intros ([|? ?] & after & H & _); discriminate H.
  - destruct (p b) eqn:E; split.
    + intros H. injection H as <-. exists [], l. repeat split; [exact E|intros ? []].
    + intros ([|y before] & after & H & Hm & Hb).
      * injection H as -> _. reflexivity.
      * injection H as -> _. rewrite (Hb y (or_introl eq_refl)) in E. discriminate.
    + intros H. apply IH in H as (before & after & -> & Hm & Hb).
      exists (b :: before), after. repeat split; [exact Hm|].
      intros other [<-|Ho]; [exact E|exact (Hb _ Ho)].
    + intros ([|y before] & after & H & Hm & Hb).
      * injection H as -> _. rewrite Hm in E. discriminate.
      * injection H as -> ->. apply IH. exists before, after.
        repeat split; [exact Hm|]. intros other Ho. apply Hb. right. exact Ho.
Qed.

(** X6. The order of the configured branches decides.  [get_branch_config]
    returns the first branch, in the order of the configuration, whose
    pattern matches the branch name; and [calculate_next_version] depends on
    the configured branches through that branch alone: the branches before
    it, which do not match, and all the branches after it, matching or not,
    change nothing. *)
Theorem first_matching_branch_decides (fnmatch wildmatch : text -> text -> bool)
    (cfg : Config.t) (git : GitHelper.t) (branch_name : text) (bc : BranchConfig.t) :
  (Config.get_branch_config fnmatch cfg branch_name = Some bc
   <-> exists before after,
         Config.branches cfg = before ++ bc :: after
         /\ fnmatch branch_name (BranchConfig.name bc) = true
         /\ forall other, In other before ->
                          fnmatch branch_name (BranchConfig.name other) = false)
  /\ (Config.get_branch_config fnmatch cfg branch_name = Some bc ->
      forall commits current_version max_bump,
        VersionCalculator.calculate_next_version fnmatch wildmatch cfg git commits
          current_version branch_name max_bump
        = VersionCalculator.calculate_next_version fnmatch wildmatch
            (with_branches cfg [bc]) git commits current_version branch_name max_bump).
Proof.
  split.
  - unfold Config.get_branch_config.
    apply (find_first (fun branch_cfg => fnmatch branch_name (BranchConfig.name branch_cfg))).
  - intros H commits current_version max_bump.
    unfold VersionCalculator.calculate_next_version. rewrite H.
    unfold Config.get_branch_config in *. apply find_some in H as [_ Hm].
    cbn [with_branches Config.branches find]. rewrite Hm. reflexivity.
Qed.

Lemma first_matching_branch_decides_witness :
  VersionCalculator.calculate_next_version fnmatch_glob glob
    (with_branches Config.DEFAULT_CONFIG
       [ {| BranchConfig.name := txt "rel*"; BranchConfig.type := txt "release";
            BranchConfig.prerelease := None |};
         {| BranchConfig.name := txt "*"; BranchConfig.type := txt "prerelease";
            BranchConfig.prerelease := Some (txt "dev") |} ])
    dev_git [] (Some (Version.make 1 2 0)) (txt "release") MINOR
  = VersionCalculator.calculate_next_version fnmatch_glob glob
      (with_branches Config.DEFAULT_CONFIG
         [ {| BranchConfig.name := txt "rel*"; BranchConfig.type := txt "release";
              BranchConfig.prerelease := None |} ])
      dev_git [] (Some (Version.make 1 2 0)) (txt "release") MINOR.
Proof.
  apply (proj2 (first_matching_branch_decides fnmatch_glob glob
                  (with_branches Config.DEFAULT_CONFIG
                     [ {| BranchConfig.name := txt "rel*";
                          BranchConfig.type := txt "release";
                          BranchConfig.prerelease := None |};
                       {| BranchConfig.name := txt "*";
                          BranchConfig.type := txt "prerelease";
                          BranchConfig.prerelease := Some (txt "dev") |} ])
                  dev_git (txt "release")
                  {| BranchConfig.name := txt "rel*"; BranchConfig.type := txt "release";
                     BranchConfig.prerelease := None |})).
  vm_compute. reflexivity.
Defined.

Lemma lookup_in {A} key (d : list (text * A)) v :
  NoDup (map fst d) -> (Config.lookup key d = Some v <-> In (key, v) d).
Proof.
  induction d as [|[k w] d IH]; intros Hnd; cbn [Config.lookup].
  - split; [discriminate|intros []].
  - inversion Hnd as [|? ? Hk Hd]; subst.
    destruct (text_eqb k key) eqn:E.
    + apply text_eqb_eq in E. subst k. split.
      * intros H. injection H as ->. left. reflexivity.
      * intros [H|H]; [congruence|].
        exfalso. apply Hk. change key with (fst (key, v)). apply in_map. exact H.
    + rewrite (IH Hd). split; [intros H; right; exact H|].
      intros [H|H]; [|exact H]. injection H as -> _.
      rewrite text_eqb_refl in E. discriminate.
Qed.

Lemma lookup_none {A} key (d : list (text * A)) :
  Config.lookup key d = None <-> ~ In key (map fst d).
Proof.
  pose proof (lookup_is_some key d) as H.
  destruct (Config.lookup key d); cbn [is_some] in H; split; intros Hx.
  - discriminate.
  - exfalso. apply Hx. symmetry in H. apply existsb_exists in H as (x & Hin & Hx').
    apply text_eqb_eq in Hx'. subst x. exact Hin.
  - intros Hin. symmetry in H.
    assert (Ht : existsb (text_eqb key) (map fst d) = true).
    { apply existsb_exists. exists key. split; [exact Hin|apply text_eqb_refl]. }
    congruence.
  - reflexivity.
Qed.

(** X7. [get_commit_type] prefers names to aliases: with the type names of
    the configuration distinct, it returns the entry named by the string if
    there is one, whatever aliases earlier entries declare; otherwise the
    first entry, in the order of the configuration, that lists the string as
    an alias. *)
Theorem get_commit_type_name_before_alias (cfg : Config.t) (commit_type : text)
    (c : CommitTypeConfig.t) :
  NoDup (map fst (Config.commit_types cfg)) ->
  (Config.get_commit_type cfg commit_type = Some c
   <-> In (commit_type, c) (Config.commit_types cfg)
       \/ (~ In commit_type (map fst (Config.commit_types cfg))
           /\ exists before name after,
                Config.commit_types cfg = before ++ (name, c) :: after
                /\ In commit_type (CommitTypeConfig.aliases c)
                /\ forall e, In e before ->
                             ~ In commit_type (CommitTypeConfig.aliases (snd e)))).
Proof.
  intros Hnd. unfold Config.get_commit_type.
  assert (Hal : forall l, existsb (text_eqb commit_type) l = true <-> In commit_type l).
  { intros l. rewrite existsb_exists. split.
    - intros (x & Hin & Hx). apply text_eqb_eq in Hx. subst x. exact Hin.
    - intros H. exists commit_type. split; [exact H|apply text_eqb_refl]. }
  destruct (Config.lookup commit_type (Config.commit_types cfg)) as [v|] eqn:El.
  - pose proof (proj1 (lookup_in _ _ _ Hnd) El) as Hin. split.
    + intros H. injection H as <-. left. exact Hin.
    + intros [H|(Hno & _)].
      * apply (lookup_in _ _ _ Hnd) in H. congruence.
      * exfalso. apply Hno. change commit_type with (fst (commit_type, v)).
        apply in_map. exact Hin.
  - pose proof (proj1 (lookup_none _ _) El) as Hno. split.
    + intros H. right. split; [exact Hno|].
      destruct (find _ (Config.commit_types cfg)) as [[name c']|] eqn:Ef;
        [|discriminate H].
      cbn in H. injection H as ->.
      apply find_first in Ef as (before & after & Hl & Hm & Hb).
      exists before, name, after. split; [exact Hl|]. split.
      * apply Hal. exact Hm.
      * intros e He Ha. apply Hal in Ha. rewrite (Hb e He) in Ha. discriminate.
    + intros [H|(_ & before & name & after & Hl & Ha & Hb)].
      * exfalso. apply Hno. change commit_type with (fst (commit_type, c)).
        apply in_map. exact H.
      * assert (Ef : find (fun entry => existsb (text_eqb commit_type)
                                          (CommitTypeConfig.aliases (snd entry)))
                          (Config.commit_types cfg) = Some (name, c)).
        { apply find_first. exists before, after. split; [exact Hl|]. split.
          - apply Hal. exact Ha.
          - intros y Hy. destruct (existsb _ _) eqn:E; [|reflexivity].
            apply Hal in E. destruct (Hb y Hy E). }
        rewrite Ef. reflexivity.
Qed.

Lemma get_commit_type_name_before_alias_witness :
  NoDup (map fst (Config.commit_types Config.DEFAULT_CONFIG))
  /\ Config.get_commit_type Config.DEFAULT_CONFIG (txt "hotfix")
     = Some (snd (Config.commit_type_entry "fix" "patch" ["bugfix"%string; "hotfix"%string])).
Proof.
  assert (Hnd : NoDup (map fst (Config.commit_types Config.DEFAULT_CONFIG))).
  { repeat constructor; cbn; intuition discriminate. }
  split; [exact Hnd|].
  apply (get_commit_type_name_before_alias Config.DEFAULT_CONFIG (txt "hotfix") _ Hnd).
  right. split.
  - cbn. intuition discriminate.
  - exists [Config.commit_type_entry "breaking" "major" [];
            Config.commit_type_entry "feat" "minor" ["feature"%string]],
           (txt "fix"),
           [Config.commit_type_entry "perf" "patch" [];
            Config.commit_type_entry "revert" "patch" []].
    split; [reflexivity|]. split.
    + cbn. intuition.
    + intros e [<-|[<-|[]]]; cbn; intuition discriminate.
Defined.

(** ** What Version.parse returns *)

Lemma in_opt_part_chars fl sep name c st st' :
  In st' (run fl (Opt (Str sep >> Group name (Rep 1 c))) st) ->
  groups st' = groups st
  \/ exists m, m <> [] /\ forallb (cmem fl c) m = true
               /\ groups st' = (name, m) :: groups st.
Proof.
  cbn [run]. intros H. apply in_app_iff in H as [H|[<-|[]]]; [|left; reflexivity].
  apply in_flat_map in H as (st1 & H1 & H2).
  apply (in_str_groups fl sep) in H1.
  apply (in_group_rep fl name 1 c) in H2 as (m & Hall & Hlen & Hg).
  right. exists m. split; [destruct m; [cbn in Hlen; lia|discriminate]|].
  split; [exact Hall|]. rewrite Hg, H1. reflexivity.
Qed.

(** Whenever the pattern matches, the optional groups are absent or
    non-empty runs of identifier characters. *)
Lemma version_groups_idents s m :
  re_match no_flags Version.pattern s = Some m ->
  wf_ident (group "prerelease" (groups m)) /\ wf_ident (group "build" (groups m)).
Proof.
  unfold re_match. intros H.
  assert (Hin : In m (run no_flags Version.pattern (start s))).
  { destruct (run no_flags Version.pattern (start s)); [discriminate|].
    injection H as ->. left; reflexivity. }
  clear H. unfold Version.pattern in Hin.
  cbn [run] in Hin.
  apply in_flat_map in Hin as (st1 & H1 & Hin).
  assert (groups st1 = []) as G1.
  { destruct (at_bol no_flags (start s)); [|destruct H1].
    destruct H1 as [<-|[]]. reflexivity. }
  apply in_flat_map in Hin as (st2 & H2 & Hin).
  apply (in_group_rep no_flags "major" 1 d_) in H2 as (da & _ & _ & G2).
  apply in_flat_map in Hin as (st3 & H3 & Hin).
  apply (in_str_groups no_flags (txt ".")) in H3.
  apply in_flat_map in Hin as (st4 & H4 & Hin).
  apply (in_group_rep no_flags "minor" 1 d_) in H4 as (db & _ & _ & G4).
  apply in_flat_map in Hin as (st5 & H5 & Hin).
  apply (in_str_groups no_flags (txt ".")) in H5.
  apply in_flat_map in Hin as (st6 & H6 & Hin).
  apply (in_group_rep no_flags "patch" 1 d_) in H6 as (dc & _ & _ & G6).
  apply in_flat_map in Hin as (st7 & H7 & Hin).
  apply (in_opt_part_chars no_flags (txt "-") "prerelease" Version.ident_chars) in H7.
  apply in_flat_map in Hin as (st8 & H8 & Hin).
  apply (in_opt_part_chars no_flags (txt "+") "build" Version.ident_chars) in H8.
  assert (groups m = groups st8) as G9.
  { destruct (at_eol no_flags st8); [|destruct Hin].
    destruct Hin as [<-|[]]. reflexivity. }
  rewrite G9. rewrite G1 in G2. rewrite H3, G2 in G4. rewrite H5, G4 in G6.
  destruct H7 as [G7|(p & Hp1 & Hp2 & G7)], H8 as [G8|(b & Hb1 & Hb2 & G8)];
    rewrite G8, G7, G6; cbn [group String.eqb Ascii.eqb Bool.eqb wf_ident];
    repeat split; assumption.
Qed.

Lemma py_int_digit_string_nonneg s :
  s <> [] -> forallb is_digit s = true -> exists z, py_int s = Some z /\ 0 <= z.
Proof.
  intros Hne Hd. destruct (digits_as_uint s Hne Hd) as (d & Hnil & ->).
  eexists. split; [apply py_int_digits; exact Hnil|]. apply N2Z.is_nonneg.
Qed.

Lemma parse_canonical s v : Version.parse s = Ok v -> canonical v.
Proof.
  unfold Version.parse. intros H.
  destruct (re_match no_flags Version.pattern (lstrip_char "v" s)) as [m|] eqn:Hm;
    [|discriminate H].
  destruct (version_groups_numeric _ _ Hm)
    as (da & db & dc & (Ha1 & Ha2) & (Hb1 & Hb2) & (Hc1 & Hc2) & Ga & Gb & Gc).
  destruct (version_groups_idents _ _ Hm) as [Hp Hb].
  unfold Version.group_int in H. rewrite Ga, Gb, Gc in H.
  destruct (py_int_digit_string_nonneg da Ha1 Ha2) as (za & Hza & Hza0).
  destruct (py_int_digit_string_nonneg db Hb1 Hb2) as (zb & Hzb & Hzb0).
  destruct (py_int_digit_string_nonneg dc Hc1 Hc2) as (zc & Hzc & Hzc0).
  rewrite Hza, Hzb, Hzc in H. injection H as <-.
  unfold canonical. cbn [Version.major Version.minor Version.patch
                         Version.prerelease Version.build].
  repeat split; assumption.
Qed.

(** X8. Whatever [Version.parse] accepts, it returns a version with
    non-negative numbers and well-formed optional parts, and formatting that
    version and parsing it again gives the same version: parsing normalises
    in one step. *)
Theorem parse_normalises (s : text) (v : Version.t) :
  Version.parse s = Ok v ->
  canonical v /\ Version.parse (Version.str v) = Ok v.
Proof.
  intros H. pose proof (parse_canonical s v H) as Hc.
  split; [exact Hc|apply parse_str; exact Hc].
Qed.

Lemma parse_normalises_witness :
  Version.parse (txt "vv01.2.003-rc.1+b7")
  = Ok {| Version.major := 1; Version.minor := 2; Version.patch := 3;
          Version.prerelease := Some (txt "rc.1"); Version.build := Some (txt "b7") |}
  /\ Version.parse (txt "1.2.3-rc.1+b7")
     = Ok {| Version.major := 1; Version.minor := 2; Version.patch := 3;
             Version.prerelease := Some (txt "rc.1"); Version.build := Some (txt "b7") |}.
Proof.
  assert (H : Version.parse (txt "vv01.2.003-rc.1+b7")
              = Ok {| Version.major := 1; Version.minor := 2; Version.patch := 3;
                      Version.prerelease := Some (txt "rc.1");
                      Version.build := Some (txt "b7") |})
    by (vm_compute; reflexivity).
  split; [exact H|].
  exact (proj2 (parse_normalises _ _ H)).
Defined.

(** ** The version returned by calculate_next_version *)

Lemma bump_raises_key v b :
  b <> NONE ->
  key_lt (VersionCalculator.key v) (VersionCalculator.key (Version.bump v b)).
Proof.
  destruct v as [x y z p q], b; cbn; intros H; try congruence; lia.
Qed.

Lemma key_le_lt_trans a b c : ~ key_lt a b -> key_lt a c -> key_lt b c.
Proof.
  destruct a as [[a1 a2] a3], b as [[b1 b2] b3], c as [[c1 c2] c3]; cbn. lia.
Qed.

Lemma bump_nonneg v b : nonneg v -> nonneg (Version.bump v b).
Proof.
  destruct v as [x y z p q], b; unfold nonneg; cbn; lia.
Qed.

Lemma latest_stable_nonneg wildmatch git :
  nonneg (get (VersionCalculator._get_latest_stable_version wildmatch git)
              (Version.make 0 0 0)).
Proof.
  destruct (latest_stable_computed wildmatch git) as [[(tag & _ & Hp & _) _]|[_ ->]].
  - apply parse_canonical in Hp. unfold nonneg. destruct Hp as (? & ? & ? & _). auto.
  - unfold nonneg. cbn. lia.
Qed.

Lemma bump_clears v b :
  Version.prerelease (Version.bump v b) = None /\ Version.build (Version.bump v b) = None.
Proof. destruct b; split; reflexivity. Qed.

Lemma BumpType_eqb_eq a b : BumpType_eqb a b = true <-> a = b.
Proof. destruct a, b; cbn; split; congruence. Qed.

(** X9. How the version returned by [calculate_next_version] stands to the
    versions before it.  On a release branch it is strictly above the current
    version (above 0.0.0 when there is none) and has neither prerelease nor
    build part.  On a prerelease branch the current version plays no part:
    the result is the same for every current version; its three numbers are
    strictly above those of every stable version among the tags, and its
    prerelease part is the branch identifier, a dot and a counter.  So on a
    prerelease branch the result can lie below the current version: with the
    tags 1.2.0 and 2.0.0-dev.1, the current version 2.0.0-dev.1 and a PATCH
    bump, the branch [dev] of the default configuration gets 1.2.1-dev.1. *)
Theorem next_version_against_current (fnmatch wildmatch : text -> text -> bool)
    (cfg : Config.t) (git : GitHelper.t) (commits : list ParsedCommit.t)
    (current_version : option Version.t) (branch_name : text) (max_bump : BumpType)
    (v : Version.t) (log : list LogRecord) :
  VersionCalculator.calculate_next_version fnmatch wildmatch cfg git commits
    current_version branch_name max_bump = (Some v, log) ->
  (exists bc,
     Config.get_branch_config fnmatch cfg branch_name = Some bc
     /\ max_bump <> NONE
     /\ log = []
     /\ Version.build v = None
     /\ if truthy (BranchConfig.prerelease bc) then
          (forall w, stable_tag wildmatch git w ->
                     key_lt (VersionCalculator.key w) (VersionCalculator.key v))
          /\ (exists counter,
                Version.prerelease v
                = Some (get (BranchConfig.prerelease bc) [] ++ txt "." ++ str_int counter))
          /\ (forall other_version,
                VersionCalculator.calculate_next_version fnmatch wildmatch cfg git commits
                  other_version branch_name max_bump = (Some v, log))
        else
          key_lt (VersionCalculator.key (get current_version (Version.make 0 0 0)))
                 (VersionCalculator.key v)
          /\ Version.prerelease v = None)
  /\ (VersionCalculator.calculate_next_version fnmatch_glob glob Config.DEFAULT_CONFIG
        ahead_git [] (Some (Version.with_prerelease (Version.make 2 0 0) (txt "dev") 1))
        (txt "dev") PATCH
      = (Some (Version.with_prerelease (Version.make 1 2 1) (txt "dev") 1), [])
      /\ key_lt (VersionCalculator.key
                   (Version.with_prerelease (Version.make 1 2 1) (txt "dev") 1))
                (VersionCalculator.key
                   (Version.with_prerelease (Version.make 2 0 0) (txt "dev") 1))).
Proof.
  intros H. split; [|split; [vm_compute; reflexivity|cbn; lia]].
  unfold VersionCalculator.calculate_next_version in *.
  destruct (Config.get_branch_config fnmatch cfg branch_name) as [bc|];
    [|discriminate H].
  exists bc. split; [reflexivity|].
  destruct (BumpType_eqb max_bump NONE) eqn:Eb; [discriminate H|].
  assert (Hmb : max_bump <> NONE).
  { intros ->. discriminate Eb. }
  split; [exact Hmb|].
  destruct (truthy (BranchConfig.prerelease bc)); injection H as <- <-.
  - split; [reflexivity|]. split; [reflexivity|]. split; [|split].
    + intros w Hw. unfold VersionCalculator._calculate_prerelease_version.
      set (stable := get (VersionCalculator._get_latest_stable_version wildmatch git)
                         (Version.make 0 0 0)).
      change (VersionCalculator.key (Version.with_prerelease ?b ?i ?n))
        with (VersionCalculator.key b).
      apply (key_le_lt_trans (VersionCalculator.key stable)).
      * destruct (latest_stable_computed wildmatch git) as [[_ Hmax]|[Hno _]].
        -- apply Hmax. exact Hw.
        -- destruct (Hno w Hw).
      * apply bump_raises_key. exact Hmb.
    + eexists. reflexivity.
    + intros other_version. reflexivity.
  - split; [reflexivity|]. split; [apply bump_clears|]. split.
    + destruct current_version as [cv|]; cbn [get].
      * change (VersionCalculator.key cv)
          with (VersionCalculator.key
                  (Version.make (Version.major cv) (Version.minor cv) (Version.patch cv))).
        apply bump_raises_key. exact Hmb.
      * apply bump_raises_key. exact Hmb.
    + apply bump_clears.
Qed.

Lemma next_version_against_current_witness :
  exists bc,
    Config.get_branch_config fnmatch_glob Config.DEFAULT_CONFIG (txt "dev") = Some bc
    /\ PATCH <> NONE
    /\ @nil LogRecord = []
    /\ Version.build (Version.with_prerelease (Version.make 1 2 1) (txt "dev") 3) = None
    /\ if truthy (BranchConfig.prerelease bc) then
         (forall w, stable_tag glob dev_git w ->
                    key_lt (VersionCalculator.key w)
                      (VersionCalculator.key
                         (Version.with_prerelease (Version.make 1 2 1) (txt "dev") 3)))
         /\ (exists counter,
               Version.prerelease (Version.with_prerelease (Version.make 1 2 1) (txt "dev") 3)
               = Some (get (BranchConfig.prerelease bc) [] ++ txt "." ++ str_int counter))
         /\ (forall other_version,
               VersionCalculator.calculate_next_version fnmatch_glob glob
                 Config.DEFAULT_CONFIG dev_git [] other_version (txt "dev") PATCH
               = (Some (Version.with_prerelease (Version.make 1 2 1) (txt "dev") 3), []))
       else
         key_lt (VersionCalculator.key (get None (Version.make 0 0 0)))
                (VersionCalculator.key
                   (Version.with_prerelease (Version.make 1 2 1) (txt "dev") 3))
         /\ Version.prerelease (Version.with_prerelease (Version.make 1 2 1) (txt "dev") 3)
            = None.
Proof.
  apply (proj1 (next_version_against_current fnmatch_glob glob Config.DEFAULT_CONFIG
                  dev_git [] None (txt "dev") PATCH _ [] ltac:(vm_compute; reflexivity))).
Defined.

(** ** Numbers of either sign as text *)

Lemma str_int_neg p :
  str_int (Zneg p) = "-"%char :: digits_of_uint (N.to_uint (Npos p)).
Proof. reflexivity. Qed.

(** [int(str(z)) = z] for every integer *)
Lemma py_int_str_int_any z : py_int (str_int z) = Some z.
Proof.
  destruct z as [|p|p]; try (apply py_int_str_int; lia).
  rewrite str_int_neg. unfold py_int.
  rewrite strip_no_space.
  - rewrite nat_literal_digits by apply to_uint_not_nil.
    rewrite DecimalN.Unsigned.of_to. reflexivity.
  - cbn [forallb]. apply andb_true_iff. split; [reflexivity|].
    pose proof (digits_of_uint_digits (N.to_uint (Npos p))) as Hall.
    rewrite forallb_forall in *.
    intros x Hx. apply negb_true_iff. apply digit_facts. apply Hall. exact Hx.
Qed.

Lemma str_int_ident z :
  forallb (cmem no_flags Version.ident_chars) (str_int z) = true
  /\ ~ In "."%char (str_int z).
Proof.
  assert (Hd : forall d,
             forallb (cmem no_flags Version.ident_chars) (digits_of_uint d) = true
             /\ ~ In "."%char (digits_of_uint d)).
  { intros d. pose proof (digits_of_uint_digits d) as Hall.
    rewrite forallb_forall in *. split.
    - intros x Hx. apply digit_is_ident. apply Hall. exact Hx.
    - intros Hx. apply Hall in Hx. apply digit_is_ident in Hx as [_ Hx]. congruence. }
  destruct z as [|p|p].
  - rewrite str_int_nonneg by lia. apply Hd.
  - rewrite str_int_nonneg by lia. apply Hd.
  - rewrite str_int_neg. destruct (Hd (N.to_uint (Npos p))) as [H1 H2]. split.
    + cbn [forallb]. rewrite H1. reflexivity.
    + intros [H|H]; [discriminate H|exact (H2 H)].
Qed.

Lemma with_prerelease_canonical base id n :
  nonneg base -> forallb (cmem no_flags Version.ident_chars) id = true ->
  canonical (Version.with_prerelease base id n).
Proof.
  intros (Ha & Hb & Hc) Hid. unfold canonical.
  cbn [Version.with_prerelease Version.major Version.minor Version.patch
       Version.prerelease Version.build wf_ident].
  repeat split; try assumption.
  - destruct id; discriminate.
  - rewrite !forallb_app, Hid. cbn [txt list_ascii_of_string forallb andb].
    rewrite (proj1 (str_int_ident n)). reflexivity.
Qed.

(** X10. The version returned by [calculate_next_version] can be handed on
    as text: when the current version has no negative number and the
    prerelease identifiers of the configured branches are written over
    [[0-9A-Za-z.-]], formatting the result and parsing it gives the result
    back. *)
Theorem next_version_reparses (fnmatch wildmatch : text -> text -> bool)
    (cfg : Config.t) (git : GitHelper.t) (commits : list ParsedCommit.t)
    (current_version : option Version.t) (branch_name : text) (max_bump : BumpType)
    (v : Version.t) (log : list LogRecord) :
  nonneg (get current_version (Version.make 0 0 0)) ->
  (forall bc id, In bc (Config.branches cfg) -> BranchConfig.prerelease bc = Some id ->
                 forallb (cmem no_flags Version.ident_chars) id = true) ->
  VersionCalculator.calculate_next_version fnmatch wildmatch cfg git commits
    current_version branch_name max_bump = (Some v, log) ->
  Version.parse (Version.str v) = Ok v.
Proof.
  intros Hcur Hids H. apply parse_str.
  unfold VersionCalculator.calculate_next_version in H.
  destruct (Config.get_branch_config fnmatch cfg branch_name) as [bc|] eqn:Ebc;
    [|discriminate H].
  destruct (BumpType_eqb max_bump NONE); [discriminate H|].
  destruct (truthy (BranchConfig.prerelease bc)) eqn:Et; injection H as <- <-.
  - unfold VersionCalculator._calculate_prerelease_version.
    apply with_prerelease_canonical.
    + apply bump_nonneg. apply latest_stable_nonneg.
    + destruct (BranchConfig.prerelease bc) as [id|] eqn:Ep; [|discriminate Et].
      cbn [get]. apply (Hids bc id); [|exact Ep].
      unfold Config.get_branch_config in Ebc. apply find_some in Ebc as [Hin _].
      exact Hin.
  - assert (Hn : nonneg (Version.bump
                           match current_version with
                           | Some cv => Version.make (Version.major cv) (Version.minor cv)
                                          (Version.patch cv)
                           | None => Version.make 0 0 0
                           end max_bump)).
    { apply bump_nonneg. destruct current_version as [cv|]; exact Hcur. }
    destruct Hn as (Ha & Hb & Hc). unfold canonical.
    rewrite (proj1 (bump_clears _ _)), (proj2 (bump_clears _ _)).
    repeat split; assumption.
Qed.

Lemma next_version_reparses_witness :
  Version.parse (Version.str (Version.with_prerelease (Version.make 1 2 1) (txt "dev") 3))
  = Ok (Version.with_prerelease (Version.make 1 2 1) (txt "dev") 3).
Proof.
  apply (next_version_reparses fnmatch_glob glob Config.DEFAULT_CONFIG dev_git []
           None (txt "dev") PATCH _ []).
  - unfold nonneg. cbn. lia.
  - intros bc id [<-|[<-|[<-|[<-|[]]]]] H; try discriminate H;
      injection H as <-; reflexivity.
  - vm_compute. reflexivity.
Defined.

(** ** The tag of a new prerelease *)

Lemma own_tag_carries_counter wildmatch git base id n :
  nonneg base -> simple_id id ->
  In (Version.str (Version.with_prerelease base id n))
     (GitHelper.get_tags_matching wildmatch git
        (Version.str base ++ txt "-" ++ id ++ txt ".*")) ->
  carries_counter wildmatch git base id
    (Version.str (Version.with_prerelease base id n)) n.
Proof.
  intros Hb (Hid & Hchars & Hdot) Hin. split; [exact Hin|].
  exists (Version.with_prerelease base id n),
    (id ++ txt "." ++ str_int n), (str_int n), [].
  split; [|split; [reflexivity|split]].
  - apply parse_str. apply with_prerelease_canonical; assumption.
  - cbn [txt list_ascii_of_string app].
    rewrite split_on_app_sep by exact Hdot.
    rewrite split_on_no_sep by (apply str_int_ident). reflexivity.
  - apply py_int_str_int_any.
Qed.

(** ** format_tag *)

Lemma replace_from_skip old new a t :
  replace_from old new (length a) (a ++ t) = replace_from old new O t.
Proof.
  induction a as [|x a IH]; [reflexivity|].
  cbn [length app replace_from]. exact IH.
Qed.

Lemma starts_with_self p t : starts_with p (p ++ t) = true.
Proof. apply starts_with_spec. exists t. reflexivity. Qed.

Lemma replace_from_hit c old new t :
  replace_from (c :: old) new O ((c :: old) ++ t)
  = new ++ replace_from (c :: old) new O t.
Proof.
  change ((c :: old) ++ t) with (c :: (old ++ t)).
  cbn [replace_from].
  change (c :: (old ++ t)) with ((c :: old) ++ t).
  rewrite starts_with_self. cbn [length Nat.pred].
  rewrite replace_from_skip. reflexivity.
Qed.

Lemma replace_from_miss c old new s t :
  ~ In c s ->
  replace_from (c :: old) new O (s ++ t) = s ++ replace_from (c :: old) new O t.
Proof.
  induction s as [|x s IH]; intros Hn; [reflexivity|].
  change ((x :: s) ++ t) with (x :: (s ++ t)).
  cbn [replace_from starts_with].
  destruct (Ascii.eqb c x) eqn:E.
  - apply Ascii.eqb_eq in E. subst x. exfalso. apply Hn. left. reflexivity.
  - cbn [andb]. rewrite IH; [reflexivity|]. intros H. apply Hn. right. exact H.
Qed.

Lemma format_tag_template cfg v prefix suffix :
  Config.tag_format cfg = prefix ++ txt "${version}" ++ suffix ->
  ~ In "$"%char prefix -> ~ In "$"%char suffix ->
  VersionCalculator.format_tag cfg v = prefix ++ Version.str v ++ suffix.
Proof.
  intros Hf Hp Hs. unfold VersionCalculator.format_tag. rewrite Hf.
  cbn [txt list_ascii_of_string replace].
  rewrite replace_from_miss by exact Hp.
  match goal with
  | |- context [replace_from ?o _ O (?o ++ suffix)] => rewrite (replace_from_hit "$" (tl o))
  end.
  rewrite <- (app_nil_r suffix) at 1.
  rewrite replace_from_miss by exact Hs. cbn [replace_from].
  rewrite app_nil_r. reflexivity.
Qed.

(** X12. With a tag format made of [v]s followed by [${version}], such as
    the default [${version}] or [v${version}], the tag that [format_tag]
    writes for a well-formed version is those [v]s followed by the version,
    and [Version.parse] reads the version back from it. *)
Theorem format_tag_parses_back (cfg : Config.t) (n : nat) (v : Version.t) :
  Config.tag_format cfg = repeat "v"%char n ++ txt "${version}" ->
  canonical v ->
  VersionCalculator.format_tag cfg v = repeat "v"%char n ++ Version.str v
  /\ Version.parse (VersionCalculator.format_tag cfg v) = Ok v.
Proof.
  intros Hf Hc.
  assert (Ht : VersionCalculator.format_tag cfg v = repeat "v"%char n ++ Version.str v).
  { rewrite (format_tag_template cfg v (repeat "v"%char n) []).
    - rewrite app_nil_r. reflexivity.
    - rewrite app_nil_r. exact Hf.
    - intros H. apply repeat_spec in H. discriminate H.
    - intros []. }
  split; [exact Ht|].
  rewrite Ht, parse_ignores_leading_vs. apply parse_str. exact Hc.
Qed.

Lemma format_tag_parses_back_witness :
  VersionCalculator.format_tag Config.DEFAULT_CONFIG
    (Version.with_prerelease (Version.make 1 2 1) (txt "dev") 3)
  = txt "1.2.1-dev.3"
  /\ Version.parse (VersionCalculator.format_tag Config.DEFAULT_CONFIG
                      (Version.with_prerelease (Version.make 1 2 1) (txt "dev") 3))
     = Ok (Version.with_prerelease (Version.make 1 2 1) (txt "dev") 3).
Proof.
  apply (format_tag_parses_back Config.DEFAULT_CONFIG 0).
  - reflexivity.
  - unfold canonical. cbn. repeat split; try lia; discriminate.
Defined.

(** ** The tag written for a new prerelease *)

(** X11. With the default tag format [${version}], a new prerelease never
    reuses a tag: for a branch identifier that is one dot-free segment over
    [[0-9A-Za-z-]], the tag that [format_tag] writes for the version that
    [_calculate_prerelease_version] returns is not among the tags that
    [git tag -l '{base}-{id}.*'] lists; so when that pattern matches the new
    tag, as a glob does, the repository has no tag of that name yet.  The
    tag format matters: with [v${version}] and the tags v1.2.0 and
    v1.2.1-dev.1, the tag of the next prerelease of [dev] is v1.2.1-dev.1
    again. *)
Theorem prerelease_tag_is_new (wildmatch : text -> text -> bool) (cfg : Config.t)
    (git : GitHelper.t) (commits : list ParsedCommit.t) (max_bump : BumpType)
    (id : text) :
  Config.tag_format cfg = txt "${version}" ->
  simple_id id ->
  let v := VersionCalculator._calculate_prerelease_version wildmatch git commits
             max_bump id in
  let base := Version.bump
                (get (VersionCalculator._get_latest_stable_version wildmatch git)
                     (Version.make 0 0 0)) max_bump in
  let tag := VersionCalculator.format_tag cfg v in
  (~ In tag
        (GitHelper.get_tags_matching wildmatch git
           (Version.str base ++ txt "-" ++ id ++ txt ".*"))
   /\ (wildmatch (Version.str base ++ txt "-" ++ id ++ txt ".*") tag = true ->
       ~ In tag (GitHelper.tags git)))
  /\ In (VersionCalculator.format_tag v_config
           (VersionCalculator._calculate_prerelease_version glob v_git [] PATCH
              (txt "dev")))
        (GitHelper.tags v_git).
Proof.
  intros Hfmt Hid v base tag. split; [|vm_compute; auto].
  assert (Ht : tag = Version.str v).
  { subst tag. rewrite (format_tag_template cfg v [] []).
    - rewrite app_nil_r. reflexivity.
    - rewrite app_nil_r. exact Hfmt.
    - intros [].
    - intros []. }
  rewrite Ht. clear Ht tag.
  assert (Hnew : ~ In (Version.str v)
                      (GitHelper.get_tags_matching wildmatch git
                         (Version.str base ++ txt "-" ++ id ++ txt ".*"))).
  { intros Hin. subst v. unfold VersionCalculator._calculate_prerelease_version in Hin.
    fold base in Hin.
    set (c := VersionCalculator._get_prerelease_counter wildmatch git base id []) in *.
    assert (Hb : nonneg base) by (apply bump_nonneg, latest_stable_nonneg).
    pose proof (own_tag_carries_counter wildmatch git base id c Hb Hid Hin) as Hc.
    destruct (next_counter_computed wildmatch git base id []) as [[_ Hmax]|[Hno _]].
    - specialize (Hmax _ _ Hc). fold c in Hmax. lia.
    - exact (Hno _ _ Hc). }
  split; [exact Hnew|].
  intros Hw Hin. apply Hnew. apply in_get_tags_matching.
  split; [exact Hin|]. split; [exact Hw|].
  rewrite version_str_parts. destruct (str_int_shape (Version.major v)) as [Hne _].
  - subst v. unfold VersionCalculator._calculate_prerelease_version.
    cbn [Version.with_prerelease Version.major].
    apply (bump_nonneg _ max_bump (latest_stable_nonneg wildmatch git)).
  - destruct (str_int (Version.major v)); [congruence|discriminate].
Qed.

Lemma prerelease_tag_is_new_witness :
  ~ In (VersionCalculator.format_tag Config.DEFAULT_CONFIG
          (VersionCalculator._calculate_prerelease_version glob dev_git [] PATCH
             (txt "dev")))
       (GitHelper.tags dev_git).
Proof.
  assert (Hid : simple_id (txt "dev")).
  { split; [discriminate|]. split; [reflexivity|]. cbn. intuition discriminate. }
  apply (proj2 (proj1 (prerelease_tag_is_new glob Config.DEFAULT_CONFIG dev_git []
                         PATCH (txt "dev") eq_refl Hid))).
  vm_compute. reflexivity.
Defined.

(** ** Tags written with a prefix *)

Lemma format_tag_head cfg v c rest :
  Config.tag_format cfg = c :: rest -> c <> "$"%char ->
  exists t, VersionCalculator.format_tag cfg v = c :: t.
Proof.
  intros Hf Hc. unfold VersionCalculator.format_tag. rewrite Hf.
  cbn [txt list_ascii_of_string replace replace_from starts_with].
  destruct (Ascii.eqb "$" c) eqn:E.
  - apply Ascii.eqb_eq in E. congruence.
  - cbn [andb]. eexists. reflexivity.
Qed.

Lemma str_int_head z :
  0 <= z -> exists c t, str_int z = c :: t /\ is_digit c = true.
Proof.
  intros Hz. destruct (str_int_shape z Hz) as [Hne Hd].
  destruct (str_int z) as [|c t]; [congruence|].
  exists c, t. split; [reflexivity|].
  cbn [forallb] in Hd. apply andb_true_iff in Hd as [Hd _]. exact Hd.
Qed.

Section PrefixedTags.

Variable wildmatch : text -> text -> bool.

(** A pattern that begins with a digit matches only names that begin with
    that digit, as in every glob dialect. *)
Hypothesis wildmatch_digit_head :
  forall c p name, is_digit c = true -> wildmatch (c :: p) name = true ->
                   exists name', name = c :: name'.

Variable cfg : Config.t.
Variable git : GitHelper.t.

Lemma counter_pattern_misses base id branch :
  nonneg base ->
  (forall tag, In tag (GitHelper.tags git) ->
               exists c t, tag = c :: t /\ is_digit c = false) ->
  VersionCalculator._get_prerelease_counter wildmatch git base id branch = 1.
Proof.
  intros (Ha & _) Htags. unfold VersionCalculator._get_prerelease_counter.
  destruct (GitHelper.get_tags_matching wildmatch git _) as [|tag l] eqn:E;
    [reflexivity|].
  exfalso.
  assert (Hin : In tag (GitHelper.get_tags_matching wildmatch git
                          (Version.str base ++ txt "-" ++ id ++ txt ".*")))
    by (rewrite E; left; reflexivity).
  apply in_get_tags_matching in Hin as (Hin & Hw & _).
  destruct (Htags tag Hin) as (c & t & -> & Hc).
  rewrite version_str_parts in Hw.
  destruct (str_int_head (Version.major base) Ha) as (d & ds & Hs & Hd).
  rewrite Hs in Hw. cbn [app] in Hw.
  apply (wildmatch_digit_head d) in Hw as (name' & Hn); [|exact Hd].
  injection Hn as -> _. congruence.
Qed.

(** X13. With a tag format that puts a character other than a digit before
    the version, such as [v${version}], the prerelease counter does not
    advance: when every tag of the repository was written by [format_tag],
    [git tag -l '{base}-{id}.*'] lists none of them, and the prerelease
    version is again [{base}-{id}.1]. *)
Theorem prefixed_tags_restart_counter (commits : list ParsedCommit.t)
    (max_bump : BumpType) (id : text) (c : ascii) (rest : text) :
  Config.tag_format cfg = c :: rest -> c <> "$"%char -> is_digit c = false ->
  (forall tag, In tag (GitHelper.tags git) ->
               exists v, tag = VersionCalculator.format_tag cfg v) ->
  VersionCalculator._calculate_prerelease_version wildmatch git commits max_bump id
  = Version.with_prerelease
      (Version.bump (get (VersionCalculator._get_latest_stable_version wildmatch git)
                         (Version.make 0 0 0)) max_bump)
      id 1.
Proof.
  intros Hf Hc Hd Htags. unfold VersionCalculator._calculate_prerelease_version.
  rewrite counter_pattern_misses; [reflexivity| |].
  - apply bump_nonneg. apply latest_stable_nonneg.
  - intros tag Hin. destruct (Htags tag Hin) as (v & ->).
    destruct (format_tag_head cfg v c rest Hf Hc) as (t & ->).
    exists c, t. split; [reflexivity|exact Hd].
Qed.

End PrefixedTags.

Lemma glob_digit_head c p name :
  is_digit c = true -> glob (c :: p) name = true -> exists name', name = c :: name'.
Proof.
  intros Hd H.
  assert (Hc : Ascii.eqb c "*" = false /\ Ascii.eqb c "?" = false).
  { destruct c as [[] [] [] [] [] [] [] []]; vm_compute in Hd; try discriminate;
      split; reflexivity. }
  destruct Hc as [Hs Hq]. cbn [glob] in H. rewrite Hs, Hq in H.
  destruct name as [|x name]; [discriminate H|].
  cbn [orb] in H. apply andb_true_iff in H as [H _].
  apply Ascii.eqb_eq in H. subst x. eexists. reflexivity.
Qed.

Lemma prefixed_tags_restart_counter_witness :
  VersionCalculator._calculate_prerelease_version glob v_git [] PATCH (txt "dev")
  = Version.with_prerelease (Version.make 1 2 1) (txt "dev") 1.
Proof.
  rewrite (prefixed_tags_restart_counter glob glob_digit_head v_config v_git []
             PATCH (txt "dev") "v" (txt "${version}")).
  - vm_compute. reflexivity.
  - reflexivity.
  - discriminate.
  - reflexivity.
  - intros tag [<-|[<-|[]]].
    + exists (Version.make 1 2 0). vm_compute. reflexivity.
    + exists (Version.with_prerelease (Version.make 1 2 1) (txt "dev") 1).
      vm_compute. reflexivity.
Defined.




(** ** Stripping white space *)

Lemma drop_while_head p s :
  drop_while p s = [] \/ exists x t, drop_while p s = x :: t /\ p x = false.
Proof.
  induction s as [|x s IH]; [left; reflexivity|].
  cbn [drop_while]. destruct (p x) eqn:E; [exact IH|].
  right. exists x, s. split; [reflexivity|exact E].
Qed.

Lemma drop_while_app_all p a r : forallb p a = true -> drop_while p (a ++ r) = drop_while p r.
Proof.
  induction a as [|x a IH]; intros H; [reflexivity|].
  cbn [forallb] in H. apply andb_true_iff in H as [Hx Ha].
  cbn [app drop_while]. rewrite Hx. apply IH. exact Ha.
Qed.

Lemma drop_while_app_stop p s b x t :
  drop_while p s = x :: t -> drop_while p (s ++ b) = x :: t ++ b.
Proof.
  induction s as [|y s IH]; [discriminate|].
  cbn [app drop_while]. destruct (p y); [exact IH|].
  intros H. injection H as -> ->. reflexivity.
Qed.

Lemma drop_while_keeps_last p l x :
  p x = false -> exists a, drop_while p (l ++ [x]) = a ++ [x].
Proof.
  intros Hx. induction l as [|y l IH]; cbn [app drop_while].
  - rewrite Hx. exists []. reflexivity.
  - destruct (p y); [exact IH|]. exists (y :: l). reflexivity.
Qed.

Lemma strip_ends s :
  strip s = [] \/ exists b x, strip s = b ++ [x] /\ is_space x = false.
Proof.
  unfold strip.
  destruct (drop_while_head is_space (rev (drop_while is_space s)))
    as [->|(x & t & -> & Hx)]; [left; reflexivity|].
  right. exists (rev t), x. split; [reflexivity|exact Hx].
Qed.

Lemma strip_starts s :
  strip s = [] \/ exists x t, strip s = x :: t /\ is_space x = false.
Proof.
  unfold strip.
  destruct (drop_while_head is_space s) as [->|(x & t & -> & Hx)]; [left; reflexivity|].
  right. cbn [rev].
  destruct (drop_while_keeps_last is_space (rev t) x Hx) as (a & ->).
  exists x, (rev a). split; [|exact Hx].
  rewrite rev_app_distr. reflexivity.
Qed.

Lemma strip_fixed x t b y :
  is_space x = false -> is_space y = false -> x :: t = b ++ [y] ->
  strip (x :: t) = x :: t.
Proof.
  intros Hx Hy E. unfold strip. cbn [drop_while]. rewrite Hx.
  rewrite E, rev_app_distr. cbn [rev app drop_while]. rewrite Hy.
  change (y :: rev b) with (rev [y] ++ rev b).
  rewrite <- rev_app_distr, rev_involutive. reflexivity.
Qed.

Lemma strip_idem s : strip (strip s) = strip s.
Proof.
  destruct (strip_starts s) as [->|(x & t & E & Hx)]; [reflexivity|].
  destruct (strip_ends s) as [E'|(b & y & E' & Hy)]; [congruence|].
  rewrite E. apply (strip_fixed x t b y Hx Hy). congruence.
Qed.

(** [strip] does not see white space around its argument *)
Lemma strip_pad a s b :
  forallb is_space a = true -> forallb is_space b = true ->
  strip (a ++ s ++ b) = strip s.
Proof.
  intros Ha Hb. unfold strip. rewrite drop_while_app_all by exact Ha.
  destruct (drop_while is_space s) as [|x t] eqn:E.
  - assert (Hs : forallb is_space s = true).
    { clear -E. induction s as [|y s IH]; [reflexivity|].
      cbn [drop_while] in E. cbn [forallb].
      destruct (is_space y); [exact (IH E)|discriminate E]. }
    rewrite drop_while_app_all by exact Hs.
    rewrite <- (app_nil_r b), drop_while_app_all by exact Hb. reflexivity.
  - rewrite (drop_while_app_stop _ _ b _ _ E).
    change (x :: t ++ b) with ((x :: t) ++ b).
    rewrite rev_app_distr, drop_while_app_all; [reflexivity|].
    rewrite forallb_forall in *. intros c Hc. apply Hb. apply in_rev. exact Hc.
Qed.

(** X15. White space around a commit message changes nothing: the parser
    returns the same commit, and the validator the same findings, for the
    message with any white space put before or after it. *)
Theorem surrounding_space_ignored (cfg : Config.t) (before msg after sha : text) :
  forallb is_space before = true -> forallb is_space after = true ->
  ConventionalCommitParser.parse cfg (before ++ msg ++ after) sha
  = ConventionalCommitParser.parse cfg msg sha
  /\ CommitMessageValidator.validate cfg (before ++ msg ++ after)
     = CommitMessageValidator.validate cfg msg
  /\ CommitMessageValidator.is_valid cfg (before ++ msg ++ after)
     = CommitMessageValidator.is_valid cfg msg.
Proof.
  intros Hb Ha.
  unfold CommitMessageValidator.is_valid, ConventionalCommitParser.parse,
    CommitMessageValidator.validate.
  rewrite (strip_pad before msg after Hb Ha). repeat split; reflexivity.
Qed.

Lemma surrounding_space_ignored_witness :
  ConventionalCommitParser.parse Config.DEFAULT_CONFIG
    ([LF; " "%char] ++ txt "fix: x" ++ [" "%char; LF; LF]) []
  = ConventionalCommitParser.parse Config.DEFAULT_CONFIG (txt "fix: x") []
  /\ CommitMessageValidator.validate Config.DEFAULT_CONFIG
       ([LF; " "%char] ++ txt "fix: x" ++ [" "%char; LF; LF])
     = CommitMessageValidator.validate Config.DEFAULT_CONFIG (txt "fix: x")
  /\ CommitMessageValidator.is_valid Config.DEFAULT_CONFIG
       ([LF; " "%char] ++ txt "fix: x" ++ [" "%char; LF; LF])
     = CommitMessageValidator.is_valid Config.DEFAULT_CONFIG (txt "fix: x").
Proof.
  apply (surrounding_space_ignored Config.DEFAULT_CONFIG); vm_compute; reflexivity.
Defined.

(** ** What the header pattern captures *)

(** A match only moves forward in the subject. *)
Lemma run_rest fl r : forall st st',
  In st' (run fl r st) -> exists m, rest st = m ++ rest st'.
Proof.
  induction r as [| |s|c|min c|r IH|name r IH|r1 IH1 r2 IH2]; intros st st' H;
    cbn [run] in H.
  - destruct (at_bol fl st); [|destruct H]. destruct H as [<-|[]]. exists []. reflexivity.
  - destruct (at_eol fl st); [|destruct H]. destruct H as [<-|[]]. exists []. reflexivity.
  - destruct (eat fl s (seen st) (rest st)) as [[sn rs]|] eqn:E; [|destruct H].
    destruct H as [<-|[]]. apply eat_spec in E as (m & E & _). exists m. exact E.
  - destruct (rest st) as [|x rs]; [destruct H|].
    destruct (cmem fl c x); [|destruct H]. destruct H as [<-|[]].
    exists [x]. reflexivity.
  - apply rep_spec in H as (m & E & _). exists m. exact E.
  - apply in_app_iff in H as [H|[<-|[]]]; [exact (IH _ _ H)|]. exists []. reflexivity.
  - apply in_map_iff in H as (st0 & <- & H). exact (IH _ _ H).
  - apply in_flat_map in H as (st1 & H1 & H2).
    destruct (IH1 _ _ H1) as (m1 & E1). destruct (IH2 _ _ H2) as (m2 & E2).
    exists (m1 ++ m2). rewrite E1, E2, app_assoc. reflexivity.
Qed.

Lemma in_group_rep_rest fl name min c st st' :
  In st' (run fl (Group name (Rep min c)) st) ->
  exists m, rest st = m ++ rest st'
            /\ forallb (cmem fl c) m = true /\ (min <= length m)%nat
            /\ groups st' = (name, m) :: groups st.
Proof.
  intros H. destruct (in_group_rep fl name min c st st' H) as (m & Hall & Hmin & Hg).
  cbn [run] in H. apply in_map_iff in H as (st0 & <- & H).
  apply rep_spec in H as (m' & Hrs & _ & _ & _ & Hgs).
  exists m'. cbn [capture rest]. split; [exact Hrs|].
  unfold capture in Hg. cbn [groups] in Hg. rewrite Hgs in Hg.
  injection Hg as Hg.
  rewrite Hrs, length_app, Nat.add_sub, firstn_app, Nat.sub_diag, firstn_all, firstn_O,
    app_nil_r in Hg.
  subst m'. split; [exact Hall|]. split; [exact Hmin|].
  unfold capture. cbn [groups]. rewrite Hgs, Hrs, length_app, Nat.add_sub,
    firstn_app, Nat.sub_diag, firstn_all, firstn_O, app_nil_r. reflexivity.
Qed.

Lemma in_rep_groups fl min c st st' :
  In st' (run fl (Rep min c) st) -> groups st' = groups st.
Proof. cbn [run]. intros H. apply rep_spec in H as (m & _ & _ & _ & _ & Hg). exact Hg. Qed.

(** The parts of a header that the parser's pattern matches *)
Lemma commit_pattern_parts h m :
  In m (run MULTILINE ConventionalCommitParser.COMMIT_PATTERN (start h)) ->
  exists ty subj pre,
    (ty <> [] /\ forallb is_word ty = true)
    /\ group "type" (groups m) = Some ty
    /\ (forall s, group "scope" (groups m) = Some s ->
                  s <> [] /\ ~ In ")"%char s /\ exists a b, h = a ++ s ++ b)
    /\ group "subject" (groups m) = Some subj
    /\ subj <> []
    /\ h = pre ++ subj ++ rest m
    /\ at_eol MULTILINE m = true.
Proof.
  unfold ConventionalCommitParser.COMMIT_PATTERN. intros Hin.
  cbn [run] in Hin.
  apply in_flat_map in Hin as (st1 & H1 & Hin).
  assert (st1 = start h) as ->.
  { destruct (at_bol MULTILINE (start h)); [|destruct H1].
    destruct H1 as [<-|[]]. reflexivity. }
  apply in_flat_map in Hin as (st2 & H2 & Hin).
  apply (in_group_rep_rest MULTILINE "type" 1 w_) in H2 as (ty & R2 & Hty & Hlty & G2).
  apply in_flat_map in Hin as (st3 & H3 & Hin).
  assert (Hsc : (exists m3, rest st2 = m3 ++ rest st3)
                /\ (groups st3 = groups st2
                    \/ exists s, s <> [] /\ ~ In ")"%char s
                                 /\ (exists a b, rest st2 = a ++ s ++ b)
                                 /\ groups st3 = ("scope"%string, s) :: groups st2)).
  { split.
    { exact (run_rest MULTILINE
               (Opt (Str (txt "(") >> Group "scope" (Rep 1 not_rparen) >> Str (txt ")")))
               _ _ H3). }
    apply in_app_iff in H3 as [H3|[<-|[]]]; [|left; reflexivity].
    apply in_flat_map in H3 as (sa & Ha & H3).
    pose proof (run_rest MULTILINE (Str (txt "(")) _ _ Ha) as (ma & Ra).
    apply (in_str_groups MULTILINE (txt "(")) in Ha.
    apply in_flat_map in H3 as (sb & Hb & H3).
    apply (in_group_rep_rest MULTILINE "scope" 1 not_rparen) in Hb
      as (s & Rb & Hs & Hls & Gb).
    apply (in_str_groups MULTILINE (txt ")")) in H3.
    right. exists s. split; [destruct s; [cbn in Hls; lia|discriminate]|].
    split; [|split; [exists ma, (rest sb); rewrite Ra, Rb; reflexivity
                    |rewrite H3, Gb, Ha; reflexivity]].
    intros Hr. rewrite forallb_forall in Hs. apply Hs in Hr.
    rewrite cmem_not_rparen in Hr. discriminate Hr. }
  destruct Hsc as [(m3 & R3) G3].
  apply in_flat_map in Hin as (st4 & H4 & Hin).
  pose proof (run_rest MULTILINE (Rep 0 s_) _ _ H4) as (m4 & R4).
  apply (in_rep_groups MULTILINE 0 s_) in H4.
  apply in_flat_map in Hin as (st5 & H5 & Hin).
  pose proof (run_rest MULTILINE (Str (txt ":")) _ _ H5) as (m5 & R5).
  apply (in_str_groups MULTILINE (txt ":")) in H5.
  apply in_flat_map in Hin as (st6 & H6 & Hin).
  pose proof (run_rest MULTILINE (Rep 0 s_) _ _ H6) as (m6 & R6).
  apply (in_rep_groups MULTILINE 0 s_) in H6.
  apply in_flat_map in Hin as (st7 & H7 & Hin).
  apply (in_group_rep_rest MULTILINE "subject" 1 dot_) in H7
    as (subj & R7 & _ & Hlsubj & G7).
  assert (m = st7 /\ at_eol MULTILINE st7 = true) as [-> Heol].
  { destruct (at_eol MULTILINE st7) eqn:E; [|destruct Hin].
    destruct Hin as [<-|[]]. split; reflexivity. }
  exists ty, subj, (ty ++ m3 ++ m4 ++ m5 ++ m6).
  split.
  { split; [destruct ty; [cbn in Hlty; lia|discriminate]|].
    rewrite <- Hty. apply forallb_ext_eq. intros x. symmetry. apply cmem_word. }
  assert (Gs : groups st7
               = ("subject"%string, subj) :: groups st3) by
    (rewrite G7, H6, H5, H4; reflexivity).
  cbn [start groups] in G2.
  split; [|split; [|split; [|split; [|split]]]].
  - rewrite Gs. destruct G3 as [G3|(s & _ & _ & _ & G3)]; rewrite G3, G2; reflexivity.
  - intros s. rewrite Gs.
    destruct G3 as [G3|(s' & Hs1 & Hs2 & (a & b & Hs3) & G3)]; rewrite G3, G2;
      cbn [group String.eqb Ascii.eqb Bool.eqb]; intros E; [discriminate E|].
    injection E as <-. split; [exact Hs1|]. split; [exact Hs2|].
    exists (ty ++ a), b. cbn [start rest] in R2. rewrite R2, Hs3, <- !app_assoc.
    reflexivity.
  - rewrite Gs. reflexivity.
  - destruct subj; [cbn in Hlsubj; lia|discriminate].
  - cbn [start rest] in R2. rewrite R2, R3, R4, R5, R6, R7, <- !app_assoc. reflexivity.
  - exact Heol.
Qed.

Lemma re_match_in fl r s m : re_match fl r s = Some m -> In m (run fl r (start s)).
Proof.
  unfold re_match. destruct (run fl r (start s)); [discriminate|].
  intros H. injection H as ->. left. reflexivity.
Qed.

Lemma split_on_head_no_sep sep s : ~ In sep (hd [] (split_on sep s)).
Proof.
  induction s as [|x s IH]; cbn [split_on]; [intros []|].
  destruct (Ascii.eqb x sep) eqn:E; [intros []|].
  pose proof (split_on_not_nil sep s) as Hn.
  destruct (split_on sep s) as [|l ls]; [congruence|].
  cbn [hd] in *. intros [H|H]; [|exact (IH H)].
  subst x. rewrite Ascii.eqb_refl in E. discriminate.
Qed.

Lemma in_strip x s : In x (strip s) -> In x s.
Proof.
  intros H. destruct (strip_infix s) as (a & b & E). rewrite E.
  apply in_or_app. right. apply in_or_app. left. exact H.
Qed.

Lemma header_of_one_line msg : ~ In LF (header_of msg).
Proof.
  unfold header_of. intros H. apply in_strip in H.
  exact (split_on_head_no_sep LF (strip msg) H).
Qed.

Lemma lower_char_facts c :
  lower_char (lower_char c) = lower_char c
  /\ (is_word c = true -> is_word (lower_char c) = true).
Proof.
  assert (H : all_ascii (fun c =>
             Ascii.eqb (lower_char (lower_char c)) (lower_char c)
             && implb (is_word c) (is_word (lower_char c))) = true)
    by (vm_compute; reflexivity).
  pose proof (all_ascii_spec _ H c) as Hc. cbv beta in Hc.
  apply andb_true_iff in Hc as [H1 H2]. apply Ascii.eqb_eq in H1.
  split; [exact H1|]. intros Hw. rewrite Hw in H2. exact H2.
Qed.

(** The match of a one-line header ends at the end of the header. *)
Lemma commit_pattern_to_end h m :
  ~ In LF h ->
  In m (run MULTILINE ConventionalCommitParser.COMMIT_PATTERN (start h)) ->
  rest m = [].
Proof.
  intros Hlf Hin.
  destruct (commit_pattern_parts h m Hin) as (ty & subj & pre & _ & _ & _ & _ & _ & Hh & He).
  unfold at_eol in He. destruct (rest m) as [|x tl]; [reflexivity|].
  apply andb_true_iff in He as [He _]. apply Ascii.eqb_eq in He. subst x.
  exfalso. apply Hlf. rewrite Hh. apply in_or_app. right. apply in_or_app. right.
  left. reflexivity.
Qed.

(** X16. The fields of a parsed commit.  The SHA is the one given; the type
    is a non-empty run of word characters without upper-case letters; a scope,
    when there is one, is non-empty and holds neither a closing parenthesis nor
    a newline; the subject is non-empty, one line, and has no white space at
    either end; the body has no white space at either end. *)
Theorem parsed_commit_fields (cfg : Config.t) (msg sha : text) (commit : ParsedCommit.t) :
  ConventionalCommitParser.parse cfg msg sha = Some commit ->
  ParsedCommit.sha commit = sha
  /\ (ParsedCommit.type commit <> []
      /\ forallb is_word (ParsedCommit.type commit) = true
      /\ lower (ParsedCommit.type commit) = ParsedCommit.type commit)
  /\ (forall s, ParsedCommit.scope commit = Some s ->
                s <> [] /\ ~ In ")"%char s /\ ~ In LF s)
  /\ (ParsedCommit.subject commit <> []
      /\ ~ In LF (ParsedCommit.subject commit)
      /\ strip (ParsedCommit.subject commit) = ParsedCommit.subject commit)
  /\ strip (ParsedCommit.body commit) = ParsedCommit.body commit.
Proof.
  intros H. pose proof (header_of_one_line msg) as Hlf.
  pose proof (strip_ends (hd [] (split_on LF (strip msg)))) as Hend.
  unfold ConventionalCommitParser.parse in H. unfold header_of in Hlf.
  destruct (split_on LF (strip msg)) as [|line0 lines1]; [discriminate H|].
  cbn [hd] in Hlf, Hend.
  destruct (re_match MULTILINE ConventionalCommitParser.COMMIT_PATTERN (strip line0))
    as [m|] eqn:Hm; [|discriminate H].
  apply re_match_in in Hm.
  pose proof (commit_pattern_to_end _ _ Hlf Hm) as Hrest.
  destruct (commit_pattern_parts _ _ Hm)
    as (ty & subj & pre & (Hty1 & Hty2) & Gt & Gs & Gj & Hsubj & Hh & _).
  rewrite Hrest, app_nil_r in Hh.
  injection H as <-.
  cbn [ParsedCommit.sha ParsedCommit.type ParsedCommit.scope ParsedCommit.subject
       ParsedCommit.body].
  rewrite Gt, Gj. cbn [get].
  assert (Hin : forall x, In x subj -> In x (strip line0)).
  { intros x Hx. rewrite Hh. apply in_or_app. right. exact Hx. }
  split; [reflexivity|]. split; [|split; [|split]].
  - split; [destruct ty; [congruence|discriminate]|]. split.
    + unfold lower. rewrite forallb_forall in *. intros x Hx.
      apply in_map_iff in Hx as (y & <- & Hy). apply lower_char_facts. apply Hty2. exact Hy.
    + unfold lower. rewrite map_map. apply map_ext. intros x. apply lower_char_facts.
  - intros s Hs. destruct (Gs s Hs) as (Hs1 & Hs2 & a & b & Hs3).
    split; [exact Hs1|]. split; [exact Hs2|].
    intros Hl. apply Hlf. rewrite Hs3. apply in_or_app. right. apply in_or_app. left.
    exact Hl.
  - assert (Hne : strip subj <> []).
    { destruct Hend as [E|(b & x & E & Hx)].
      - rewrite E in Hh. destruct pre; destruct subj; try discriminate Hh. congruence.
      - rewrite E in Hh.
        destruct (exists_last Hsubj) as (b' & y & Eb). rewrite Eb, app_assoc in Hh.
        apply app_inj_tail in Hh as [_ <-]. rewrite Eb. unfold strip.
        destruct (drop_while_keeps_last is_space b' x Hx) as (a & ->).
        rewrite rev_app_distr. cbn [rev app drop_while]. rewrite Hx.
        intros H. apply (f_equal (@rev ascii)) in H. rewrite rev_involutive in H.
        cbn [rev] in H. destruct (rev (rev a)); discriminate H. }
    split; [exact Hne|]. split; [|apply strip_idem].
    intros Hl. apply in_strip in Hl. apply Hlf. apply Hin. exact Hl.
  - apply strip_idem.
Qed.

Lemma parsed_commit_fields_witness :
  exists commit,
    ConventionalCommitParser.parse Config.DEFAULT_CONFIG
      (txt "Feat(core) :   add the thing  ") (txt "abc1234") = Some commit
    /\ ParsedCommit.type commit = txt "feat"
    /\ ParsedCommit.subject commit = txt "add the thing"
    /\ strip (ParsedCommit.subject commit) = ParsedCommit.subject commit.
Proof.
  eexists. split; [vm_compute; reflexivity|].
  split; [reflexivity|]. split; [reflexivity|].
  apply (parsed_commit_fields Config.DEFAULT_CONFIG
           (txt "Feat(core) :   add the thing  ") (txt "abc1234")).
  vm_compute. reflexivity.
Defined.

(** ** The parser's headers and the validator's *)

Lemma parser_match_is_validator_match h m :
  ~ In LF h ->
  In m (run MULTILINE ConventionalCommitParser.COMMIT_PATTERN (start h)) ->
  In m (run no_flags CommitMessageValidator.COMMIT_PATTERN (start h)).
Proof.
  intros Hlf Hin. pose proof (commit_pattern_to_end h m Hlf Hin) as Hrest.
  unfold ConventionalCommitParser.COMMIT_PATTERN in Hin.
  unfold CommitMessageValidator.COMMIT_PATTERN.
  cbn [run] in Hin. cbn [run].
  apply in_flat_map in Hin as (st1 & H1 & Hin).
  apply in_flat_map. exists st1. split; [exact H1|].
  apply in_flat_map in Hin as (st2 & H2 & Hin).
  apply in_flat_map. exists st2. split; [exact H2|].
  apply in_flat_map in Hin as (st3 & H3 & Hin).
  apply in_flat_map. exists st3. split; [exact H3|].
  apply in_flat_map. exists st3. split; [apply in_or_app; right; left; reflexivity|].
  apply in_flat_map in Hin as (st4 & H4 & Hin).
  apply in_flat_map. exists st4. split; [exact H4|].
  apply in_flat_map in Hin as (st5 & H5 & Hin).
  apply in_flat_map. exists st5. split; [exact H5|].
  apply in_flat_map in Hin as (st6 & H6 & Hin).
  apply in_flat_map. exists st6. split; [exact H6|].
  apply in_flat_map in Hin as (st7 & H7 & Hin).
  apply in_flat_map. exists st7. split; [exact H7|].
  assert (m = st7) as ->.
  { destruct (at_eol MULTILINE st7); [|destruct Hin]. destruct Hin as [<-|[]]. reflexivity. }
  unfold at_eol. rewrite Hrest. left. reflexivity.
Qed.

Lemma validate_header_part cfg msg r :
  In r (CommitMessageValidator.validate cfg msg) ->
  In r (CommitMessageValidator._validate_header cfg (header_of msg))
  \/ ValidationResult.level r <> ValidationLevel.ERROR.
Proof.
  unfold CommitMessageValidator.validate, header_of. intros H.
  pose proof (split_on_not_nil LF (strip msg)) as Hn.
  destruct (split_on LF (strip msg)) as [|line0 lines1]; [congruence|].
  cbn [hd]. apply in_app_iff in H as [H|H]; [left; exact H|right].
  destruct lines1 as [|l ls]; [destruct H|].
  destruct (strip (join [LF] (l :: ls))) as [|c body]; [destruct H|].
  exact (body_findings_level _ _ _ _ H).
Qed.

(** X17. A message that the parser turns into a commit passes the format
    check of the validator: its header matches the validator's pattern, and
    [validate] does not report that the header fails to match the format,
    whatever the configuration.  The converse does not hold: the default
    configuration finds [feat!: drop old api] valid, and the parser returns
    nothing for it. *)
Theorem parsed_message_passes_format_check (cfg cfg' : Config.t) (msg sha : text)
    (commit : ParsedCommit.t) :
  ConventionalCommitParser.parse cfg msg sha = Some commit ->
  is_some (re_match no_flags CommitMessageValidator.COMMIT_PATTERN (header_of msg)) = true
  /\ ~ In (format_error (header_of msg)) (CommitMessageValidator.validate cfg' msg)
  /\ (CommitMessageValidator.is_valid Config.DEFAULT_CONFIG (txt "feat!: drop old api") = true
      /\ ConventionalCommitParser.parse Config.DEFAULT_CONFIG (txt "feat!: drop old api") sha
         = None).
Proof.
  intros H. apply parse_fields in H as (_ & _ & _ & Hm).
  assert (Hv : is_some (re_match no_flags CommitMessageValidator.COMMIT_PATTERN
                          (header_of msg)) = true).
  { destruct (re_match MULTILINE ConventionalCommitParser.COMMIT_PATTERN (header_of msg))
      as [m|] eqn:E; [|discriminate Hm].
    apply re_match_in in E.
    apply (parser_match_is_validator_match _ _ (header_of_one_line msg)) in E.
    unfold re_match. destruct (run no_flags _ _); [destruct E|reflexivity]. }
  split; [exact Hv|]. split; [|split; vm_compute; reflexivity].
  intros Hin. apply validate_header_part in Hin as [Hin|Hin];
    [|apply Hin; reflexivity].
  unfold CommitMessageValidator._validate_header in Hin.
  destruct (re_match no_flags CommitMessageValidator.COMMIT_PATTERN (header_of msg))
    as [m|]; [|discriminate Hv].
  unfold CommitMessageValidator._validate_type,
    CommitMessageValidator._validate_scope,
    CommitMessageValidator._validate_subject,
    CommitMessageValidator._validate_breaking_indicator,
    CommitMessageValidator._validate_header_length in Hin.
  finding_cases Hin; discriminate Hin.
Qed.

Lemma parsed_message_passes_format_check_witness :
  is_some (re_match no_flags CommitMessageValidator.COMMIT_PATTERN
             (header_of (txt "fix(core): handle the empty list"))) = true.
Proof.
  apply (parsed_message_passes_format_check Config.DEFAULT_CONFIG Config.DEFAULT_CONFIG
           (txt "fix(core): handle the empty list") []
           {| ParsedCommit.sha := [];
              ParsedCommit.type := txt "fix";
              ParsedCommit.scope := Some (txt "core");
              ParsedCommit.subject := txt "handle the empty list";
              ParsedCommit.body := [];
              ParsedCommit.breaking := false;
              ParsedCommit.bump := PATCH |}).
  vm_compute. reflexivity.
Defined.

(** ** Grouping commits for the changelog *)

Lemma lookup_append_to key k c g :
  Config.lookup key (ChangelogGenerator.append_to k c g)
  = if text_eqb k key then Some (get (Config.lookup key g) [] ++ [c])
    else Config.lookup key g.
Proof.
  induction g as [|[k' l] g IH]; cbn [ChangelogGenerator.append_to Config.lookup].
  - destruct (text_eqb k key); reflexivity.
  - destruct (text_eqb k' k) eqn:E; cbn [Config.lookup].
    + apply text_eqb_eq in E. subst k'.
      destruct (text_eqb k key); reflexivity.
    + destruct (text_eqb k' key) eqn:E'.
      * destruct (text_eqb k key) eqn:E''; [|reflexivity].
        apply text_eqb_eq in E', E''. subst. rewrite text_eqb_refl in E. discriminate.
      * exact IH.
Qed.

Lemma keys_append_to k c g :
  NoDup (map fst g) -> NoDup (map fst (ChangelogGenerator.append_to k c g))
  /\ forall x, In x (map fst (ChangelogGenerator.append_to k c g))
               -> x = k \/ In x (map fst g).
Proof.
  induction g as [|[k' l] g IH]; cbn [ChangelogGenerator.append_to map fst]; intros Hnd.
  - split; [repeat constructor; intros []|]. intros x [<-|[]]. left. reflexivity.
  - inversion Hnd as [|? ? Hk Hg]; subst.
    destruct (text_eqb k' k) eqn:E; cbn [map fst].
    + split; [exact Hnd|]. intros x Hx. right. exact Hx.
    + destruct (IH Hg) as [IH1 IH2]. split.
      * constructor; [|exact IH1]. intros Hin. apply IH2 in Hin as [->|Hin];
          [rewrite text_eqb_refl in E; discriminate|exact (Hk Hin)].
      * intros x [<-|Hx]; [right; left; reflexivity|].
        apply IH2 in Hx as [->|Hx]; [left; reflexivity|right; right; exact Hx].
Qed.

Lemma group_commits_fold cfg types key commits : forall g,
  NoDup (map fst g) ->
  Config.lookup key
    (fold_left
       (fun grouped commit =>
          let commit_type := ChangelogGenerator.commit_bucket cfg commit in
          if negb (existsb (text_eqb commit_type) types) then grouped
          else ChangelogGenerator.append_to commit_type commit grouped)
       commits g)
  = match Config.lookup key g,
          (if existsb (text_eqb key) types then filed_under cfg key commits else [])
    with
    | None, [] => None
    | o, filed => Some (get o [] ++ filed)
    end
  /\ NoDup (map fst
       (fold_left
          (fun grouped commit =>
             let commit_type := ChangelogGenerator.commit_bucket cfg commit in
             if negb (existsb (text_eqb commit_type) types) then grouped
             else ChangelogGenerator.append_to commit_type commit grouped)
          commits g)).
Proof.
  induction commits as [|c cs IH]; intros g Hnd.
  - cbn [fold_left filed_under filter].
    split; [|exact Hnd].
    destruct (existsb (text_eqb key) types), (Config.lookup key g);
      cbn [get]; rewrite ?app_nil_r; reflexivity.
  - cbn [fold_left]. cbv zeta.
    destruct (existsb (text_eqb (ChangelogGenerator.commit_bucket cfg c)) types) eqn:Ein;
      cbn [negb].
    + destruct (IH (ChangelogGenerator.append_to
                      (ChangelogGenerator.commit_bucket cfg c) c g)
                   (proj1 (keys_append_to _ c g Hnd))) as [IH1 IH2].
      cbv zeta in IH1, IH2.
      split; [|exact IH2].
      rewrite IH1, lookup_append_to.
      unfold filed_under. cbn [filter].
      destruct (text_eqb (ChangelogGenerator.commit_bucket cfg c) key) eqn:Ek.
      * apply text_eqb_eq in Ek. rewrite <- Ek, Ein. cbn [get].
        rewrite <- app_assoc. cbn [app].
        destruct (Config.lookup (ChangelogGenerator.commit_bucket cfg c) g); reflexivity.
      * reflexivity.
    + destruct (IH g Hnd) as [IH1 IH2]. cbv zeta in IH1, IH2.
      split; [|exact IH2].
      rewrite IH1. unfold filed_under. cbn [filter].
      destruct (text_eqb (ChangelogGenerator.commit_bucket cfg c) key) eqn:Ek;
        [|reflexivity].
      apply text_eqb_eq in Ek. rewrite <- Ek, Ein. reflexivity.
Qed.

Lemma commit_bucket_rule cfg c :
  ChangelogGenerator.commit_bucket cfg c
  = if ParsedCommit.breaking c then txt "breaking"
    else match Config.get_commit_type cfg (ParsedCommit.type c) with
         | Some type_config => CommitTypeConfig.name type_config
         | None => ParsedCommit.type c
         end.
Proof.
  unfold ChangelogGenerator.commit_bucket. cbv zeta.
  destruct (ParsedCommit.breaking c); [reflexivity|].
  destruct (Config.get_commit_type cfg (ParsedCommit.type c)) as [tc|]; [|reflexivity].
  destruct (text_eqb (CommitTypeConfig.name tc) (ParsedCommit.type c)) eqn:E;
    [|reflexivity].
  apply text_eqb_eq in E. symmetry. exact E.
Qed.

(** X18. [_group_commits] files every commit once: under [breaking] when it
    is breaking; otherwise under the name of the commit type that the
    configuration gives for its type, so that an alias goes under the name it
    stands for; and under its type as written when the configuration does not
    know it.  The group of a key holds, in the order of the commits, exactly
    the commits so filed under it; a key has a group only when it is among the
    included types and some commit is filed under it; and no key has two
    groups. *)
Theorem group_commits_by_bucket (cfg : Config.t) (changelog_types : list text)
    (commits : list ParsedCommit.t) (key : text) :
  let key_of := fun c =>
    if ParsedCommit.breaking c then txt "breaking"
    else match Config.get_commit_type cfg (ParsedCommit.type c) with
         | Some type_config => CommitTypeConfig.name type_config
         | None => ParsedCommit.type c
         end in
  Config.lookup key (ChangelogGenerator._group_commits cfg changelog_types commits)
  = (if existsb (text_eqb key) changelog_types
     then match filter (fun c => text_eqb (key_of c) key) commits with
          | [] => None
          | filed => Some filed
          end
     else None)
  /\ NoDup (map fst (ChangelogGenerator._group_commits cfg changelog_types commits)).
Proof.
  intros key_of.
  unfold ChangelogGenerator._group_commits.
  destruct (group_commits_fold cfg changelog_types key commits [] (NoDup_nil _))
    as [H1 H2].
  cbv zeta in H1. split; [|exact H2]. rewrite H1. cbn [Config.lookup get app].
  assert (Hf : filed_under cfg key commits
               = filter (fun c => text_eqb (key_of c) key) commits).
  { unfold filed_under. apply filter_ext. intros c.
    rewrite commit_bucket_rule. reflexivity. }
  rewrite Hf.
  destruct (existsb (text_eqb key) changelog_types); [|reflexivity].
  destruct (filter (fun c => text_eqb (key_of c) key) commits); reflexivity.
Qed.

(** ** Project URLs from git remotes *)

Lemma rstrip_chars_ends chars s : ends_in chars (rstrip_chars chars s) = false.
Proof.
  unfold ends_in, rstrip_chars. rewrite rev_involutive.
  destruct (drop_while_head (fun c => has_char c chars) (rev s))
    as [->|(x & t & -> & Hx)]; [reflexivity|exact Hx].
Qed.

Lemma ends_in_app chars a b : b <> [] -> ends_in chars (a ++ b) = ends_in chars b.
Proof.
  intros Hb. unfold ends_in. rewrite rev_app_distr.
  destruct (rev b) as [|x t] eqn:E; [|reflexivity].
  apply (f_equal (@rev ascii)) in E. rewrite rev_involutive in E. contradiction.
Qed.

Lemma rstrip_chars_keeps chars s :
  ends_in chars s = false -> rstrip_chars chars s = s.
Proof.
  unfold ends_in, rstrip_chars. intros H.
  destruct (rev s) as [|x t] eqn:E.
  - apply (f_equal (@rev ascii)) in E. rewrite rev_involutive in E. subst s. reflexivity.
  - cbn [drop_while]. rewrite H, <- E. apply rev_involutive.
Qed.

Lemma rstrip_chars_suffix chars s t :
  forallb (fun c => has_char c chars) t = true ->
  rstrip_chars chars (s ++ t) = rstrip_chars chars s.
Proof.
  intros H. unfold rstrip_chars. rewrite rev_app_distr, drop_while_app_all; [reflexivity|].
  rewrite forallb_forall in *. intros x Hx. apply H. apply in_rev. exact Hx.
Qed.

Lemma skipn_length_app {A} (a b : list A) : skipn (length a) (a ++ b) = b.
Proof. induction a as [|x a IH]; [reflexivity|exact IH]. Qed.

Lemma split_once_spec sep s a b :
  split_once sep s = Some (a, b) -> s = a ++ sep ++ b.
Proof.
  revert a b. induction s as [|c s IH]; intros a b; cbn [split_once].
  - destruct (starts_with sep []) eqn:E; [|discriminate].
    intros H. injection H as <- <-.
    apply starts_with_spec in E as (t & E).
    destruct sep; [reflexivity|discriminate E].
  - destruct (starts_with sep (c :: s)) eqn:E.
    + intros H. injection H as <- <-.
      apply starts_with_spec in E as (t & E). rewrite E, skipn_length_app. reflexivity.
    + destruct (split_once sep s) as [[a' b']|]; [|discriminate].
      intros H. injection H as <- <-. rewrite (IH a' b' eq_refl). reflexivity.
Qed.

Lemma split1_last_suffix sep s : exists a, s = a ++ last (split1 sep s) [].
Proof.
  unfold split1. destruct (split_once sep s) as [[a b]|] eqn:E.
  - apply split_once_spec in E. exists (a ++ sep). cbn [last].
    rewrite <- app_assoc. exact E.
  - exists []. reflexivity.
Qed.

Lemma https_form_ends url :
  ends_in (txt ".git") url = false ->
  ends_in (txt ".git")
    (if negb (starts_with (txt "https://") url)
     then txt "https://" ++ last (split1 (txt "://") url) []
     else url) = false.
Proof.
  intros H. destruct (starts_with (txt "https://") url); cbn [negb]; [exact H|].
  destruct (split1_last_suffix (txt "://") url) as (a & E).
  destruct (last (split1 (txt "://") url) []) as [|x t] eqn:El; [reflexivity|].
  rewrite ends_in_app by discriminate.
  rewrite E, ends_in_app in H by discriminate. exact H.
Qed.

Lemma some_inj {A} (a b : A) : Some a = Some b -> a = b.
Proof. intros H. injection H as H. exact H. Qed.

Lemma ends_in_prefixed chars pre s :
  ends_in chars pre = false -> ends_in chars s = false ->
  ends_in chars (pre ++ s) = false.
Proof.
  intros Hp Hs. destruct s as [|x t]; [rewrite app_nil_r; exact Hp|].
  rewrite ends_in_app by discriminate. exact Hs.
Qed.

(** X19. The project URL that [_parse_github_url] or [_parse_gitlab_url]
    reads from a git remote never ends in one of the characters [.], [g],
    [i], [t]: [rstrip('.git')] removes every such character from the end, not
    the suffix [.git] alone.  So a repository whose name ends in one of these
    letters does not get its own URL; for the remote
    [git@github.com:acme/widget.git] the result is
    [https://github.com/acme/widge]. *)
Theorem project_url_never_ends_in_git_letters (remote_url url : text) :
  (Platform._parse_github_url remote_url = Some url -> ends_in (txt ".git") url = false)
  /\ (Platform._parse_gitlab_url remote_url = Some url -> ends_in (txt ".git") url = false)
  /\ Platform._parse_github_url (txt "git@github.com:acme/widget.git")
     = Some (txt "https://github.com/acme/widge").
Proof.
  split; [|split; [|vm_compute; reflexivity]].
  - unfold Platform._parse_github_url.
    destruct (starts_with (txt "git@github.com:") remote_url).
    + intros H. apply some_inj in H. subst url.
      apply ends_in_prefixed; [reflexivity|apply rstrip_chars_ends].
    + destruct (contains (txt "github.com") remote_url); [|discriminate].
      intros H. apply some_inj in H. subst url.
      apply https_form_ends. apply rstrip_chars_ends.
  - unfold Platform._parse_gitlab_url.
    assert (Hssh : forall u,
               (if starts_with (txt "git@") remote_url
                then match split1 (txt ":") (replace (txt "git@") [] remote_url) with
                     | [host; path] =>
                         Some (txt "https://" ++ host ++ txt "/"
                               ++ rstrip_chars (txt ".git") path)
                     | _ => None
                     end
                else None) = Some u ->
               ends_in (txt ".git") u = false).
    { intros u. destruct (starts_with (txt "git@") remote_url); [|discriminate].
      destruct (split1 (txt ":") _) as [|host [|path [|? ?]]]; try discriminate.
      intros H. apply some_inj in H. subst u.
      rewrite !app_assoc. apply ends_in_prefixed; [|apply rstrip_chars_ends].
      rewrite ends_in_app by discriminate. reflexivity. }
    cbv zeta.
    destruct (if starts_with (txt "git@") remote_url then _ else None) as [u|] eqn:E.
    + intros H. apply some_inj in H. subst u. apply Hssh. reflexivity.
    + destruct (contains (txt "gitlab") (lower remote_url)); [|discriminate].
      intros H. apply some_inj in H. subst url.
      apply https_form_ends. apply rstrip_chars_ends.
Qed.

Lemma project_url_never_ends_in_git_letters_witness :
  ends_in (txt ".git") (txt "https://gitlab.example.com/team/toolk") = false.
Proof.
  apply (proj1 (proj2 (project_url_never_ends_in_git_letters
                         (txt "git@gitlab.example.com:team/toolkit.git")
                         (txt "https://gitlab.example.com/team/toolk")))).
  vm_compute. reflexivity.
Defined.

Lemma replace_absent old new s :
  old <> [] -> contains old s = false -> replace old new s = s.
Proof.
  intros Ho. destruct old as [|c old]; [congruence|]. cbn [replace].
  induction s as [|x s IH]; [reflexivity|].
  cbn [contains replace_from]. intros H. apply orb_false_iff in H as [H1 H2].
  rewrite H1, (IH H2). reflexivity.
Qed.

Lemma contains_needs_char c old s : In c old -> ~ In c s -> contains old s = false.
Proof.
  intros Hc Hs. destruct (contains old s) eqn:E; [|reflexivity].
  apply contains_spec in E as (a & b & E). exfalso. apply Hs. rewrite E.
  apply in_or_app. right. apply in_or_app. left. exact Hc.
Qed.

Lemma replace_prefix_once old new t :
  old <> [] -> contains old t = false -> replace old new (old ++ t) = new ++ t.
Proof.
  intros Ho Hc. destruct old as [|c old]; [congruence|].
  cbn [replace]. rewrite replace_from_hit.
  change (replace_from (c :: old) new O t) with (replace (c :: old) new t).
  rewrite replace_absent by assumption. reflexivity.
Qed.

(** X20. For a repository path that does not end in one of [.], [g], [i],
    [t], the two usual GitHub remotes give the project URL: the SSH remote
    [git@github.com:{path}.git], when the path holds no [@], and the HTTPS
    remote [https://github.com/{path}.git] both give
    [https://github.com/{path}]. *)
Theorem github_remote_gives_project_url (path : text) :
  ends_in (txt ".git") path = false -> path <> [] -> ~ In "@"%char path ->
  Platform._parse_github_url (txt "git@github.com:" ++ path ++ txt ".git")
  = Some (txt "https://github.com/" ++ path)
  /\ Platform._parse_github_url (txt "https://github.com/" ++ path ++ txt ".git")
     = Some (txt "https://github.com/" ++ path).
Proof.
  intros He Hne Hat. split.
  - unfold Platform._parse_github_url. rewrite starts_with_self.
    rewrite replace_prefix_once.
    + cbn [app]. rewrite rstrip_chars_suffix by reflexivity.
      rewrite rstrip_chars_keeps by exact He. reflexivity.
    + discriminate.
    + apply (contains_needs_char "@"); [cbn; tauto|].
      intros H. apply in_app_iff in H as [H|H]; [exact (Hat H)|].
      cbn in H. intuition discriminate.
  - unfold Platform._parse_github_url.
    change (starts_with (txt "git@github.com:")
              (txt "https://github.com/" ++ path ++ txt ".git")) with false.
    cbv iota.
    assert (Hc : contains (txt "github.com")
                   (txt "https://github.com/" ++ path ++ txt ".git") = true).
    { apply contains_spec. exists (txt "https://"), (txt "/" ++ path ++ txt ".git").
      reflexivity. }
    rewrite Hc.
    rewrite app_assoc, rstrip_chars_suffix by reflexivity.
    rewrite rstrip_chars_keeps by (rewrite ends_in_app; assumption).
    change (starts_with (txt "https://") (txt "https://github.com/" ++ path)) with true.
    reflexivity.
Qed.

Lemma github_remote_gives_project_url_witness :
  Platform._parse_github_url (txt "git@github.com:acme/parser.git")
  = Some (txt "https://github.com/acme/parser")
  /\ Platform._parse_github_url (txt "https://github.com/acme/parser.git")
     = Some (txt "https://github.com/acme/parser").
Proof.
  apply (github_remote_gives_project_url (txt "acme/parser")).
  - reflexivity.
  - discriminate.
  - cbn. intuition discriminate.
Defined.

(** ** Reading the git log *)

Lemma split_from_skip sep a cur t :
  split_from sep (length a) cur (a ++ t) = split_from sep O cur t.
Proof.
  induction a as [|x a IH]; [reflexivity|].
  cbn [length app split_from]. exact IH.
Qed.

Lemma starts_with_false_contains sep s : contains sep s = false -> starts_with sep s = false.
Proof.
  destruct s; cbn [contains]; intros H; apply orb_false_iff in H as [H _]; exact H.
Qed.

(** A separator that ends in a character it holds nowhere else is found at
    the end of a piece that does not contain it, and not before. *)
Lemma split_from_entry body x rest : ~ In x body ->
  forall e cur,
    contains (body ++ [x]) e = false ->
    split_from (body ++ [x]) O cur (e ++ (body ++ [x]) ++ rest)
    = (rev cur ++ e) :: split_from (body ++ [x]) O [] rest.
Proof.
  intros Hx. induction e as [|c e IH]; intros cur Hc.
  - cbn [app]. rewrite app_nil_r.
    destruct (body ++ [x]) as [|y sep'] eqn:E; [destruct body; discriminate E|].
    change ((y :: sep') ++ rest) with (y :: (sep' ++ rest)).
    cbn [split_from].
    change (y :: (sep' ++ rest)) with ((y :: sep') ++ rest).
    rewrite starts_with_self. cbn [length Nat.pred].
    rewrite split_from_skip. reflexivity.
  - change ((c :: e) ++ (body ++ [x]) ++ rest) with (c :: (e ++ (body ++ [x]) ++ rest)).
    cbn [split_from].
    assert (Hs : starts_with (body ++ [x]) (c :: e ++ (body ++ [x]) ++ rest) = false).
    { destruct (starts_with _ _) eqn:Es; [|reflexivity]. exfalso.
      apply starts_with_spec in Es as (t & Es).
      pose proof (starts_with_false_contains _ _ Hc) as Hn.
      change (c :: e ++ (body ++ [x]) ++ rest) with ((c :: e) ++ (body ++ [x]) ++ rest) in Es.
      apply app_eq_app in Es as (l & [[E1 E2]|[E1 E2]]).
      - assert (Ht : starts_with (body ++ [x]) (c :: e) = true)
          by (apply starts_with_spec; exists l; exact E1).
        congruence.
      - destruct l as [|l0 l].
        + rewrite app_nil_r in E1.
          assert (Ht : starts_with (body ++ [x]) (c :: e) = true)
            by (apply starts_with_spec; exists []; rewrite app_nil_r; symmetry; exact E1).
          congruence.
        + symmetry in E2. apply app_eq_app in E2 as (l' & [[E3 E4]|[E3 E4]]).
          * apply (f_equal (@length ascii)) in E1, E3.
            rewrite !length_app in E1, E3. cbn [length] in E1, E3. lia.
          * assert (Hl' : l' <> []).
            { intros ->. rewrite app_nil_r in E3.
              apply (f_equal (@length ascii)) in E1. rewrite E3 in E1.
              rewrite length_app in E1. cbn [length] in E1. lia. }
            destruct (exists_last Hl') as (l'' & z & ->).
            rewrite app_assoc in E3. apply app_inj_tail in E3 as [Eb _].
            destruct (exists_last (l:=l0 :: l) ltac:(discriminate)) as (l1 & z' & El).
            rewrite El in E1.
            rewrite app_assoc in E1. apply app_inj_tail in E1 as [_ Ez].
            apply Hx. rewrite Eb, El, Ez.
            apply in_or_app. left. apply in_or_app. right. left. reflexivity. }
    rewrite Hs.
    cbn [contains] in Hc. apply orb_false_iff in Hc as [_ Hc].
    rewrite (IH (c :: cur) Hc). cbn [rev]. rewrite <- app_assoc. reflexivity.
Qed.

Lemma drop_while_split p s :
  exists a, s = a ++ drop_while p s /\ forallb p a = true.
Proof.
  induction s as [|x s IH]; [exists []; split; reflexivity|].
  cbn [drop_while]. destruct (p x) eqn:E.
  - destruct IH as (a & Ha & Hp). exists (x :: a). split.
    + cbn [app]. rewrite <- Ha. reflexivity.
    + cbn [forallb]. rewrite E. exact Hp.
  - exists []. split; reflexivity.
Qed.

(** Stripping what follows a text that ends in a visible character *)
Lemma strip_after a y msg :
  a <> [] -> forallb (fun c => negb (is_space c)) (a ++ [y]) = true ->
  exists m, strip ((a ++ [y]) ++ msg) = (a ++ [y]) ++ m /\ strip m = strip msg.
Proof.
  intros Ha Hv.
  exists (rev (drop_while is_space (rev msg))). split.
  - unfold strip.
    assert (Hd : drop_while is_space ((a ++ [y]) ++ msg) = (a ++ [y]) ++ msg).
    { destruct a as [|x a]; [congruence|].
      cbn [app forallb] in *. apply andb_true_iff in Hv as [Hx _].
      apply negb_true_iff in Hx. cbn [drop_while]. rewrite Hx. reflexivity. }
    rewrite Hd, rev_app_distr.
    assert (Hy : is_space y = false).
    { rewrite forallb_app in Hv. apply andb_true_iff in Hv as [_ Hv].
      cbn [forallb] in Hv. rewrite andb_true_r in Hv. apply negb_true_iff. exact Hv. }
    destruct (drop_while is_space (rev msg)) as [|x t] eqn:E.
    + destruct (drop_while_split is_space (rev msg)) as (ws & Hw & Hs).
      rewrite E, app_nil_r in Hw. rewrite Hw, drop_while_app_all by exact Hs.
      rewrite rev_app_distr. cbn [rev app drop_while]. rewrite Hy.
      change (y :: rev a) with (rev [y] ++ rev a).
      rewrite <- rev_app_distr, rev_involutive, app_nil_r. reflexivity.
    + rewrite (drop_while_app_stop _ _ _ _ _ E).
      change (x :: t ++ rev (a ++ [y])) with ((x :: t) ++ rev (a ++ [y])).
      rewrite rev_app_distr, rev_involutive. reflexivity.
  - destruct (drop_while_split is_space (rev msg)) as (ws & Hw & Hs).
    apply (f_equal (@rev ascii)) in Hw. rewrite rev_involutive, rev_app_distr in Hw.
    rewrite Hw at 2. symmetry.
    rewrite <- (app_nil_l (rev (drop_while is_space (rev msg)) ++ rev ws)).
    apply strip_pad; [reflexivity|].
    rewrite forallb_forall in *. intros c Hc. apply Hs. apply in_rev. exact Hc.
Qed.

Lemma split_once_first c sep h t :
  ~ In c h -> split_once (c :: sep) (h ++ (c :: sep) ++ t) = Some (h, t).
Proof.
  intros Hh. induction h as [|y h IH].
  - cbn [app]. change (c :: sep ++ t) with ((c :: sep) ++ t).
    destruct ((c :: sep) ++ t) eqn:E; [discriminate E|]. rewrite <- E.
    cbn [split_once]. rewrite E. cbn [split_once]. rewrite <- E.
    rewrite starts_with_self, skipn_length_app. reflexivity.
  - change ((y :: h) ++ (c :: sep) ++ t) with (y :: (h ++ (c :: sep) ++ t)).
    cbn [split_once starts_with].
    destruct (Ascii.eqb c y) eqn:E.
    + apply Ascii.eqb_eq in E. subst y. exfalso. apply Hh. left. reflexivity.
    + cbn [andb]. rewrite IH; [reflexivity|]. intros H. apply Hh. right. exact H.
Qed.

Lemma log_entry_read h msg :
  plain_sha h ->
  (let raw := strip (log_entry (h, msg)) in
   match raw with
   | [] => []
   | _ :: _ =>
       match split1 (txt "|||") raw with
       | [part0; part1] => [ (strip part0, strip part1) ]
       | _ => []
       end
   end) = [ (h, strip msg) ].
Proof.
  intros (Hne & Hv & Hbar). unfold log_entry. cbn [fst snd txt list_ascii_of_string].
  assert (Hsplit : h ++ txt "|||" = (h ++ txt "||") ++ ["|"%char])
    by (rewrite <- app_assoc; reflexivity).
  destruct (strip_after (h ++ txt "||") "|" msg) as (m & Hs & Hm).
  { destruct h; [congruence|discriminate]. }
  { rewrite <- Hsplit, forallb_app, Hv. reflexivity. }
  rewrite <- Hsplit, <- app_assoc in Hs. cbn [txt list_ascii_of_string] in Hs.
  cbv zeta. rewrite Hs, <- app_assoc.
  destruct (h ++ ["|"%char; "|"%char; "|"%char] ++ m) as [|r0 r] eqn:E.
  { destruct h; [congruence|discriminate E]. }
  rewrite <- E. unfold split1.
  rewrite (split_once_first "|" ["|"%char; "|"%char] h m Hbar).
  rewrite strip_no_space by exact Hv. rewrite Hm. reflexivity.
Qed.

Lemma log_read_translated out commits :
  (forall c, In c commits ->
             plain_sha (fst c) /\ contains END_MARK (log_entry c) = false) ->
  universal_newlines out = git_log_output commits ->
  GitHelper.get_commits_since_tag (Some out)
  = map (fun c => (fst c, strip (snd c))) commits.
Proof.
  intros H Hout.
  unfold GitHelper.get_commits_since_tag. cbv zeta. rewrite Hout. clear Hout out.
  unfold split_str.
  change (txt "---END---" ++ [LF]) with END_MARK.
  induction commits as [|[h msg] cs IH]; [reflexivity|].
  destruct (H (h, msg) (or_introl eq_refl)) as [Hsha Hc].
  unfold git_log_output. cbn [map concat]. fold (git_log_output cs).
  rewrite <- app_assoc.
  unfold END_MARK at 1 2.
  rewrite (split_from_entry (txt "---END---") LF (git_log_output cs)).
  - cbn [rev app flat_map]. fold END_MARK.
    pose proof (log_entry_read h msg Hsha) as Hr. cbv zeta in Hr. rewrite Hr.
    cbn [app map fst snd]. f_equal.
    apply IH. intros c Hin. apply H. right. exact Hin.
  - cbn. intuition discriminate.
  - exact Hc.
Qed.

(** *** Universal newlines *)

Lemma newlines_from_head st b :
  starts_with [LF] b = false -> newlines_from st b = universal_newlines b.
Proof.
  unfold universal_newlines. destruct b as [|c b]; [reflexivity|].
  cbn [starts_with newlines_from]. rewrite andb_true_r. intros E.
  rewrite Ascii.eqb_sym in E. rewrite E. reflexivity.
Qed.

Lemma newlines_from_app a b : forall st,
  starts_with [LF] b = false ->
  newlines_from st (a ++ b) = newlines_from st a ++ universal_newlines b.
Proof.
  induction a as [|c a IH]; intros st Hb.
  - apply newlines_from_head. exact Hb.
  - cbn [app newlines_from].
    destruct (Ascii.eqb c CR); [rewrite IH by exact Hb; reflexivity|].
    destruct (Ascii.eqb c LF); [destruct st|]; rewrite IH by exact Hb; reflexivity.
Qed.

Lemma newlines_plain s : ~ In CR s -> universal_newlines s = s.
Proof.
  unfold universal_newlines. induction s as [|c s IH]; intros Hn; [reflexivity|].
  cbn [newlines_from].
  destruct (Ascii.eqb c CR) eqn:E.
  - apply Ascii.eqb_eq in E. subst c. exfalso. apply Hn. left. reflexivity.
  - rewrite IH by (intros Hin; apply Hn; right; exact Hin).
    destruct (Ascii.eqb c LF) eqn:E'; [|reflexivity].
    apply Ascii.eqb_eq in E'. subst c. reflexivity.
Qed.

Lemma plain_sha_no_newline h :
  plain_sha h -> ~ In CR h /\ forall t, starts_with [LF] (h ++ t) = false.
Proof.
  intros (Hne & Hv & _). split.
  - intros Hin. rewrite forallb_forall in Hv. specialize (Hv _ Hin). discriminate Hv.
  - intros t. destruct h as [|c h]; [congruence|].
    cbn [forallb] in Hv. apply andb_true_iff in Hv as [Hc _].
    cbn [app starts_with]. rewrite andb_true_r.
    destruct (Ascii.eqb LF c) eqn:E; [|reflexivity].
    apply Ascii.eqb_eq in E. subst c. discriminate Hc.
Qed.

Lemma newlines_log_entry h msg :
  plain_sha h ->
  universal_newlines (log_entry (h, msg)) = log_entry (h, universal_newlines msg).
Proof.
  intros Hs. destruct (plain_sha_no_newline h Hs) as [Hcr _].
  unfold log_entry. cbn [fst snd]. unfold universal_newlines at 1.
  rewrite newlines_from_app by reflexivity.
  fold (universal_newlines h). rewrite (newlines_plain h Hcr). reflexivity.
Qed.

Lemma newlines_git_log commits :
  (forall c, In c commits -> plain_sha (fst c)) ->
  universal_newlines (git_log_output commits)
  = git_log_output (map (fun c => (fst c, universal_newlines (snd c))) commits).
Proof.
  induction commits as [|[h msg] cs IH]; intros H; [reflexivity|].
  unfold git_log_output. cbn [map concat fst snd].
  fold (git_log_output cs).
  fold (git_log_output (map (fun c => (fst c, universal_newlines (snd c))) cs)).
  unfold universal_newlines at 1. rewrite newlines_from_app.
  - rewrite newlines_from_app by reflexivity.
    fold (universal_newlines (log_entry (h, msg))).
    rewrite (newlines_log_entry h msg (H (h, msg) (or_introl eq_refl))).
    rewrite IH by (intros c Hin; apply H; right; exact Hin).
    reflexivity.
  - destruct cs as [|[h' msg'] cs']; [reflexivity|].
    unfold git_log_output. cbn [map concat]. unfold log_entry. cbn [fst snd].
    rewrite <- !app_assoc.
    apply (plain_sha_no_newline h'). apply (H (h', msg')). right. left. reflexivity.
Qed.

(** X21. [get_commits_since_tag] reads the log back as Python hands it
    over.  The output of git is read in text mode, so [CR LF] and a lone [CR]
    in it arrive as [LF].  When no entry of the log, so read, contains the end
    mark [---END---] followed by a newline, and the hashes are printed without
    white space or [|], the commits returned are those of the log, in its
    order, each with its hash and with its message in which the newlines are
    so translated, stripped of surrounding white space; [|||] inside a message
    does no harm.  For messages without [CR] that is the message itself,
    stripped.  When the command fails, no commit is returned. *)
Theorem log_is_read_back (commits : list (text * text)) :
  (forall c, In c commits ->
             plain_sha (fst c)
             /\ contains END_MARK (universal_newlines (log_entry c)) = false) ->
  GitHelper.get_commits_since_tag (Some (git_log_output commits))
  = map (fun c => (fst c, strip (universal_newlines (snd c)))) commits
  /\ ((forall c, In c commits -> ~ In CR (snd c)) ->
      GitHelper.get_commits_since_tag (Some (git_log_output commits))
      = map (fun c => (fst c, strip (snd c))) commits)
  /\ GitHelper.get_commits_since_tag None = [].
Proof.
  intros H.
  assert (Hread : GitHelper.get_commits_since_tag (Some (git_log_output commits))
                  = map (fun c => (fst c, strip (universal_newlines (snd c)))) commits).
  { rewrite (log_read_translated (git_log_output commits)
               (map (fun c => (fst c, universal_newlines (snd c))) commits)).
    - rewrite map_map. reflexivity.
    - intros c' Hin. apply in_map_iff in Hin as ([h msg] & <- & Hin).
      destruct (H _ Hin) as [Hs Hc]. cbn [fst snd] in *.
      split; [exact Hs|]. rewrite <- newlines_log_entry by exact Hs. exact Hc.
    - apply newlines_git_log. intros c Hin. apply (H c Hin). }
  split; [exact Hread|]. split; [|reflexivity].
  intros Hcr. rewrite Hread. apply map_ext_in.
  intros c Hin. rewrite (newlines_plain _ (Hcr c Hin)). reflexivity.
Qed.

Lemma log_is_read_back_witness :
  GitHelper.get_commits_since_tag
    (Some (git_log_output
             [ (txt "1a2b3c4", txt "fix: a ||| b" ++ [LF; LF]);
               (txt "5d6e7f8", txt "feat: c" ++ [CR; LF] ++ txt "more" ++ [CR]) ]))
  = [ (txt "1a2b3c4", txt "fix: a ||| b");
      (txt "5d6e7f8", txt "feat: c" ++ [LF] ++ txt "more") ].
Proof.
  apply (proj1 (log_is_read_back
                  [ (txt "1a2b3c4", txt "fix: a ||| b" ++ [LF; LF]);
                    (txt "5d6e7f8", txt "feat: c" ++ [CR; LF] ++ txt "more" ++ [CR]) ]
                  ltac:(intros c [<-|[<-|[]]]; (split; [split; [discriminate|split;
                          [reflexivity|cbn; intuition discriminate]]|reflexivity])))).
Defined.

(** ** Lines of a text *)



Lemma split_on_pieces sep s l : In l (split_on sep s) -> ~ In sep l.
Proof.
  revert l. induction s as [|x s IH]; intros l; cbn [split_on].
  - intros [<-|[]] [].
  - destruct (Ascii.eqb x sep) eqn:E.
    + intros [<-|H]; [intros []|exact (IH l H)].
    + pose proof (split_on_not_nil sep s) as Hn.
      destruct (split_on sep s) as [|l0 ls]; [congruence|].
      intros [<-|H].
      * intros [Hx|Hx]; [subst x; rewrite Ascii.eqb_refl in E; discriminate|].
        exact (IH l0 (or_introl eq_refl) Hx).
      * exact (IH l (or_intror H)).
Qed.



(** ** Reading a changelog entry back *)

















(** ** The previous version in the changelog *)

Lemma hashes_header_start m t :
  m <> [] -> forallb (Ascii.eqb "#") m = true -> header_start (m ++ txt " [" ++ t) = true.
Proof.
  intros Hne Hall. destruct m as [|x m]; [congruence|].
  pose proof Hall as Hx. cbn [forallb] in Hx. apply andb_true_iff in Hx as [Hx _].
  apply Ascii.eqb_eq in Hx. subst x.
  unfold header_start.
  change (("#"%char :: m) ++ txt " [" ++ t) with ("#"%char :: (m ++ txt " [" ++ t)).
  cbv iota.
  change ("#"%char :: (m ++ txt " [" ++ t)) with (("#"%char :: m) ++ txt " [" ++ t).
  rewrite drop_while_app_all by exact Hall. reflexivity.
Qed.

Lemma version_header_needs_start sn line more :
  one_line line -> header_start line = false ->
  run MULTILINE ChangelogGenerator.VERSION_HEADER (pos sn (line ++ LF :: more)) = [].
Proof.
  intros Hl Hh.
  destruct (run MULTILINE ChangelogGenerator.VERSION_HEADER (pos sn (line ++ LF :: more)))
    as [|st l] eqn:E; [reflexivity|].
  exfalso.
  assert (Hin : In st (run MULTILINE ChangelogGenerator.VERSION_HEADER
                         (pos sn (line ++ LF :: more))))
    by (rewrite E; left; reflexivity).
  clear E. unfold ChangelogGenerator.VERSION_HEADER in Hin. cbn [run] in Hin.
  apply in_flat_map in Hin as (st1 & H1 & Hin).
  assert (st1 = pos sn (line ++ LF :: more)) as ->.
  { destruct (at_bol MULTILINE (pos sn (line ++ LF :: more))); [|destruct H1].
    destruct H1 as [<-|[]]. reflexivity. }
  apply in_flat_map in Hin as (st2 & H2 & Hin).
  apply rep_spec in H2 as (m & Hm & _ & Hall & Hlen & _).
  apply in_flat_map in Hin as (st3 & H3 & _).
  destruct (eat MULTILINE (txt " [") (seen st2) (rest st2)) as [[sn' rs]|] eqn:Ee;
    [|destruct H3].
  apply eat_spec in Ee as (m' & Hm' & _ & Hlit). unfold lit_eq in Hlit. cbn in Hlit.
  subst m'. cbn [pos rest] in Hm. rewrite Hm' in Hm.
  assert (Hhash : forallb (Ascii.eqb "#") m = true).
  { rewrite forallb_forall in *. intros x Hx. specialize (Hall x Hx).
    unfold cmem in Hall. rewrite item_mem_lit_case in Hall by reflexivity.
    rewrite Ascii.eqb_sym. exact Hall. }
  assert (Hne : m <> []) by (destruct m; [cbn in Hlen; lia|discriminate]).
  rewrite app_assoc in Hm.
  apply app_eq_app in Hm as (k & [[E1 E2]|[E1 E2]]).
  - pose proof (hashes_header_start m k Hne Hhash) as Hhs.
    cbn [txt list_ascii_of_string] in Hhs.
    rewrite E1, <- app_assoc, Hhs in Hh. discriminate Hh.
  - destruct k as [|y k].
    + pose proof (hashes_header_start m [] Hne Hhash) as Hhs.
      cbn [txt list_ascii_of_string app] in Hhs.
      rewrite app_nil_r in E1. rewrite <- E1, Hhs in Hh. discriminate Hh.
    + injection E2 as <- _.
      assert (Hlf : In LF (m ++ [" "%char; "["%char])).
      { rewrite E1. apply in_or_app. right. left. reflexivity. }
      apply in_app_iff in Hlf as [Hlf|Hlf].
      * rewrite forallb_forall in Hhash. apply Hhash in Hlf. discriminate Hlf.
      * cbn in Hlf. intuition discriminate.
Qed.

Lemma version_header_needs_bol x sn rs :
  x <> LF -> run MULTILINE ChangelogGenerator.VERSION_HEADER (pos (x :: sn) rs) = [].
Proof.
  intros Hx. unfold ChangelogGenerator.VERSION_HEADER. cbn [run at_bol pos seen multiline
    MULTILINE andb].
  destruct (Ascii.eqb x LF) eqn:E; [apply Ascii.eqb_eq in E; congruence|reflexivity].
Qed.

Lemma search_inside_line more : forall line x sn,
  x <> LF -> one_line line ->
  search_from MULTILINE ChangelogGenerator.VERSION_HEADER (x :: sn) (line ++ LF :: more)
  = search_from MULTILINE ChangelogGenerator.VERSION_HEADER
      (LF :: rev line ++ x :: sn) more.
Proof.
  induction line as [|y line IH]; intros x sn Hx Hl.
  - cbn [app search_from]. fold (pos (x :: sn) (LF :: more)).
    rewrite version_header_needs_bol by exact Hx. reflexivity.
  - cbn [app search_from]. fold (pos (x :: sn) (y :: line ++ LF :: more)).
    rewrite version_header_needs_bol by exact Hx.
    rewrite IH.
    + cbn [rev]. rewrite <- app_assoc. reflexivity.
    + intros ->. apply Hl. left. reflexivity.
    + intros H. apply Hl. right. exact H.
Qed.

Lemma search_skips_line sn line more :
  one_line line -> header_start line = false ->
  search_from MULTILINE ChangelogGenerator.VERSION_HEADER sn (line ++ LF :: more)
  = search_from MULTILINE ChangelogGenerator.VERSION_HEADER (LF :: rev line ++ sn) more.
Proof.
  intros Hl Hh. pose proof (version_header_needs_start sn line more Hl Hh) as Hr.
  destruct line as [|y line].
  - cbn [app search_from] in *. unfold pos in Hr. rewrite Hr. reflexivity.
  - cbn [app search_from] in *. unfold pos in Hr. rewrite Hr.
    rewrite search_inside_line.
    + cbn [rev]. rewrite <- app_assoc. reflexivity.
    + intros ->. apply Hl. left. reflexivity.
    + intros H. apply Hl. right. exact H.
Qed.

Lemma search_skips_lines more : forall pre sn,
  line_start sn ->
  (forall l, In l pre -> one_line l /\ header_start l = false) ->
  exists sn',
    line_start sn'
    /\ search_from MULTILINE ChangelogGenerator.VERSION_HEADER sn
         (concat (map (fun l => l ++ [LF]) pre) ++ more)
       = search_from MULTILINE ChangelogGenerator.VERSION_HEADER sn' more.
Proof.
  induction pre as [|l pre IH]; intros sn Hs Hpre.
  - exists sn. split; [exact Hs|reflexivity].
  - cbn [map concat]. rewrite <- !app_assoc. cbn [app].
    destruct (Hpre l (or_introl eq_refl)) as [Hl Hh].
    rewrite search_skips_line by assumption.
    apply IH.
    + right. eexists. reflexivity.
    + intros l' Hl'. apply Hpre. right. exact Hl'.
Qed.

Lemma eat_self fl s : forall sn rs,
  ignorecase fl = false -> eat fl s sn (s ++ rs) = Some (rev s ++ sn, rs).
Proof.
  induction s as [|a s IH]; intros sn rs Hfl; [reflexivity|].
  cbn [app eat]. rewrite item_mem_lit_case by exact Hfl. rewrite Ascii.eqb_refl.
  rewrite IH by exact Hfl. cbn [rev]. rewrite <- app_assoc. reflexivity.
Qed.

Lemma first_str fl s sn rs gs :
  ignorecase fl = false ->
  first_is fl (Str s) {| seen := sn; rest := s ++ rs; groups := gs |}
                      {| seen := rev s ++ sn; rest := rs; groups := gs |}.
Proof.
  intros Hfl. unfold first_is. cbn [run seen rest groups].
  rewrite eat_self by exact Hfl. eexists. reflexivity.
Qed.

Lemma first_rep fl min c sn m rs' gs :
  forallb (cmem fl c) m = true -> (min <= length m)%nat -> stops (cmem fl c) rs' ->
  first_is fl (Rep min c)
    {| seen := sn; rest := m ++ rs'; groups := gs |}
    {| seen := rev m ++ sn; rest := rs'; groups := gs |}.
Proof.
  intros Hall Hmin Hstop. unfold first_is. cbn [run seen rest groups].
  exact (rep_greedy (cmem fl c) gs rs' m min sn Hall Hmin Hstop).
Qed.

(** At the start of a line, the header of an entry is matched, and the
    group is the text between the brackets. *)
Lemma version_header_first sn s tail :
  line_start sn -> s <> [] -> ~ In "]"%char s ->
  exists st others,
    run MULTILINE ChangelogGenerator.VERSION_HEADER
      (pos sn (txt "# [" ++ s ++ txt "]" ++ tail)) = st :: others
    /\ group "1" (groups st) = Some s.
Proof.
  intros Hs Hne Hb.
  assert (Hf : first_is MULTILINE ChangelogGenerator.VERSION_HEADER
                 (pos sn (txt "# [" ++ s ++ txt "]" ++ tail))
                 {| seen := rev (txt "]") ++ rev s ++ rev (txt " [") ++ rev (txt "#") ++ sn;
                    rest := tail;
                    groups := [("1"%string, s)] |}).
  { unfold ChangelogGenerator.VERSION_HEADER.
    apply (first_seq _ _ _ _ (pos sn (txt "# [" ++ s ++ txt "]" ++ tail))).
    { unfold first_is. cbn [run]. exists [].
      assert (Hb' : at_bol MULTILINE (pos sn (txt "# [" ++ s ++ txt "]" ++ tail)) = true).
      { unfold at_bol, pos. cbn [seen]. destruct Hs as [->|(t & ->)]; reflexivity. }
      rewrite Hb'. reflexivity. }
    apply (first_seq _ _ _ _ {| seen := rev (txt "#") ++ sn;
                                rest := txt " [" ++ s ++ txt "]" ++ tail;
                                groups := [] |}).
    { apply (first_rep MULTILINE 1 (CItem (ILit "#")) sn (txt "#")); [reflexivity|cbn; lia|].
      reflexivity. }
    apply (first_seq _ _ _ _ {| seen := rev (txt " [") ++ rev (txt "#") ++ sn;
                                rest := s ++ txt "]" ++ tail;
                                groups := [] |}).
    { apply first_str. reflexivity. }
    apply (first_seq _ _ _ _ {| seen := rev s ++ rev (txt " [") ++ rev (txt "#") ++ sn;
                                rest := txt "]" ++ tail;
                                groups := [("1"%string, s)] |}).
    { apply first_group_rep.
      - rewrite forallb_forall. intros x Hx. unfold cmem. cbn [existsb xorb orb].
        rewrite item_mem_lit_case by reflexivity.
        destruct (Ascii.eqb x "]") eqn:E; [|reflexivity].
        apply Ascii.eqb_eq in E. subst x. contradiction.
      - destruct s; [congruence|cbn; lia].
      - reflexivity. }
    apply first_str. reflexivity. }
  destruct Hf as (others & Hf). eexists. exists others. split; [exact Hf|reflexivity].
Qed.

Lemma join_lines_app pre more :
  more <> [] ->
  join [LF] (pre ++ more) = concat (map (fun l => l ++ [LF]) pre) ++ join [LF] more.
Proof.
  intros Hr. induction pre as [|l pre IH]; [reflexivity|].
  cbn [app map concat]. rewrite <- app_assoc, <- IH.
  destruct (pre ++ more) as [|t l0] eqn:E.
  - destruct pre; [cbn in E; congruence|discriminate E].
  - change (join [LF] (l :: t :: l0)) with (l ++ [LF] ++ join [LF] (t :: l0)).
    rewrite app_assoc. reflexivity.
Qed.

Lemma ident_chars_no_bracket s :
  forallb (cmem no_flags Version.ident_chars) s = true -> ~ In "]"%char s.
Proof.
  intros H Hin. rewrite forallb_forall in H. apply H in Hin. discriminate Hin.
Qed.

Lemma version_str_no_bracket v :
  canonical v -> Version.str v <> [] /\ ~ In "]"%char (Version.str v).
Proof.
  intros (Ha & _ & _ & Hp & Hb). rewrite version_str_parts. split.
  - destruct (str_int_shape (Version.major v) Ha) as [Hne _].
    destruct (str_int (Version.major v)); [congruence|discriminate].
  - assert (Ht : forall sep o, sep <> "]"%char -> wf_ident o ->
                               ~ In "]"%char (tail_part sep o)).
    { intros sep [[|c s]|] Hsep Ho; cbn [tail_part].
      - intros [].
      - destruct Ho as [_ Ho]. apply ident_chars_no_bracket in Ho.
        intros [Hx|Hx]; [congruence|exact (Ho Hx)].
      - intros []. }
    assert (Hn : forall z, ~ In "]"%char (str_int z))
      by (intros z; apply ident_chars_no_bracket, str_int_ident).
    intros H.
    apply in_app_iff in H as [H|[H|H]]; [exact (Hn _ H)|discriminate H|].
    apply in_app_iff in H as [H|[H|H]]; [exact (Hn _ H)|discriminate H|].
    apply in_app_iff in H as [H|H]; [exact (Hn _ H)|].
    apply in_app_iff in H as [H|H]; [exact (Ht "-"%char _ ltac:(discriminate) Hp H)|].
    exact (Ht "+"%char _ ltac:(discriminate) Hb H).
Qed.

Lemma previous_version_between v pre e post tail :
  canonical v ->
  (forall l, In l pre -> one_line l /\ header_start l = false) ->
  e = txt "# [" ++ Version.str v ++ txt "]" ++ tail ->
  ChangelogGenerator._get_previous_version (Some (join [LF] (pre ++ [e] ++ post)))
  = Some (Version.str v).
Proof.
  intros Hv Hpre He. destruct (version_str_no_bracket v Hv) as [Hne Hb].
  unfold ChangelogGenerator._get_previous_version, re_search.
  rewrite join_lines_app by discriminate.
  destruct (search_skips_lines (join [LF] ([e] ++ post)) pre [] (or_introl eq_refl) Hpre)
    as (sn' & Hs & ->).
  assert (Hj : exists z, join [LF] ([e] ++ post)
                         = txt "# [" ++ Version.str v ++ txt "]" ++ z).
  { subst e. destruct post as [|q post].
    - exists tail. reflexivity.
    - exists (tail ++ [LF] ++ join [LF] (q :: post)).
      change (join [LF] ([txt "# [" ++ Version.str v ++ txt "]" ++ tail] ++ q :: post))
        with ((txt "# [" ++ Version.str v ++ txt "]" ++ tail)
              ++ [LF] ++ join [LF] (q :: post)).
      rewrite <- !app_assoc. reflexivity. }
  destruct Hj as (z & ->).
  destruct (version_header_first sn' (Version.str v) z Hs Hne Hb) as (st & others & Hr & Hg).
  destruct (txt "# [" ++ Version.str v ++ txt "]" ++ z) as [|c0 t0] eqn:Et;
    [discriminate Et|].
  cbn [search_from]. unfold pos in Hr. rewrite Hr. exact Hg.
Qed.

Lemma generate_entry_text platform project_url v grouped date_str content :
  exists tail,
    ChangelogGenerator._generate_entry platform project_url v grouped date_str content
    = txt "# [" ++ Version.str v ++ txt "]" ++ tail.
Proof.
  unfold ChangelogGenerator._generate_entry. cbv zeta.
  set (sections := flat_map (ChangelogGenerator.type_section platform project_url grouped)
                            ChangelogGenerator.type_order).
  assert (Hj : forall tail,
             join [LF] ([txt "# [" ++ Version.str v ++ txt "]" ++ tail; []] ++ sections)
             = txt "# [" ++ Version.str v ++ txt "]"
               ++ (tail ++ [LF] ++ join [LF] ([] :: sections))).
  { intros tail.
    change (join [LF] ([txt "# [" ++ Version.str v ++ txt "]" ++ tail; []] ++ sections))
      with ((txt "# [" ++ Version.str v ++ txt "]" ++ tail)
            ++ [LF] ++ join [LF] ([] :: sections)).
    rewrite <- !app_assoc. reflexivity. }
  destruct (truthy project_url);
    [destruct (truthy (ChangelogGenerator._get_previous_version content))|];
    eexists; apply Hj.
Qed.

(** X23. After [update] has written the entry of a version, that version is
    the previous version the next entry is compared with: when the version is
    well formed and no line of the changelog before its first version line
    starts like a version header, [_get_previous_version] on the new text
    returns the text of the version. *)
Theorem previous_version_after_update (cfg : Config.t) (changelog_types : list text)
    (platform : Platform.t) (project_url : option text) (v : Version.t)
    (commits : list ParsedCommit.t) (date_str : text) (content : option text) :
  canonical v ->
  (forall old, content = Some old -> plain_preamble old) ->
  ChangelogGenerator._get_previous_version
    (Some (ChangelogGenerator.update cfg changelog_types platform project_url v commits
             date_str content))
  = Some (Version.str v).
Proof.
  intros Hv Hplain.
  destruct (generate_entry_text platform project_url v
              (ChangelogGenerator._group_commits cfg changelog_types commits)
              date_str content) as (tail & He).
  unfold ChangelogGenerator.update. cbv zeta.
  set (e := ChangelogGenerator._generate_entry platform project_url v _ date_str content)
    in *.
  destruct content as [old|].
  - pose proof (Hplain old eq_refl) as Hp. unfold plain_preamble in Hp. cbv zeta in Hp.
    unfold ChangelogGenerator._insert_entry. cbv zeta.
    apply (previous_version_between v _ e _ tail Hv); [|exact He].
    intros l Hl. split; [|exact (Hp l Hl)].
    apply (split_on_pieces LF old).
    rewrite <- (firstn_skipn (ChangelogGenerator.insert_pos (split_on LF old))
                  (split_on LF old)).
    apply in_or_app. left. exact Hl.
  - unfold ChangelogGenerator._create_changelog.
    match goal with
    | |- context [join [LF] [?t1; ?t2; ?t3; ?t4; ?t5; ?t6; ?t7; e]] =>
        change [t1; t2; t3; t4; t5; t6; t7; e] with ([t1; t2; t3; t4; t5; t6; t7] ++ [e] ++ [])
    end.
    apply (previous_version_between v _ e _ tail Hv); [|exact He].
    intros l Hl.
    repeat (destruct Hl as [<-|Hl];
            [split; [unfold one_line; cbn; intuition discriminate|reflexivity]|]).
    destruct Hl.
Qed.

Lemma previous_version_after_update_witness :
  ChangelogGenerator._get_previous_version
    (Some (ChangelogGenerator.update Config.DEFAULT_CONFIG default_changelog_types
             Platform.GITHUB sample_url (Version.make 1 3 0) [sample_commit]
             (txt "2024-05-01") (Some sample_changelog)))
  = Some (txt "1.3.0").
Proof.
  apply (previous_version_after_update Config.DEFAULT_CONFIG default_changelog_types
           Platform.GITHUB sample_url (Version.make 1 3 0) [sample_commit]
           (txt "2024-05-01") (Some sample_changelog)).
  - unfold canonical. cbn. repeat split; lia.
  - intros old H. injection H as <-. unfold plain_preamble. cbv zeta.
    intros line Hin. vm_compute in Hin.
    repeat (destruct Hin as [<-|Hin]; [reflexivity|]). destruct Hin.
Defined.

(** ** The types shown in a changelog entry *)

Lemma lookup_filter_keys {A} (keys : list text) key (d : list (text * A)) :
  existsb (text_eqb key) keys = true ->
  Config.lookup key (filter (fun g => existsb (text_eqb (fst g)) keys) d)
  = Config.lookup key d.
Proof.
  intros Hk. induction d as [|[k v] d IH]; [reflexivity|].
  cbn [filter fst Config.lookup].
  destruct (text_eqb k key) eqn:E.
  - apply text_eqb_eq in E. subst k. rewrite Hk. cbn [Config.lookup].
    rewrite text_eqb_refl. reflexivity.
  - destruct (existsb (text_eqb k) keys); cbn [Config.lookup]; rewrite ?E; exact IH.
Qed.

(** X24. A changelog entry shows the five types [breaking], [feat], [fix],
    [perf] and [revert] and no other: the groups of any other key, although
    [_group_commits] builds them when the key is among the included types,
    leave no trace in the entry. *)
Theorem entry_shows_fixed_types_only (platform : Platform.t) (project_url : option text)
    (v : Version.t) (grouped : list (text * list ParsedCommit.t)) (date_str : text)
    (content : option text) :
  ChangelogGenerator._generate_entry platform project_url v grouped date_str content
  = ChangelogGenerator._generate_entry platform project_url v
      (filter (fun g => existsb (text_eqb (fst g)) ChangelogGenerator.type_order) grouped)
      date_str content.
Proof.
  unfold ChangelogGenerator._generate_entry. cbv zeta. f_equal. f_equal.
  assert (Hext : forall (f g : text -> list text) l,
             (forall a, In a l -> f a = g a) -> flat_map f l = flat_map g l).
  { intros f g l. induction l as [|a l IH]; intros H; [reflexivity|].
    cbn [flat_map]. rewrite (H a (or_introl eq_refl)), IH; [reflexivity|].
    intros b Hb. apply H. right. exact Hb. }
  apply Hext.
  intros key Hkey. unfold ChangelogGenerator.type_section.
  rewrite lookup_filter_keys; [reflexivity|].
  apply existsb_exists. exists key. split; [exact Hkey|apply text_eqb_refl].
Qed.

(** ** Merging a user configuration *)

Lemma lookup_set {A} key k (v : A) d :
  Config.lookup key (Config.set k v d)
  = if text_eqb k key then Some v else Config.lookup key d.
Proof.
  induction d as [|[k' w] d IH]; cbn [Config.set Config.lookup].
  - destruct (text_eqb k key); reflexivity.
  - destruct (text_eqb k' k) eqn:E; cbn [Config.lookup].
    + apply text_eqb_eq in E. subst k'. destruct (text_eqb k key); reflexivity.
    + destruct (text_eqb k' key) eqn:E'.
      * destruct (text_eqb k key) eqn:E''; [|reflexivity].
        apply text_eqb_eq in E', E''. subst. rewrite text_eqb_refl in E. discriminate.
      * exact IH.
Qed.

Lemma lookup_copy key defaults :
  Config.lookup key (Config.copy defaults)
  = option_map (fun _ => Config.Shared) (Config.lookup key defaults).
Proof.
  unfold Config.copy. induction defaults as [|[k v] d IH]; [reflexivity|].
  cbn [map fst Config.lookup]. destruct (text_eqb k key); [reflexivity|exact IH].
Qed.

Lemma merge_item_other key defaults config k value :
  k <> key ->
  Config.lookup key (fst (Config.merge_item (defaults, config) (k, value)))
  = Config.lookup key defaults
  /\ Config.lookup key (snd (Config.merge_item (defaults, config) (k, value)))
     = Config.lookup key config.
Proof.
  intros Hk.
  assert (E : text_eqb k key = false).
  { destruct (text_eqb k key) eqn:E; [|reflexivity]. apply text_eqb_eq in E. congruence. }
  unfold Config.merge_item.
  destruct (Config.lookup k config) as [[|w]|];
    destruct (Config.read defaults config k) as [[| | | |d]|];
    destruct value; cbn [fst snd]; rewrite ?lookup_set, ?E; split; reflexivity.
Qed.

Lemma merge_config_other key user : forall defaults config,
  ~ In key (map fst user) ->
  Config.lookup key (fst (Config._merge_config (defaults, config) user))
  = Config.lookup key defaults
  /\ Config.lookup key (snd (Config._merge_config (defaults, config) user))
     = Config.lookup key config.
Proof.
  unfold Config._merge_config.
  induction user as [|[k value] user IH]; intros defaults config Hn;
    [split; reflexivity|].
  cbn [fold_left].
  destruct (Config.merge_item (defaults, config) (k, value)) as [d' c'] eqn:E.
  destruct (merge_item_other key defaults config k value) as [H1 H2].
  { intros ->. apply Hn. left. reflexivity. }
  rewrite E in H1, H2. cbn [fst snd] in H1, H2.
  destruct (IH d' c') as [I1 I2].
  { intros H. apply Hn. right. exact H. }
  rewrite I1, I2, H1, H2. split; reflexivity.
Qed.

(** X25. Merging a user configuration changes the defaults of the class.
    An instance starts from a shallow copy of [DEFAULT_CONFIG], so for a key
    under which both the defaults and the user configuration hold a
    dictionary, such as [commit_types], [_merge_config] updates the
    dictionary of the class itself: afterwards [DEFAULT_CONFIG] holds the
    merged dictionary under that key, and an instance created later without
    any user configuration reads the merged dictionary too.  A key under
    which the user configuration holds no dictionary leaves the defaults as
    they were. *)
Theorem merge_changes_class_defaults (defaults user_config : list (text * Config.yaml))
    (key : text) (d u : list (text * Config.yaml)) :
  NoDup (map fst user_config) ->
  Config.lookup key defaults = Some (Config.YDict d) ->
  In (key, Config.YDict u) user_config ->
  let after := Config._merge_config (defaults, Config.copy defaults) user_config in
  Config.lookup key (fst after) = Some (Config.YDict (Config.update d u))
  /\ Config.read (fst after) (snd after) key = Some (Config.YDict (Config.update d u))
  /\ Config.read (fst after) (Config.copy (fst after)) key
     = Some (Config.YDict (Config.update d u))
  /\ forall other,
       (forall w, ~ In (other, Config.YDict w) user_config) ->
       Config.lookup other (fst after) = Config.lookup other defaults.
Proof.
  intros Hnd Hd Hin after.
  assert (Hkey : forall user dflt cfg,
             NoDup (map fst user) -> In (key, Config.YDict u) user ->
             Config.lookup key dflt = Some (Config.YDict d) ->
             Config.lookup key cfg = Some Config.Shared ->
             Config.lookup key (fst (Config._merge_config (dflt, cfg) user))
             = Some (Config.YDict (Config.update d u))
             /\ Config.lookup key (snd (Config._merge_config (dflt, cfg) user))
                = Some Config.Shared).
  { induction user as [|[k value] user IH]; intros dflt cfg Hn Hi Hdf Hcf; [destruct Hi|].
    cbn [map fst] in Hn. inversion Hn as [|? ? Hk Hn']; subst.
    unfold Config._merge_config. cbn [fold_left].
    fold (Config._merge_config (Config.merge_item (dflt, cfg) (k, value)) user).
    destruct Hi as [Hi|Hi].
    - injection Hi as -> ->.
      unfold Config.merge_item at 1 2. unfold Config.read. rewrite Hcf, Hdf.
      destruct (merge_config_other key user
                  (Config.set key (Config.YDict (Config.update d u)) dflt) cfg Hk)
        as [H1 H2].
      rewrite H1, H2, lookup_set, text_eqb_refl. split; [reflexivity|exact Hcf].
    - assert (Hne : k <> key).
      { intros ->. apply Hk. change key with (fst (key, Config.YDict u)).
        apply in_map. exact Hi. }
      destruct (merge_item_other key dflt cfg k value Hne) as [H1 H2].
      destruct (Config.merge_item (dflt, cfg) (k, value)) as [d' c'].
      cbn [fst snd] in H1, H2.
      apply IH; [exact Hn'|exact Hi|rewrite H1; exact Hdf|rewrite H2; exact Hcf]. }
  assert (Hother : forall other user dflt cfg,
             (forall w, ~ In (other, Config.YDict w) user) ->
             Config.lookup other (fst (Config._merge_config (dflt, cfg) user))
             = Config.lookup other dflt).
  { intros other. induction user as [|[k value] user IH]; intros dflt cfg Hno;
      [reflexivity|].
    unfold Config._merge_config. cbn [fold_left].
    fold (Config._merge_config (Config.merge_item (dflt, cfg) (k, value)) user).
    assert (H1 : Config.lookup other (fst (Config.merge_item (dflt, cfg) (k, value)))
                 = Config.lookup other dflt).
    { destruct (text_eqb k other) eqn:E.
      - apply text_eqb_eq in E. subst k.
        unfold Config.merge_item.
        destruct value as [s|b| |l|w];
          try (destruct (Config.lookup other cfg) as [[|?]|];
               destruct (Config.read dflt cfg other) as [[| | | |?]|]; reflexivity).
        exfalso. apply (Hno w). left. reflexivity.
      - apply merge_item_other. intros ->. rewrite text_eqb_refl in E. discriminate. }
    destruct (Config.merge_item (dflt, cfg) (k, value)) as [d' c']. cbn [fst] in H1.
    rewrite IH; [exact H1|]. intros w Hw. apply (Hno w). right. exact Hw. }
  assert (Hc : Config.lookup key (Config.copy defaults) = Some Config.Shared)
    by (rewrite lookup_copy, Hd; reflexivity).
  destruct (Hkey user_config defaults (Config.copy defaults) Hnd Hin Hd Hc) as [H1 H2].
  subst after. split; [exact H1|]. split; [|split].
  - unfold Config.read. rewrite H2. exact H1.
  - unfold Config.read. rewrite lookup_copy, H1. reflexivity.
  - intros other Hno. apply Hother. exact Hno.
Qed.

Lemma merge_changes_class_defaults_witness :
  let after := Config._merge_config (default_dictionary, Config.copy default_dictionary)
                 sample_user_config in
  option_map (fun types => match types with
                           | Config.YDict l => Config.lookup (txt "feat") l
                           | _ => None
                           end)
             (Config.lookup (txt "commit_types") (fst after))
  = Some (Some (Config.YDict [ (txt "bump", Config.YStr (txt "patch")) ]))
  /\ Config.lookup (txt "tag_format") (fst after)
     = Some (Config.YStr (txt "${version}"))
  /\ Config.read (fst after) (snd after) (txt "tag_format")
     = Some (Config.YStr (txt "v${version}")).
Proof.
  cbv zeta.
  destruct (merge_changes_class_defaults default_dictionary sample_user_config
              (txt "commit_types")
              [ (txt "breaking",
                 Config.YDict
                   [ (txt "bump", Config.YStr (txt "major"));
                     (txt "keywords",
                      Config.YList [ Config.YStr (txt "BREAKING CHANGE");
                                     Config.YStr (txt "BREAKING-CHANGE") ]) ]);
                (txt "feat",
                 Config.YDict [ (txt "bump", Config.YStr (txt "minor"));
                                (txt "aliases",
                                 Config.YList [ Config.YStr (txt "feature") ]) ]);
                (txt "fix",
                 Config.YDict [ (txt "bump", Config.YStr (txt "patch"));
                                (txt "aliases",
                                 Config.YList [ Config.YStr (txt "bugfix");
                                                Config.YStr (txt "hotfix") ]) ]);
                (txt "perf",
                 Config.YDict [ (txt "bump", Config.YStr (txt "patch"));
                                (txt "aliases", Config.YList []) ]);
                (txt "revert",
                 Config.YDict [ (txt "bump", Config.YStr (txt "patch"));
                                (txt "aliases", Config.YList []) ]) ]
              [ (txt "feat", Config.YDict [ (txt "bump", Config.YStr (txt "patch")) ]) ])
    as (H1 & _ & _ & H4).
  - repeat constructor; cbn; intuition discriminate.
  - reflexivity.
  - right. left. reflexivity.
  - cbv zeta in H1, H4. split; [rewrite H1; reflexivity|]. split.
    + rewrite H4; [reflexivity|]. intros w [H|[H|[]]]; discriminate H.
    + vm_compute. reflexivity.
Defined.
